(** * View test utilities: [stringify] and [parse]

    A shallow embedding of the view development utilities (the module that
    exports [stringify] and [parse]) together with the properties of its
    three helper classes [RangeParser], [ViewParser] and [ViewStringify].

    Conventions of the embedding.
    - A JavaScript string is a [string]; one [ascii] stands for one code
      unit, so the model is exact on ASCII text.
    - A thrown [Error] is a value of [Error]; every function that can throw
      returns a [Result].  The source throws plain [Error] objects that
      differ by their message only; each constructor of [Error] stands for
      the messages listed next to it.
    - Nodes are objects in the source and positions hold references to them.
      Here a reference is the path of the node from the root of its tree
      ([NodeRef]); a tree is not a DAG, so two references are the same object
      exactly when the paths are equal.
    - The classes imported by the module (nodes, positions, ranges,
      selections, the HTML processor) are not part of it; they are modelled
      by the data types below, and the HTML processor is a parameter of
      [parse].
    - A number is a double.  The numbers of this module are priorities:
      [parseInt] gives an integral double or an infinity, so a number is an
      integer that a double holds, or an infinity ([Js.Number]); rounding
      to a double and printing follow the language (round to nearest, ties
      to even; the shortest digits that read back). *)

From Stdlib Require Import ZArith Lia Ascii String List Bool.
From Stdlib Require Import DecimalPos DecimalFacts.
From stdpp Require Import base list strings.

Local Open Scope Z_scope.

(** ** Tokens *)

Definition ELEMENT_RANGE_START_TOKEN : ascii := "["%char.
Definition ELEMENT_RANGE_END_TOKEN : ascii := "]"%char.
Definition TEXT_RANGE_START_TOKEN : ascii := "{"%char.
Definition TEXT_RANGE_END_TOKEN : ascii := "}"%char.

(** ** Errors *)

(** Which of the three checks of [_createRanges] failed. *)
Inductive Unbalanced : Type :=
| EndWithoutStart (bracket : ascii)
    (* "End of range was found '..' but range was not started before." *)
| StartWhileOpen (bracket : ascii)
    (* "Start of range was found '..' but one range is already started." *)
| NoEndDelimiter.
    (* "Range was started but no end delimiter was found." *)

Inductive Error : Type :=
| TagGrammarError (tagName : string)
    (* "Cannot parse element's tag name: ${tagName}." *)
| MarkerPlacementError (bracket : ascii) (emptyText : bool)
    (* false: "Range delimiter '..' is placed inside text node."
       true:  "Text range delimiter '..' is placed inside empty text node." *)
| UnbalancedRangeError (why : Unbalanced)
| RangeCountMismatchError (found given : nat)
    (* "There are .. ranges found, but ranges order array contains ..
       elements." *)
| InvalidRangeOrderError
    (* "Provided ranges order is invalid." *)
| HostError.
    (* Not thrown by this module: the JavaScript runtime or a collaborating
       class rejects the operation (a property of [null] is used). *)

Inductive Result (A : Type) : Type :=
| Ok (a : A)
| Throw (e : Error).
Arguments Ok {A} a.
Arguments Throw {A} e.

Definition bind {A B : Type} (r : Result A) (k : A -> Result B) : Result B :=
  match r with
  | Ok a => k a
  | Throw e => Throw e
  end.

Notation "x <-! r ;; k" := (bind r (fun x => k))
  (at level 100, r at next level, right associativity).

(** ** Strings as the source uses them *)

Module Js.

(** [String.prototype.toLowerCase], on ASCII letters. *)
Definition lowerChar (c : ascii) : ascii :=
  let n := nat_of_ascii c in
  if ((65 <=? n) && (n <=? 90))%nat then ascii_of_nat (n + 32) else c.

Fixpoint toLowerCase (s : string) : string :=
  match s with
  | EmptyString => EmptyString
  | String c rest => String (lowerChar c) (toLowerCase rest)
  end.

(** [String.prototype.toUpperCase], on ASCII letters (the DOM reports the
    tag names of HTML elements in upper case). *)
Definition upperChar (c : ascii) : ascii :=
  let n := nat_of_ascii c in
  if ((97 <=? n) && (n <=? 122))%nat then ascii_of_nat (n - 32) else c.

Fixpoint toUpperCase (s : string) : string :=
  match s with
  | EmptyString => EmptyString
  | String c rest => String (upperChar c) (toUpperCase rest)
  end.

(** [s.split( sep )] for a one-character separator: all segments, empty
    ones included; the empty string gives one empty segment. *)
Fixpoint split (sep : ascii) (s : string) : list string :=
  match s with
  | EmptyString => [EmptyString]
  | String c rest =>
      if bool_decide (c = sep) then EmptyString :: split sep rest
      else match split sep rest with
           | [] => [String c EmptyString]
           | seg :: segs => String c seg :: segs
           end
  end.

(** [parts.join( sep )]. *)
Fixpoint join (sep : string) (parts : list string) : string :=
  match parts with
  | [] => EmptyString
  | [p] => p
  | p :: rest => p +:+ sep +:+ join sep rest
  end.

(** [s.split( '' )]: the code units of [s], each as a string. *)
Fixpoint chars (s : string) : list string :=
  match s with
  | EmptyString => []
  | String c rest => String c EmptyString :: chars rest
  end.

Definition isDigit (c : ascii) : bool :=
  let n := nat_of_ascii c in ((48 <=? n) && (n <=? 57))%nat.

Definition digitValue (c : ascii) : Z := Z.of_nat (nat_of_ascii c) - 48.

(** White space skipped by [parseInt]: space, TAB, LF, VT, FF, CR. *)
Definition isWhiteSpace (c : ascii) : bool :=
  let n := nat_of_ascii c in ((n =? 32) || ((9 <=? n) && (n <=? 13)))%nat.

Fixpoint skipWhiteSpace (s : string) : string :=
  match s with
  | String c rest => if isWhiteSpace c then skipWhiteSpace rest else s
  | EmptyString => s
  end.

(** *** Numbers *)

(** A number as this module meets it, the priority of an attribute
    element: [Finite n] is the double whose value is the integer [n], and
    the other two values are the infinities.  The two zeros, which [===]
    does not tell apart and which print alike, are one value.  [NaN] is
    [None] where it can occur ([parseInt]). *)
Inductive Number : Type :=
| Finite (value : Z)
| Infinity (negative : bool).

Global Instance Number_eq_dec : EqDecision Number.
Proof. solve_decision. Defined.

(** The double next to the integer [n >= 0]: [n] itself when it has at
    most 53 bits; otherwise the multiple of the unit in the last place
    next to it, the even one of two that are equally near.  Here the
    result may be 2^1024, which stands for infinity. *)
Definition roundToDouble (n : Z) : Z :=
  let bits := Z.log2 n + 1 in
  if bits <=? 53 then n
  else
    let ulp := 2 ^ (bits - 53) in
    let q := n / ulp in
    let r := n mod ulp in
    if (ulp <? 2 * r) || ((2 * r =? ulp) && Z.odd q)
    then (q + 1) * ulp
    else q * ulp.

(** The number value of an integer: what a decimal literal, or the run of
    digits that [parseInt] reads, denotes. *)
Definition toNumber (n : Z) : Number :=
  let m := roundToDouble (Z.abs n) in
  if 2 ^ 1024 <=? m then Infinity (n <? 0) else Finite (Z.sgn n * m).

(** The value of the longest prefix of decimal digits of [s], continuing
    from [acc]; [seen] tells whether a digit was read. *)
Fixpoint digitsPrefix (s : string) (seen : bool) (acc : Z) : option Z :=
  match s with
  | String c rest =>
      if isDigit c then digitsPrefix rest true (10 * acc + digitValue c)
      else if seen then Some acc else None
  | EmptyString => if seen then Some acc else None
  end.

(** [parseInt( s, 10 )]: leading white space is skipped, one sign is
    read, then the longest run of decimal digits; whatever follows the
    digits is ignored.  [None] is [NaN].  The result is the double next to
    the integer that the digits denote.  (The language lets an
    implementation replace the digits after the 20th by zeros before it
    rounds; the model rounds the exact value, as V8 does.) *)
Definition parseInt10 (s : string) : option Number :=
  match skipWhiteSpace s with
  | String "-" rest =>
      option_map (fun n => toNumber (- n)) (digitsPrefix rest false 0)
  | String "+" rest => option_map toNumber (digitsPrefix rest false 0)
  | t => option_map toNumber (digitsPrefix t false 0)
  end.

(** Decimal digits of a positive number, most significant first, by the
    standard conversion of the library. *)
Fixpoint uintToString (u : Decimal.uint) : string :=
  match u with
  | Decimal.Nil => EmptyString
  | Decimal.D0 u => String "0" (uintToString u)
  | Decimal.D1 u => String "1" (uintToString u)
  | Decimal.D2 u => String "2" (uintToString u)
  | Decimal.D3 u => String "3" (uintToString u)
  | Decimal.D4 u => String "4" (uintToString u)
  | Decimal.D5 u => String "5" (uintToString u)
  | Decimal.D6 u => String "6" (uintToString u)
  | Decimal.D7 u => String "7" (uintToString u)
  | Decimal.D8 u => String "8" (uintToString u)
  | Decimal.D9 u => String "9" (uintToString u)
  end.

(** The decimal digits of an integer [n >= 0]. *)
Definition digits (n : Z) : string :=
  match n with
  | Zpos p => uintToString (Pos.to_uint p)
  | _ => "0"
  end.

(** The two multiples of [10^e] around [x], the nearer one first (of two
    that are equally near, the one with the even multiplier). *)
Definition nearest (x : Z) (e : nat) : list Z :=
  let p := 10 ^ Z.of_nat e in
  let lo := x / p * p in
  let hi := lo + p in
  if 2 * (x - lo) <? p then [lo; hi]
  else if p <? 2 * (x - lo) then [hi; lo]
  else if Z.even (x / p) then [lo; hi] else [hi; lo].

(** The integer with the fewest significant digits that denotes the same
    number as [x > 0], the one next to [x] if there are several: the value
    [s * 10^(n-k)] of the number-to-string conversion of the language.
    Fewer significant digits are more zeros at the end, so the multiples of
    the highest power of ten are tried first. *)
Definition shortest (x : Z) : Z :=
  let levels := rev (seq 0 (S (String.length (digits x)))) in
  default x
    (find (fun v => bool_decide (toNumber v = toNumber x))
       (flat_map (nearest x) levels)).

(** A run of digits without the zeros at its end. *)
Fixpoint dropZeros (s : string) : string :=
  match s with
  | EmptyString => EmptyString
  | String c rest =>
      match dropZeros rest with
      | EmptyString =>
          if bool_decide (c = "0"%char) then EmptyString
          else String c EmptyString
      | kept => String c kept
      end
  end.

(** The exponent form of the integer [v] of [n] digits: the first
    significant digit, the others behind a point, and [e+] with [n - 1]. *)
Definition exponentForm (v : Z) : string :=
  let all := digits v in
  let n := Z.of_nat (String.length all) in
  match dropZeros all with
  | String d EmptyString => String d ("e+" +:+ digits (n - 1))
  | String d more => String d ("." +:+ more +:+ "e+" +:+ digits (n - 1))
  | EmptyString => EmptyString
  end.

Definition positiveToString (x : Z) : string :=
  let v := shortest x in
  if v <? 10 ^ 21 then digits v else exponentForm v.

(** The conversion of a finite double. *)
Definition finiteToString (v : Z) : string :=
  match v with
  | 0 => "0"
  | Zpos p => positiveToString (Zpos p)
  | Zneg p => String "-" (positiveToString (Zpos p))
  end.

(** [String( n )], the conversion that [join] and a template string apply
    to a number: the shortest digits that read back as the number, written
    in full below 10^21 and in exponent form from there on.  A [Finite]
    value that no double holds stands for the double next to it, as a
    literal of the language does. *)
Definition numberToString (n : Number) : string :=
  match n with
  | Finite v =>
      match toNumber v with
      | Finite w => finiteToString w
      | Infinity false => "Infinity"
      | Infinity true => "-Infinity"
      end
  | Infinity false => "Infinity"
  | Infinity true => "-Infinity"
  end.

End Js.

(** An integer literal in a statement is the number of that value. *)
Coercion Js.Finite : Z >-> Js.Number.

(** ** Data model *)

(** Modelled from the spec: the generic tree returned by the HTML processor
    ([toDom]), which is not part of this module: a document fragment, an
    element with its tag name, attributes and child nodes, or a text node
    ([textContent]). *)
#[warnings="-register-all"]
Inductive DomNode : Type :=
| DomDocumentFragment (childNodes : list DomNode)
| DomElement (tagName : string) (attributes : list (string * string))
    (childNodes : list DomNode)
| DomText (textContent : string).

(** Modelled from the spec: the three element classes of the view, which
    are imported by this module: [ViewElement] and its subclasses
    [ContainerElement] and [AttributeElement]; only the last has a
    priority. *)
Inductive ElementClass : Type :=
| ViewElement
| ContainerElement
| AttributeElement (priority : Js.Number).

(** Modelled from the spec: a view node, as the imported node classes have
    it: a document fragment, an element or a text.  Attributes are kept in
    insertion order, one entry per key. *)
#[warnings="-register-all"]
Inductive Node : Type :=
| DocumentFragment (children : list Node)
| Element (cls : ElementClass) (name : string)
    (attributes : list (string * string)) (children : list Node)
| Text (data : string).

(** A reference to a node object: its path from the root of the tree. *)
Definition NodeRef : Type := list nat.

(** Modelled from the spec: the imported position class: an owning node
    (container or text) and an integer offset into it.  [nullPosition] is
    what [new Position( parent, offset )] makes of the parent of a node
    that has none: the owner is [null], and the offset is [null] or a
    number. *)
Inductive Position : Type :=
| mkPosition (parent : NodeRef) (offset : Z)
| nullPosition (offset : option Z).

(** [position.parent == node && position.offset === offset]; a null owner
    is no node. *)
Definition isAt (position : Position) (node : NodeRef) (offset : Z) : bool :=
  match position with
  | mkPosition parent offset' =>
      bool_decide (parent = node) && bool_decide (offset' = offset)
  | nullPosition _ => false
  end.

(** [position.parent == node && position.offset >= 0 &&
    position.offset <= length]. *)
Definition isIn (position : Position) (node : NodeRef) (length : Z) : bool :=
  match position with
  | mkPosition parent offset =>
      bool_decide (parent = node) && (0 <=? offset) && (offset <=? length)
  | nullPosition _ => false
  end.

(** The index [position.offset] of [result[ position.offset ]], which is
    read for a position that is in the text. *)
Definition offsetIndex (position : Position) : nat :=
  match position with
  | mkPosition _ offset => Z.to_nat offset
  | nullPosition _ => 0%nat
  end.

(** Modelled from the spec: the imported range class: a start and an end
    position.  [new Range( p, p )] is [mkRange p p], and [range.end = q]
    replaces the second field. *)
Record Range : Type := mkRange { start : Position; end_ : Position }.

Global Instance Position_eq_dec : EqDecision Position.
Proof. solve_decision. Defined.

Global Instance Range_eq_dec : EqDecision Range.
Proof. solve_decision. Defined.

(** Modelled from the spec: [Range.isCollapsed] of the range class, which is
    not part of this module: a range is collapsed when its start equals its
    end. *)
Definition isCollapsed (range : Range) : bool :=
  bool_decide (start range = end_ range).

(** Modelled from the spec: the selection class, which is not part of this
    module: an ordered sequence of ranges and the flag telling that the last
    range is backward. *)
Record Selection : Type := mkSelection {
  getRanges : list Range;
  lastRangeBackward : bool
}.

(** A JavaScript array that may have holes: [None] is an element that reads
    as [undefined]. *)
Abbreviation JsArray A := (list (option A)).

(** [array[ i ]] for any number [i]: [undefined] outside the array. *)
Definition arrayGet {A : Type} (array : list A) (i : Z) : option A :=
  if i <? 0 then None else array !! Z.to_nat i.

(** [array[ i ] = v]: inside the array the element is replaced, beyond its
    end the array grows and the skipped indices become holes. *)
Definition arraySet {A : Type} (array : JsArray A) (i : nat) (v : option A)
  : JsArray A :=
  if (i <? length array)%nat then <[i := v]> array
  else array ++ replicate (i - length array) None ++ [v].

(** Modelled from the spec: what [Selection.setRanges] of the selection
    class, which is not part of this module, takes from an array.  A
    selection is a sequence of ranges, so an array with a hole is refused
    by the class. *)
Fixpoint denseRanges (ranges : JsArray Range) : option (list Range) :=
  match ranges with
  | [] => Some []
  | Some range :: rest => option_map (cons range) (denseRanges rest)
  | None :: _ => None
  end.

(** Modelled from the spec: [selection.setRanges( ranges, isLastBackward )]
    after [new Selection()]. *)
Definition setRanges (ranges : JsArray Range) (isLastBackward : bool)
  : Result Selection :=
  match denseRanges ranges with
  | Some rs => Ok (mkSelection rs isLastBackward)
  | None => Throw HostError
  end.

(** Modelled from the spec: [element.setAttribute( key, value )] of the
    element class, on the ordered attribute map. *)
Fixpoint setAttribute (key value : string) (attrs : list (string * string))
  : list (string * string) :=
  match attrs with
  | [] => [(key, value)]
  | (k, v) :: rest =>
      if bool_decide (k = key) then (key, value) :: rest
      else (k, v) :: setAttribute key value rest
  end.

(** Modelled from the spec: [node.appendChildren( child )] of the element
    and fragment classes. *)
Definition appendChildren (node child : Node) : Node :=
  match node with
  | DocumentFragment children => DocumentFragment (children ++ [child])
  | Element cls name attrs children =>
      Element cls name attrs (children ++ [child])
  | Text data => Text data
  end.

(** ** ViewParser *)

Module ViewParser.

Record ElementInfo : Type := mkInfo {
  name : string;
  type : option string;
  priority : option Js.Number
}.

Definition _convertType (type : string) : option string :=
  if bool_decide (type = "container") || bool_decide (type = "attribute")
  then Some type
  else None.

Definition _convertPriority (priorityString : string)
  : option Js.Number :=
  match Js.parseInt10 priorityString with
  | Some priority => Some priority
  | None => None
  end.

Definition _convertElementName (tagName : string) : Result ElementInfo :=
  let lowered := Js.toLowerCase tagName in
  match Js.split ":" lowered with
  | [part0] =>
      Ok {| name := part0; type := None; priority := None |}
  | [part0; part1] =>
      match _convertType part0 with
      | Some type =>
          Ok {| name := part1; type := Some type; priority := None |}
      | None =>
          match _convertPriority part1 with
          | Some priority =>
              Ok {| name := part0; type := Some "attribute";
                    priority := Some priority |}
          | None => Throw (TagGrammarError lowered)
          end
      end
  | [part0; part1; part2] =>
      match _convertType part0, _convertPriority part2 with
      | Some type, Some priority =>
          Ok {| name := part1; type := Some type;
                priority := Some priority |}
      | _, _ => Throw (TagGrammarError lowered)
      end
  | _ => Throw (TagGrammarError lowered)
  end.

Section WithDefaultPriority.

(** [AttributeElement.DEFAULT_PRIORITY], the priority the constructor
    of [AttributeElement] gives; the class is not part of this module. *)
Variable DEFAULT_PRIORITY : Js.Number.

(** The view element for a DOM element, still without children. *)
Definition _convertElement (tagName : string)
    (attributes : list (string * string)) : Result Node :=
  info <-! _convertElementName tagName ;;
  let cls :=
    if bool_decide (type info = Some "attribute") then
      match priority info with
      | Some p => AttributeElement p
      | None => AttributeElement DEFAULT_PRIORITY
      end
    else if bool_decide (type info = Some "container") then
      ContainerElement
    else ViewElement in
  Ok (Element cls (name info)
        (fold_left (fun attrs kv => setAttribute (fst kv) (snd kv) attrs)
           attributes [])
        []).

Fixpoint _walkDom (domNode : DomNode) : Result Node :=
  let walkChildren :=
    fix loop (children : list DomNode) (viewElement : Node)
      : Result Node :=
      match children with
      | [] => Ok viewElement
      | child :: rest =>
          viewChild <-! _walkDom child ;;
          loop rest (appendChildren viewElement viewChild)
      end in
  match domNode with
  | DomDocumentFragment children =>
      match children with
      | [only] => _walkDom only
      | _ => walkChildren children (DocumentFragment [])
      end
  | DomElement tagName attributes children =>
      viewElement <-! _convertElement tagName attributes ;;
      walkChildren children viewElement
  | DomText textContent => Ok (Text textContent)
  end.

Definition parse (toDom : string -> DomNode) (data : string)
  : Result Node :=
  _walkDom (toDom data).

End WithDefaultPriority.

End ViewParser.

(** ** RangeParser *)

Module RangeParser.

(** An entry of the local [brackets] array of [_getPositions]. *)
Record Bracket : Type := mkBracket { bracketChar : ascii; textOffset : nat }.

(** An entry of [this._positions]. *)
Record Item : Type := mkItem { bracket : ascii; position : Position }.

(** The characters matched by the regular expression of [_getPositions],
    [[ {}\]\[ ]]: the class lists the space (twice) and the four tokens. *)
Definition matches (c : ascii) : bool :=
  bool_decide (c = " "%char)
  || bool_decide (c = TEXT_RANGE_START_TOKEN)
  || bool_decide (c = TEXT_RANGE_END_TOKEN)
  || bool_decide (c = ELEMENT_RANGE_END_TOKEN)
  || bool_decide (c = ELEMENT_RANGE_START_TOKEN).

(** The loop [while ( ( match = regexp.exec( text ) ) )]: [index] is the
    index of the next character of the text, [offset] the number of
    matches so far. *)
Fixpoint scan (text : string) (index offset : nat) : list Bracket :=
  match text with
  | EmptyString => []
  | String c rest =>
      if matches c
      then mkBracket c (index - offset) :: scan rest (S index) (S offset)
      else scan rest (S index) offset
  end.

(** [text.replace( regexp, '' )]. *)
Fixpoint strip (text : string) : string :=
  match text with
  | EmptyString => EmptyString
  | String c rest =>
      if matches c then strip rest else String c (strip rest)
  end.

Definition isTextToken (c : ascii) : bool :=
  bool_decide (c = TEXT_RANGE_START_TOKEN)
  || bool_decide (c = TEXT_RANGE_END_TOKEN).

(** [new Position( parent, index )] and [new Position( parent, index + 1 )]
    for the text node with the parent and index [home].
    Modelled from the spec: [node.parent] and [node.getIndex()] belong to
    the node class, which is not part of this module: a text node has a
    reference to its parent and its index among the children of the parent;
    a node without parent has neither, both are [null], and [null + 1] is
    1. *)
Definition positionBeside (home : option (NodeRef * nat)) (after : bool)
  : Position :=
  match home with
  | Some (parent, index) =>
      mkPosition parent
        (if after then Z.of_nat index + 1 else Z.of_nat index)
  | None => nullPosition (if after then Some 1 else None)
  end.

(** The body of the loop over [brackets], for the text node [self] whose
    stripped content is [text].  [home] is the parent of the node with the
    index of the node in it, or [None] for a node without parent. *)
Definition itemPosition (self : NodeRef) (home : option (NodeRef * nat))
    (text : string) (item : Bracket) : Result Item :=
  if negb (bool_decide (text = EmptyString)) then
    if isTextToken (bracketChar item) then
      Ok (mkItem (bracketChar item)
            (mkPosition self (Z.of_nat (textOffset item))))
    else if negb (textOffset item =? 0)%nat
            && negb (textOffset item =? String.length text)%nat then
      Throw (MarkerPlacementError (bracketChar item) false)
    else
      Ok (mkItem (bracketChar item)
            (positionBeside home (negb (textOffset item =? 0)%nat)))
  else
    if isTextToken (bracketChar item) then
      Throw (MarkerPlacementError (bracketChar item) true)
    else
      Ok (mkItem (bracketChar item) (positionBeside home false)).

Fixpoint itemPositions (self : NodeRef) (home : option (NodeRef * nat))
    (text : string) (brackets : list Bracket) : Result (list Item) :=
  match brackets with
  | [] => Ok []
  | item :: rest =>
      first <-! itemPosition self home text item ;;
      others <-! itemPositions self home text rest ;;
      Ok (first :: others)
  end.

(** What [node.remove()] leaves of the text node with the stripped content
    [text], which is called for an empty text.
    Modelled from the spec: [remove] belongs to the node class, which is
    not part of this module: it detaches the node from its parent; a node
    without parent has nothing to be detached from and stays. *)
Definition afterRemove (home : option (NodeRef * nat)) (text : string)
  : option Node :=
  if bool_decide (text = EmptyString) then
    match home with
    | Some _ => None
    | None => Some (Text text)
    end
  else Some (Text text).

(** The branch of [_getPositions] for a text node with content [data].
    The result is the node that stays in the tree ([None] when the node
    was removed) and the entries pushed to [this._positions]. *)
Definition getPositionsOfText (self : NodeRef)
    (home : option (NodeRef * nat)) (data : string)
  : Result (option Node * list Item) :=
  let brackets := scan data 0 0 in
  let text := strip data in
  let left := afterRemove home text in
  items <-! itemPositions self home text brackets ;;
  Ok (left, items).

Definition keep (kept : list Node) (node : option Node) : list Node :=
  match node with
  | Some n => kept ++ [n]
  | None => kept
  end.

(** [_getPositions( node )].  The source changes the tree in place and
    pushes to [this._positions]; here the changed node and the pushed
    entries are returned.  [kept] holds the children that are in the
    parent when a child is visited: the children visited so far that were
    not removed come first, so the index of the visited child is
    [length kept]. *)
Fixpoint _getPositions (self : NodeRef) (home : option (NodeRef * nat))
    (node : Node) : Result (option Node * list Item) :=
  let visit :=
    fix loop (children kept : list Node) (found : list Item)
      : Result (list Node * list Item) :=
      match children with
      | [] => Ok (kept, found)
      | child :: rest =>
          let index := length kept in
          r <-! _getPositions (self ++ [index]) (Some (self, index)) child ;;
          loop rest (keep kept (fst r)) (found ++ snd r)
      end in
  match node with
  | DocumentFragment children =>
      r <-! visit children [] [] ;;
      Ok (Some (DocumentFragment (fst r)), snd r)
  | Element cls name attrs children =>
      r <-! visit children [] [] ;;
      Ok (Some (Element cls name attrs (fst r)), snd r)
  | Text data => getPositionsOfText self home data
  end.

Definition isStartToken (c : ascii) : bool :=
  bool_decide (c = ELEMENT_RANGE_START_TOKEN)
  || bool_decide (c = TEXT_RANGE_START_TOKEN).

Definition isEndToken (c : ascii) : bool :=
  bool_decide (c = ELEMENT_RANGE_END_TOKEN)
  || bool_decide (c = TEXT_RANGE_END_TOKEN).

(** The state of the loop of [_createRanges]: the array [ranges] and the
    variable [range] ([None] is [null]). *)
Record Builder : Type := mkBuilder {
  ranges : list Range;
  range : option Range
}.

(** One turn of the loop of [_createRanges].  An item that is neither a
    start nor an end token (a space) reaches [range.end = ...], which
    fails in the runtime when [range] is [null]. *)
Definition createStep (st : Builder) (item : Item) : Result Builder :=
  if negb (bool_decide (is_Some (range st))) && isEndToken (bracket item)
  then Throw (UnbalancedRangeError (EndWithoutStart (bracket item)))
  else if bool_decide (is_Some (range st)) && isStartToken (bracket item)
  then Throw (UnbalancedRangeError (StartWhileOpen (bracket item)))
  else if isStartToken (bracket item)
  then Ok (mkBuilder (ranges st)
             (Some (mkRange (position item) (position item))))
  else
    match range st with
    | Some r =>
        Ok (mkBuilder (ranges st ++ [mkRange (start r) (position item)])
              None)
    | None => Throw HostError
    end.

Fixpoint createLoop (positions : list Item) (st : Builder)
  : Result Builder :=
  match positions with
  | [] => Ok st
  | item :: rest => st' <-! createStep st item ;; createLoop rest st'
  end.

Definition _createRanges (positions : list Item) : Result (list Range) :=
  st <-! createLoop positions (mkBuilder [] None) ;;
  match range st with
  | Some _ => Throw (UnbalancedRangeError NoEndDelimiter)
  | None => Ok (ranges st)
  end.

(** The loop of [_sortRanges]; [index] counts the entries of the order
    array read so far. *)
Fixpoint sortLoop (ranges : list Range) (rangesOrder : list Z)
    (index : nat) (sortedRanges : JsArray Range)
  : Result (JsArray Range) :=
  match rangesOrder with
  | [] => Ok sortedRanges
  | newPosition :: rest =>
      match arrayGet ranges (newPosition - 1) with
      | None => Throw InvalidRangeOrderError
      | Some _ =>
          sortLoop ranges rest (S index)
            (arraySet sortedRanges (Z.to_nat (newPosition - 1))
               (ranges !! index))
      end
  end.

Definition _sortRanges (ranges : list Range) (rangesOrder : list Z)
  : Result (JsArray Range) :=
  sortLoop ranges rangesOrder 0 [].

(** The object [node] after [_getPositions]: the root is the caller's
    own reference, so it stays what it is; a text root that lost all of
    its content is the empty text node. *)
Definition scannedRoot (scanned : option Node) : Node :=
  match scanned with
  | Some node => node
  | None => Text EmptyString
  end.

(** [parse( node, order )]: the array of ranges, and with it the node as
    [_getPositions] leaves it. *)
Definition parse (node : Node) (order : list Z)
  : Result (Node * JsArray Range) :=
  scanned <-! _getPositions [] None node ;;
  ranges <-! _createRanges (snd scanned) ;;
  if negb (length order =? 0)%nat then
    if negb (length order =? length ranges)%nat then
      Throw (RangeCountMismatchError (length ranges) (length order))
    else
      sorted <-! _sortRanges ranges order ;;
      Ok (scannedRoot (fst scanned), sorted)
  else Ok (scannedRoot (fst scanned), map Some ranges).

End RangeParser.

(** ** ViewStringify *)

Module ViewStringify.

Record Options : Type := mkOptions { showType : bool; showPriority : bool }.

(** The three strings collected by [_stringifyElementRanges]. *)
Record Marks : Type := mkMarks {
  markStart : string;
  markEnd : string;
  markCollapsed : string
}.

(** The entry of a letter in [_stringifyTextRanges]. *)
Record Letter : Type := mkLetter {
  letter : string;
  letterStart : string;
  letterEnd : string;
  letterCollapsed : string
}.

Definition token (c : ascii) : string := String c EmptyString.

Section WithRanges.

Variable ranges : list Range.
Variable options : Options.

(** One turn of the loop of [_stringifyElementRanges]; [at_] is the
    offset asked for. *)
Definition elementStep (element : NodeRef) (at_ : Z) (marks : Marks)
    (range : Range) : Marks :=
  let marks :=
    if isAt (start range) element at_
    then
      if isCollapsed range then
        mkMarks (markStart marks) (markEnd marks)
          (markCollapsed marks +:+ token ELEMENT_RANGE_START_TOKEN
             +:+ token ELEMENT_RANGE_END_TOKEN)
      else
        mkMarks (markStart marks +:+ token ELEMENT_RANGE_START_TOKEN)
          (markEnd marks) (markCollapsed marks)
    else marks in
  if isAt (end_ range) element at_
     && negb (isCollapsed range)
  then
    mkMarks (markStart marks)
      (markEnd marks +:+ token ELEMENT_RANGE_END_TOKEN)
      (markCollapsed marks)
  else marks.

Definition _stringifyElementRanges (element : NodeRef) (at_ : Z)
  : string :=
  let marks :=
    fold_left (elementStep element at_) ranges
      (mkMarks EmptyString EmptyString EmptyString) in
  markEnd marks +:+ markCollapsed marks +:+ markStart marks.

Definition addCollapsed (l : Letter) : Letter :=
  mkLetter (letter l) (letterStart l) (letterEnd l)
    (letterCollapsed l +:+ token TEXT_RANGE_START_TOKEN
       +:+ token TEXT_RANGE_END_TOKEN).

Definition addStart (l : Letter) : Letter :=
  mkLetter (letter l) (letterStart l +:+ token TEXT_RANGE_START_TOKEN)
    (letterEnd l) (letterCollapsed l).

Definition addEnd (l : Letter) : Letter :=
  mkLetter (letter l) (letterStart l)
    (letterEnd l +:+ token TEXT_RANGE_END_TOKEN) (letterCollapsed l).

(** One turn of the loop of [_stringifyTextRanges]; [length] is the
    length of the text and [result] has [length + 1] entries. *)
Definition textStep (node : NodeRef) (length : Z) (result : list Letter)
    (range : Range) : list Letter :=
  let result :=
    if isIn (start range) node length
    then
      if isCollapsed range
      then alter addCollapsed (offsetIndex (end_ range)) result
      else alter addStart (offsetIndex (start range)) result
    else result in
  if isIn (end_ range) node length
     && negb (isCollapsed range)
  then alter addEnd (offsetIndex (end_ range)) result
  else result.

Definition letterString (item : Letter) : string :=
  letterEnd item +:+ letterCollapsed item +:+ letterStart item
    +:+ letter item.

Definition _stringifyTextRanges (node : NodeRef) (data : string)
  : string :=
  let length := Z.of_nat (String.length data) in
  let result :=
    map (fun letter => mkLetter letter EmptyString EmptyString EmptyString)
      (Js.chars data ++ [EmptyString]) in
  let result := fold_left (textStep node length) ranges result in
  Js.join EmptyString (map letterString result).

Definition _stringifyElementType (cls : ElementClass) : string :=
  if showType options then
    match cls with
    | AttributeElement _ => "attribute"
    | ContainerElement => "container"
    | ViewElement => EmptyString
    end
  else EmptyString.

(** The priority, which [join] turns into a string; the empty string when
    no priority is shown. *)
Definition _stringifyElementPriority (cls : ElementClass) : string :=
  match cls with
  | AttributeElement priority =>
      if showPriority options then Js.numberToString priority
      else EmptyString
  | _ => EmptyString
  end.

Definition nonEmpty (s : string) : bool :=
  negb (bool_decide (s = EmptyString)).

(** [[ type, element.name, priority ].filter( i => i !== '' ).join( ':' )] *)
Definition elementName (cls : ElementClass) (name : string) : string :=
  Js.join ":"
    (filter (fun i => nonEmpty i = true)
       [_stringifyElementType cls; name; _stringifyElementPriority cls]).

Definition quote : string := String (ascii_of_nat 34) EmptyString.

(** Every attribute as [key="value"], joined by spaces. *)
Definition _stringifyElementAttributes
    (attributes : list (string * string)) : string :=
  Js.join " "
    (map (fun kv => fst kv +:+ "=" +:+ quote +:+ snd kv +:+ quote)
       attributes).

Definition _stringifyElementOpen (cls : ElementClass) (name : string)
    (attributes : list (string * string)) : string :=
  "<" +:+ Js.join " "
            (filter (fun i => nonEmpty i = true)
               [elementName cls name;
                _stringifyElementAttributes attributes])
      +:+ ">".

Definition _stringifyElementClose (cls : ElementClass) (name : string)
  : string :=
  "</" +:+ elementName cls name +:+ ">".

(** [_walkView( root, callback )] with the callback of [stringify],
    which appends every chunk to the result: the chunks in order. *)
Fixpoint _walkView (self : NodeRef) (root : Node) : string :=
  let walkChildren :=
    fix loop (children : list Node) (offset : nat) : string :=
      match children with
      | [] => EmptyString
      | child :: rest =>
          _walkView (self ++ [offset]) child
            +:+ _stringifyElementRanges self (Z.of_nat (S offset))
            +:+ loop rest (S offset)
      end in
  match root with
  | DocumentFragment children =>
      _stringifyElementRanges self 0 +:+ walkChildren children 0%nat
  | Element cls name attributes children =>
      _stringifyElementOpen cls name attributes
        +:+ _stringifyElementRanges self 0
        +:+ walkChildren children 0%nat
        +:+ _stringifyElementClose cls name
  | Text data => _stringifyTextRanges self data
  end.

End WithRanges.

(** [new ViewStringify( root, selection, options ).stringify()]. *)
Definition stringify (root : Node) (selection : option Selection)
    (options : Options) : string :=
  let ranges :=
    match selection with
    | Some s => getRanges s
    | None => []
    end in
  _walkView ranges options [] root.

End ViewStringify.

(** ** The exported functions *)

Definition stringify (node : Node) (selection : option Selection)
    (options : ViewStringify.Options) : string :=
  ViewStringify.stringify node selection options.

Record ParseOptions : Type := mkParseOptions {
  order : list Z;
  optLastRangeBackward : bool
}.

(** What [parse] returns: the view alone, or the view with a selection. *)
Inductive Parsed : Type :=
| View (view : Node)
| ViewAndSelection (view : Node) (selection : Selection).

Section Parse.

(** The collaborators: [HtmlDataProcessor.toDom] and the default priority
    of attribute elements. *)
Variable toDom : string -> DomNode.
Variable DEFAULT_PRIORITY : Js.Number.

Definition parse (data : string) (options : ParseOptions) : Result Parsed :=
  view <-! ViewParser.parse DEFAULT_PRIORITY toDom data ;;
  r <-! RangeParser.parse view (order options) ;;
  if negb (length (snd r) =? 0)%nat then
    selection <-! setRanges (snd r) (optLastRangeBackward options) ;;
    Ok (ViewAndSelection (fst r) selection)
  else Ok (View (fst r)).

End Parse.

(** ** A model of the HTML processor *)

(** Modelled from the spec: [HtmlDataProcessor.toDom], the raw-markup
    tokenizer, is not part of this module; the spec only says that it takes
    a string and returns a generic tree of fragments, elements and text
    nodes.  [Html.toDom] reads the markup that [stringify] writes: tags with
    quoted attributes, closing tags and text; an element is closed by the
    next closing tag, and the elements still open at the end are closed
    there.  Tag names are reported in upper case, as the DOM does for HTML
    elements.  The theorems take the processor as a parameter; those
    about a round trip ask of it that it reads the text that [stringify]
    wrote as this tokenizer does.  It is also the concrete processor of
    the examples. *)
Module Html.

Inductive Token : Type :=
| TagOpen (name : string) (attributes : list (string * string))
| TagClose (name : string)
| Chars (text : string).

Inductive LexState : Type :=
| InText (text : string)
| InTagName (closing : bool) (name : string)
| BeforeAttribute (name : string) (attrs : list (string * string))
| InAttributeName (name : string) (attrs : list (string * string))
    (key : string)
| AfterEquals (name : string) (attrs : list (string * string))
    (key : string)
| InAttributeValue (quoted : bool) (name : string)
    (attrs : list (string * string)) (key value : string).

Definition snoc (s : string) (c : ascii) : string :=
  s +:+ String c EmptyString.

Definition flushText (text : string) (out : list Token) : list Token :=
  if bool_decide (text = EmptyString) then out else out ++ [Chars text].

Definition dquote : ascii := ascii_of_nat 34.

(** One character of the input: the next state and the tokens so far. *)
Definition lexStep (st : LexState) (out : list Token) (c : ascii)
  : LexState * list Token :=
  match st with
  | InText text =>
      if bool_decide (c = "<"%char)
      then (InTagName false EmptyString, flushText text out)
      else (InText (snoc text c), out)
  | InTagName closing name =>
      if bool_decide (c = ">"%char) then
        (InText EmptyString,
         out ++ [if closing then TagClose name else TagOpen name []])
      else if bool_decide (c = "/"%char)
              && bool_decide (name = EmptyString) then
        (InTagName true name, out)
      else if bool_decide (c = " "%char) then
        (if closing then InTagName closing name
         else BeforeAttribute name [], out)
      else (InTagName closing (snoc name c), out)
  | BeforeAttribute name attrs =>
      if bool_decide (c = ">"%char)
      then (InText EmptyString, out ++ [TagOpen name attrs])
      else if bool_decide (c = " "%char) then (st, out)
      else (InAttributeName name attrs (String c EmptyString), out)
  | InAttributeName name attrs key =>
      if bool_decide (c = ">"%char) then
        (InText EmptyString,
         out ++ [TagOpen name (attrs ++ [(key, EmptyString)])])
      else if bool_decide (c = "="%char) then
        (AfterEquals name attrs key, out)
      else if bool_decide (c = " "%char) then
        (BeforeAttribute name (attrs ++ [(key, EmptyString)]), out)
      else (InAttributeName name attrs (snoc key c), out)
  | AfterEquals name attrs key =>
      if bool_decide (c = ">"%char) then
        (InText EmptyString,
         out ++ [TagOpen name (attrs ++ [(key, EmptyString)])])
      else if bool_decide (c = dquote) then
        (InAttributeValue true name attrs key EmptyString, out)
      else
        (InAttributeValue false name attrs key (String c EmptyString), out)
  | InAttributeValue quoted name attrs key value =>
      if quoted then
        if bool_decide (c = dquote)
        then (BeforeAttribute name (attrs ++ [(key, value)]), out)
        else (InAttributeValue quoted name attrs key (snoc value c), out)
      else if bool_decide (c = ">"%char) then
        (InText EmptyString, out ++ [TagOpen name (attrs ++ [(key, value)])])
      else if bool_decide (c = " "%char) then
        (BeforeAttribute name (attrs ++ [(key, value)]), out)
      else (InAttributeValue quoted name attrs key (snoc value c), out)
  end.

Fixpoint lex (data : string) (st : LexState) (out : list Token)
  : list Token :=
  match data with
  | EmptyString =>
      match st with
      | InText text => flushText text out
      | _ => out
      end
  | String c rest =>
      let next := lexStep st out c in
      lex rest (fst next) (snd next)
  end.

(** An element that is still open: its tag, its attributes and the
    children its parent had before it. *)
Record Frame : Type := mkFrame {
  frameTag : string;
  frameAttributes : list (string * string);
  frameBefore : list DomNode
}.

Definition close (frame : Frame) (children : list DomNode) : list DomNode :=
  frameBefore frame
    ++ [DomElement (Js.toUpperCase (frameTag frame))
          (frameAttributes frame) children].

Fixpoint closeAll (stack : list Frame) (children : list DomNode)
  : list DomNode :=
  match stack with
  | [] => children
  | frame :: rest => closeAll rest (close frame children)
  end.

Fixpoint build (tokens : list Token) (stack : list Frame)
    (children : list DomNode) : list DomNode :=
  match tokens with
  | [] => closeAll stack children
  | Chars text :: rest => build rest stack (children ++ [DomText text])
  | TagOpen name attrs :: rest =>
      build rest (mkFrame name attrs children :: stack) []
  | TagClose _ :: rest =>
      match stack with
      | [] => build rest stack children
      | frame :: outer => build rest outer (close frame children)
      end
  end.

Definition toDom (data : string) : DomNode :=
  DomDocumentFragment (build (lex data (InText EmptyString) []) [] []).

End Html.

(** ** Vocabulary of the statements *)

(** The options of the round trip, and [parse] called without options. *)
Definition showAll : ViewStringify.Options := ViewStringify.mkOptions true true.
Definition noOptions : ParseOptions := mkParseOptions [] false.

Fixpoint noneOf (p : ascii -> bool) (s : string) : bool :=
  match s with
  | EmptyString => true
  | String c rest => negb (p c) && noneOf p rest
  end.

Definition isColon (c : ascii) : bool := bool_decide (c = ":"%char).
Definition isUpper (c : ascii) : bool :=
  let n := nat_of_ascii c in ((65 <=? n) && (n <=? 90))%nat.

(** A segment of a tag name: no colon inside. *)
Definition noColon (s : string) : bool := noneOf isColon s.

(** A name that the tag grammar gives back as it is: not empty, no colon,
    no upper-case letter. *)
Definition plainName (s : string) : bool :=
  negb (bool_decide (s = EmptyString)) && noColon s && noneOf isUpper s.

(** A text that the scanner leaves alone: not empty, and none of its
    characters is matched (no space, no range token). *)
Definition plainText (s : string) : bool :=
  negb (bool_decide (s = EmptyString)) && noneOf RangeParser.matches s.

(** A number that is written in full and read back: an integer that a
    double holds, of a magnitude below 10^21. *)
Definition plainNumber (n : Js.Number) : bool :=
  match n with
  | Js.Finite v =>
      bool_decide (Js.toNumber v = Js.Finite v) && (Z.abs v <? 10 ^ 21)
  | Js.Infinity _ => false
  end.

(** A class whose priority, if it has one, is such a number. *)
Definition plainClass (cls : ElementClass) : bool :=
  match cls with
  | AttributeElement priority => plainNumber priority
  | _ => true
  end.

Fixpoint allOf (p : ascii -> bool) (s : string) : bool :=
  match s with
  | EmptyString => true
  | String c rest => p c && allOf p rest
  end.

(** The value of a run of decimal digits, continuing from [acc]. *)
Fixpoint digitsValue (ds : string) (acc : Z) : Z :=
  match ds with
  | EmptyString => acc
  | String c rest => digitsValue rest (10 * acc + Js.digitValue c)
  end.

(** A text that does not go on with a digit. *)
Definition noDigitAhead (rest : string) : bool :=
  match rest with
  | EmptyString => true
  | String c _ => negb (Js.isDigit c)
  end.

(** A text that starts, after white space and one sign, with a digit. *)
Definition startsWithNumber (s : string) : bool :=
  match Js.skipWhiteSpace s with
  | EmptyString => false
  | String c rest =>
      if bool_decide (c = "-"%char) || bool_decide (c = "+"%char)
      then negb (noDigitAhead rest)
      else Js.isDigit c
  end.

(** The contents of the text nodes of a tree, in document order. *)
Fixpoint textNodes (node : Node) : list string :=
  match node with
  | DocumentFragment children => flat_map textNodes children
  | Element _ _ _ children => flat_map textNodes children
  | Text data => [data]
  end.

Definition isText (node : Node) : bool :=
  match node with
  | Text _ => true
  | _ => false
  end.

(** *** Trees whose markup the reference tokenizer reads *)

(** A character that ends a name inside a tag. *)
Definition isBreak (c : ascii) : bool :=
  bool_decide (c = "<"%char) || bool_decide (c = ">"%char)
  || bool_decide (c = " "%char) || bool_decide (c = "/"%char)
  || bool_decide (c = "="%char) || bool_decide (c = Html.dquote).

Definition isLess (c : ascii) : bool := bool_decide (c = "<"%char).
Definition isQuote (c : ascii) : bool := bool_decide (c = Html.dquote).

(** An attribute that can be written into a tag: the key is not empty and
    holds no character that ends it, the value holds no quote. *)
Definition markupAttribute (kv : string * string) : bool :=
  negb (bool_decide (fst kv = EmptyString)) && noneOf isBreak (fst kv)
  && noneOf isQuote (snd kv).

(** No two text nodes next to each other (written one after the other,
    they read as one text). *)
Fixpoint noTextPair (children : list Node) : bool :=
  match children with
  | [] => true
  | first :: rest =>
      match rest with
      | second :: _ => negb (isText first && isText second)
      | [] => true
      end
      && noTextPair rest
  end.

(** A node below the root whose markup is read back as the node: an
    element with a plain name that can stand in a tag, a priority that is
    written in full, one entry per attribute key, attributes that can be
    written, no two text children next to each other, and children of the
    same kind; or a text that is not empty and holds no [<]. *)
Fixpoint markupNode (node : Node) : bool :=
  match node with
  | DocumentFragment _ => false
  | Element cls name attrs children =>
      plainName name && noneOf isBreak name && plainClass cls
      && bool_decide (NoDup (map fst attrs))
      && forallb markupAttribute attrs
      && noTextPair children
      && forallb markupNode children
  | Text data =>
      negb (bool_decide (data = EmptyString)) && noneOf isLess data
  end.

(** A tree whose markup is read back as the tree: such a node, or a
    fragment of such nodes that does not hold exactly one child. *)
Definition markupTree (node : Node) : bool :=
  match node with
  | DocumentFragment children =>
      negb (length children =? 1)%nat && noTextPair children
      && forallb markupNode children
  | _ => markupNode node
  end.

(** A tree that survives the round trip: its markup is read back and the
    scanner leaves its texts alone. *)
Definition plainTree (node : Node) : bool :=
  markupTree node && forallb plainText (textNodes node).

(** What [stringify] writes for a node when there is no range: the tags
    around the markup of the children, or the text. *)
Fixpoint markup (options : ViewStringify.Options) (node : Node) : string :=
  let all :=
    fix all (children : list Node) : string :=
      match children with
      | [] => EmptyString
      | child :: rest => markup options child +:+ all rest
      end in
  match node with
  | DocumentFragment children => all children
  | Element cls name attrs children =>
      ViewStringify._stringifyElementOpen options cls name attrs
        +:+ all children
        +:+ ViewStringify._stringifyElementClose options cls name
  | Text data => data
  end.

Definition markupAll (options : ViewStringify.Options)
  : list Node -> string :=
  fix all (children : list Node) : string :=
    match children with
    | [] => EmptyString
    | child :: rest => markup options child +:+ all rest
    end.

(** The tokens of the markup of a node. *)
Fixpoint tokensOf (node : Node) : list Html.Token :=
  match node with
  | DocumentFragment children => flat_map tokensOf children
  | Element cls name attrs children =>
      Html.TagOpen (ViewStringify.elementName showAll cls name) attrs
        :: flat_map tokensOf children
        ++ [Html.TagClose (ViewStringify.elementName showAll cls name)]
  | Text data => [Html.Chars data]
  end.

(** A text at which a run of characters ends: the end of the input or the
    start of a tag. *)
Definition closed (rest : string) : Prop :=
  rest = EmptyString \/ exists r, rest = String "<" r.

Section GenericImage.

(** How the processor reports a tag name it read (the DOM gives upper
    case for HTML elements). *)
Variable tagCase : string -> string.

(** The generic tree of a view node: what the processor is to return for
    the text that [stringify] writes for the node with [showAll]. *)
Fixpoint domOf (node : Node) : DomNode :=
  match node with
  | DocumentFragment children => DomDocumentFragment (map domOf children)
  | Element cls name attrs children =>
      DomElement (tagCase (ViewStringify.elementName showAll cls name))
        attrs (map domOf children)
  | Text data => DomText data
  end.

(** The document fragment the processor returns for a whole tree. *)
Definition domRoot (node : Node) : DomNode :=
  match node with
  | DocumentFragment children => DomDocumentFragment (map domOf children)
  | _ => DomDocumentFragment [domOf node]
  end.

End GenericImage.

Definition isElementToken (c : ascii) : bool :=
  bool_decide (c = ELEMENT_RANGE_START_TOKEN)
  || bool_decide (c = ELEMENT_RANGE_END_TOKEN).

(** An element-range token strictly inside the stripped text of [data]. *)
Definition elementTokenInside (data : string) : bool :=
  existsb
    (fun b =>
       isElementToken (RangeParser.bracketChar b)
       && negb (RangeParser.textOffset b =? 0)%nat
       && negb (RangeParser.textOffset b
                  =? String.length (RangeParser.strip data))%nat)
    (RangeParser.scan data 0 0).

(** A matched character that is no text-range token, so an element-range
    token or a space, strictly inside the stripped text of [data]. *)
Definition delimiterInside (data : string) : bool :=
  existsb
    (fun b =>
       negb (RangeParser.isTextToken (RangeParser.bracketChar b))
       && negb (RangeParser.textOffset b =? 0)%nat
       && negb (RangeParser.textOffset b
                  =? String.length (RangeParser.strip data))%nat)
    (RangeParser.scan data 0 0).

(** A text-range token in a text whose stripped content is empty. *)
Definition textTokenInEmpty (data : string) : bool :=
  bool_decide (RangeParser.strip data = EmptyString)
  && existsb (fun b => RangeParser.isTextToken (RangeParser.bracketChar b))
       (RangeParser.scan data 0 0).

Definition isSpace (c : ascii) : bool := bool_decide (c = " "%char).

Definition isRangeToken (c : ascii) : bool :=
  RangeParser.isStartToken c || RangeParser.isEndToken c.

Fixpoint someOf (p : ascii -> bool) (s : string) : bool :=
  match s with
  | EmptyString => false
  | String c rest => p c || someOf p rest
  end.

(** The tokens [stringify] is to write at the position [at_]: the end
    tokens of the ranges that end there, the pairs of the ranges collapsed
    there, the start tokens of the ranges that start there. *)
Fixpoint tokensFor (select : Range -> bool) (tokens : string)
    (ranges : list Range) : string :=
  match ranges with
  | [] => EmptyString
  | range :: rest =>
      (if select range then tokens else EmptyString)
        +:+ tokensFor select tokens rest
  end.

Definition endsAt (at_ : Position) (range : Range) : bool :=
  bool_decide (end_ range = at_) && negb (isCollapsed range).
Definition collapsedAt (at_ : Position) (range : Range) : bool :=
  bool_decide (start range = at_) && isCollapsed range.
Definition startsAt (at_ : Position) (range : Range) : bool :=
  bool_decide (start range = at_) && negb (isCollapsed range).

Definition boundaryTokens (startToken endToken : ascii)
    (ranges : list Range) (at_ : Position) : string :=
  tokensFor (endsAt at_) (String endToken EmptyString) ranges
    +:+ tokensFor (collapsedAt at_)
          (String startToken (String endToken EmptyString)) ranges
    +:+ tokensFor (startsAt at_) (String startToken EmptyString) ranges.

(** The text [data] of the node [node] with the tokens of every character
    offset from [i] on written before the character at that offset, and
    those of the offset after the last character at the end. *)
Fixpoint textWithTokens (ranges : list Range) (node : NodeRef) (i : nat)
    (data : string) : string :=
  boundaryTokens TEXT_RANGE_START_TOKEN TEXT_RANGE_END_TOKEN ranges
    (mkPosition node (Z.of_nat i))
  +:+ match data with
      | EmptyString => EmptyString
      | String c rest => String c (textWithTokens ranges node (S i) rest)
      end.

(** What [stringify] is to write for the node [node] at the path [self]
    and the ranges [ranges]: the tags and the texts, with the tokens of
    every container offset after the opening tag (offset 0) and after each
    child (the offset behind it), and the tokens of every character offset
    inside the texts. *)
Fixpoint withTokens (ranges : list Range) (options : ViewStringify.Options)
    (self : NodeRef) (node : Node) : string :=
  let all :=
    fix all (children : list Node) (offset : nat) : string :=
      match children with
      | [] => EmptyString
      | child :: rest =>
          withTokens ranges options (self ++ [offset]) child
            +:+ boundaryTokens ELEMENT_RANGE_START_TOKEN
                  ELEMENT_RANGE_END_TOKEN ranges
                  (mkPosition self (Z.of_nat offset + 1))
            +:+ all rest (S offset)
      end in
  match node with
  | DocumentFragment children =>
      boundaryTokens ELEMENT_RANGE_START_TOKEN ELEMENT_RANGE_END_TOKEN ranges
        (mkPosition self 0)
        +:+ all children 0%nat
  | Element cls name attrs children =>
      ViewStringify._stringifyElementOpen options cls name attrs
        +:+ boundaryTokens ELEMENT_RANGE_START_TOKEN ELEMENT_RANGE_END_TOKEN
              ranges (mkPosition self 0)
        +:+ all children 0%nat
        +:+ ViewStringify._stringifyElementClose options cls name
  | Text data => textWithTokens ranges self 0 data
  end.

Definition withTokensAll (ranges : list Range)
    (options : ViewStringify.Options) (self : NodeRef)
  : list Node -> nat -> string :=
  fix all (children : list Node) (offset : nat) : string :=
    match children with
    | [] => EmptyString
    | child :: rest =>
        withTokens ranges options (self ++ [offset]) child
          +:+ boundaryTokens ELEMENT_RANGE_START_TOKEN
                ELEMENT_RANGE_END_TOKEN ranges
                (mkPosition self (Z.of_nat offset + 1))
          +:+ all rest (S offset)
    end.

(** [f] on every element of a list, in order, stopping at the first
    failure. *)
Fixpoint mapResult {A B : Type} (f : A -> Result B) (l : list A)
  : Result (list B) :=
  match l with
  | [] => Ok []
  | a :: rest =>
      b <-! f a ;; bs <-! mapResult f rest ;; Ok (b :: bs)
  end.

Definition appendAll (node : Node) (children : list Node) : Node :=
  fold_left appendChildren children node.

(** The loop over the child nodes of [_walkDom], on its own. *)
Definition walkChildren (D : Js.Number) : list DomNode -> Node -> Result Node :=
  fix loop (children : list DomNode) (viewElement : Node) : Result Node :=
    match children with
    | [] => Ok viewElement
    | child :: rest =>
        viewChild <-! ViewParser._walkDom D child ;;
        loop rest (appendChildren viewElement viewChild)
    end.

(** Reading [array[ i ]]: [None] for a hole and beyond the end alike. *)
Definition arrayRead {A : Type} (array : JsArray A) (i : nat) : option A :=
  match array !! i with
  | Some v => v
  | None => None
  end.

(** A target index of the order array that names a range: between 1 and
    the number of ranges. *)
Definition inRange (n : nat) (k : Z) : bool := (1 <=? k) && (k <=? Z.of_nat n).

(** The assignments of [_sortRanges] without its check. *)
Fixpoint assignAll (ranges : list Range) (rangesOrder : list Z) (index : nat)
    (sortedRanges : JsArray Range) : JsArray Range :=
  match rangesOrder with
  | [] => sortedRanges
  | newPosition :: rest =>
      assignAll ranges rest (S index)
        (arraySet sortedRanges (Z.to_nat (newPosition - 1))
           (ranges !! index))
  end.

(** The entry of the letter at offset [i] of the text node [node] once
    every range of [ranges] has been looked at. *)
Definition decorate (ranges : list Range) (node : NodeRef) (i : nat)
    (l : ViewStringify.Letter) : ViewStringify.Letter :=
  let at_ := mkPosition node (Z.of_nat i) in
  ViewStringify.mkLetter (ViewStringify.letter l)
    (ViewStringify.letterStart l
       +:+ tokensFor (startsAt at_)
             (String TEXT_RANGE_START_TOKEN EmptyString) ranges)
    (ViewStringify.letterEnd l
       +:+ tokensFor (endsAt at_)
             (String TEXT_RANGE_END_TOKEN EmptyString) ranges)
    (ViewStringify.letterCollapsed l
       +:+ tokensFor (collapsedAt at_)
             (String TEXT_RANGE_START_TOKEN
                (String TEXT_RANGE_END_TOKEN EmptyString)) ranges).

(** The loop over the children of [_getPositions], on its own. *)
Definition visitChildren (self : NodeRef)
  : list Node -> list Node -> list RangeParser.Item ->
    Result (list Node * list RangeParser.Item) :=
  fix loop (children kept : list Node) (found : list RangeParser.Item)
    : Result (list Node * list RangeParser.Item) :=
    match children with
    | [] => Ok (kept, found)
    | child :: rest =>
        let index := length kept in
        r <-! RangeParser._getPositions (self ++ [index])
                (Some (self, index)) child ;;
        loop rest (RangeParser.keep kept (fst r)) (found ++ snd r)
    end.

(** The text nodes of what [_getPositions] leaves of a node. *)
Definition textNodesLeft (node : option Node) : list string :=
  match node with
  | Some n => textNodes n
  | None => []
  end.

Definition nonEmptyText (data : string) : bool :=
  negb (bool_decide (data = EmptyString)).

(** The characters of a text that the scanner matches, in order. *)
Fixpoint matched (data : string) : list ascii :=
  match data with
  | EmptyString => []
  | String c rest =>
      if RangeParser.matches c then c :: matched rest else matched rest
  end.

Definition parsedView (parsed : Parsed) : Node :=
  match parsed with
  | View view => view
  | ViewAndSelection view _ => view
  end.

(** What the scan of a tree that went through tells about its text nodes
    and about the positions found: the text nodes left are the stripped
    texts that are not empty (a text node without parent stays when it is
    empty), the positions are those of the matched characters in order,
    and no text node holds a misplaced token. *)
Definition scannedWell (home : option (NodeRef * nat)) (node : Node)
    (r : option Node * list RangeParser.Item) : Prop :=
  (textNodesLeft (fst r)
   = filter (fun d => nonEmptyText d = true)
       (map RangeParser.strip (textNodes node))
   \/ (home = None
       /\ fst r = Some (Text EmptyString)
       /\ exists data, node = Text data
                       /\ RangeParser.strip data = EmptyString))
  /\ map RangeParser.bracket (snd r) = flat_map matched (textNodes node)
  /\ Forall (fun d => elementTokenInside d = false
                      /\ textTokenInEmpty d = false)
       (textNodes node).

(** The loop over the children of [_walkView], on its own. *)
Definition walkViewChildren (ranges : list Range)
    (options : ViewStringify.Options) (self : NodeRef)
  : list Node -> nat -> string :=
  fix loop (children : list Node) (offset : nat) : string :=
    match children with
    | [] => EmptyString
    | child :: rest =>
        ViewStringify._walkView ranges options (self ++ [offset]) child
          +:+ ViewStringify._stringifyElementRanges ranges self
                (Z.of_nat (S offset))
          +:+ loop rest (S offset)
    end.



(** *** A tree with the pair of a collapsed range *)

(** The text [data] with the pair of text-range tokens before the
    character at [offset]. *)
Fixpoint pairInside (offset : nat) (data : string) : string :=
  match offset, data with
  | S n, String c rest => String c (pairInside n rest)
  | _, _ => String TEXT_RANGE_START_TOKEN (String TEXT_RANGE_END_TOKEN data)
  end.

(** The children with the pair of element-range tokens at [offset]: at
    the end of the text before that offset, or at the start of the text
    behind it, or as a text of its own between two elements. *)
Fixpoint pairAmong (offset : nat) (children : list Node) : list Node :=
  match offset with
  | O =>
      match children with
      | Text data :: rest => Text ("[]" +:+ data) :: rest
      | _ => Text "[]" :: children
      end
  | S n =>
      match children with
      | [] => []
      | child :: rest =>
          match n, child with
          | O, Text data => Text (data +:+ "[]") :: rest
          | _, _ => child :: pairAmong n rest
          end
      end
  end.

(** The tree with the pair of tokens of a collapsed range at the offset
    [offset] of the node at [path]: what the processor reads in the text
    that [stringify] writes for the tree and the range. *)
Fixpoint withPair (path : NodeRef) (offset : nat) (node : Node) : Node :=
  match path with
  | [] =>
      match node with
      | DocumentFragment children =>
          DocumentFragment (pairAmong offset children)
      | Element cls name attrs children =>
          Element cls name attrs (pairAmong offset children)
      | Text data => Text (pairInside offset data)
      end
  | i :: rest =>
      match node with
      | DocumentFragment children =>
          DocumentFragment (alter (withPair rest offset) i children)
      | Element cls name attrs children =>
          Element cls name attrs (alter (withPair rest offset) i children)
      | Text data => Text data
      end
  end.
(** ** Vocabulary of the further properties *)

(** The tag names of the elements of a generic tree, in the order in which
    [_walkDom] converts them: an element before its children. *)
Fixpoint domTags (domNode : DomNode) : list string :=
  match domNode with
  | DomDocumentFragment children => flat_map domTags children
  | DomElement tagName _ children => tagName :: flat_map domTags children
  | DomText _ => []
  end.

(** The contents of the text nodes of a generic tree, in document order. *)
Fixpoint domTexts (domNode : DomNode) : list string :=
  match domNode with
  | DomDocumentFragment children => flat_map domTexts children
  | DomElement _ _ children => flat_map domTexts children
  | DomText textContent => [textContent]
  end.

(** A tag name that the tag grammar accepts. *)
Definition tagAccepted (tagName : string) : bool :=
  match ViewParser._convertElementName tagName with
  | Ok _ => true
  | Throw _ => false
  end.

(** The class that [parse] gives to an element of class [cls] that
    [stringify] wrote with [options]: what is left of the class and of the
    priority in the tag name. *)
Definition readBack (DEFAULT_PRIORITY : Js.Number)
    (options : ViewStringify.Options)
    (cls : ElementClass) : ElementClass :=
  match cls with
  | ViewElement => ViewElement
  | ContainerElement =>
      if ViewStringify.showType options then ContainerElement else ViewElement
  | AttributeElement priority =>
      if ViewStringify.showPriority options then AttributeElement priority
      else if ViewStringify.showType options
           then AttributeElement DEFAULT_PRIORITY
           else ViewElement
  end.

(** The ranges that a stream of positions pairs up to: a start token, then
    an item that is not a start token, again and again. *)
Fixpoint pairUp (positions : list RangeParser.Item) : option (list Range) :=
  match positions with
  | [] => Some []
  | first :: second :: rest =>
      if RangeParser.isStartToken (RangeParser.bracket first)
         && negb (RangeParser.isStartToken (RangeParser.bracket second))
      then option_map
             (cons (mkRange (RangeParser.position first)
                      (RangeParser.position second)))
             (pairUp rest)
      else None
  | [_] => None
  end.

(** The node that a reference names in a tree. *)
Fixpoint nodeAt (path : NodeRef) (tree : Node) : option Node :=
  match path with
  | [] => Some tree
  | i :: rest =>
      match tree with
      | DocumentFragment children
      | Element _ _ _ children =>
          match children !! i with
          | Some child => nodeAt rest child
          | None => None
          end
      | Text _ => None
      end
  end.

(** A position that is in a tree: its owner is a node of the tree and its
    offset lies between 0 and the number of children of the owner, or the
    length of its text. *)
Definition validPosition (tree : Node) (at_ : Position) : bool :=
  match at_ with
  | mkPosition parent offset =>
      match nodeAt parent tree with
      | Some (DocumentFragment children)
      | Some (Element _ _ _ children) =>
          (0 <=? offset) && (offset <=? Z.of_nat (length children))
      | Some (Text data) =>
          (0 <=? offset) && (offset <=? Z.of_nat (String.length data))
      | None => false
      end
  | nullPosition _ => false
  end.

(** The target indices that leave the order of the ranges as it is:
    [1, 2, ..., n]. *)
Definition identityOrder (n : nat) : list Z :=
  map (fun i => Z.of_nat (S i)) (seq 0 n).

(** The attributes of a DOM element as the loop of [_convertElement] sets
    them on the new view element. *)
Definition copyAttributes (attributes : list (string * string))
  : list (string * string) :=
  fold_left (fun acc kv => setAttribute (fst kv) (snd kv) acc) attributes [].

(** The first tag name of a generic tree that the tag grammar refuses. *)
Definition firstRefusedTag (domNode : DomNode) : option string :=
  find (fun tagName => negb (tagAccepted tagName)) (domTags domNode).

(** A position that [_stringifyTextRanges] does not look at for the text
    node [node] of length [len]: in another node, or beyond the text. *)
Definition outsideText (node : NodeRef) (len : nat) (at_ : Position) : Prop :=
  match at_ with
  | mkPosition parent offset =>
      parent <> node \/ offset < 0 \/ Z.of_nat len < offset
  | nullPosition _ => True
  end.

(** A position that is in [tree] when [tree] is the node that the
    reference [self] names: its owner is named by a reference that goes
    on from [self], and it is a position of the tree from there. *)
Definition positionUnder (self : NodeRef) (tree : Node) (at_ : Position)
  : Prop :=
  exists suffix offset,
    at_ = mkPosition (self ++ suffix) offset
    /\ validPosition tree (mkPosition suffix offset) = true.

(** A position that is in a node named by [self] whose children are
    [kept]: between two of the children, or in one of them. *)
Definition positionAmong (self : NodeRef) (kept : list Node) (at_ : Position)
  : Prop :=
  (exists offset,
      at_ = mkPosition self offset /\ 0 <= offset <= Z.of_nat (length kept))
  \/ exists i child suffix offset,
       at_ = mkPosition (self ++ i :: suffix) offset
       /\ kept !! i = Some child
       /\ validPosition child (mkPosition suffix offset) = true.

(** The position of an element-range token at an edge of a text node that
    has no parent: no owner, and the offset [null] in front of the text
    or 1 behind it. *)
Definition detachedPosition (at_ : Position) : bool :=
  match at_ with
  | nullPosition None => true
  | nullPosition (Some offset) => offset =? 1
  | mkPosition _ _ => false
  end.

(** Where [_getPositions] puts a position for the node named by [self]
    with the parent and index [home], of which it leaves [scanned]: in
    what is left of the node; or in the parent, in front of the node or,
    when the node stays, behind it; or, for a text without parent, beside
    the text and in no node. *)
Definition positionPlaced (self : NodeRef) (home : option (NodeRef * nat))
    (scanned : option Node) (at_ : Position) : Prop :=
  (exists node, scanned = Some node /\ positionUnder self node at_)
  \/ (exists owner index,
         home = Some (owner, index)
         /\ (at_ = mkPosition owner (Z.of_nat index)
             \/ (at_ = mkPosition owner (Z.of_nat index + 1)
                 /\ scanned <> None)))
  \/ (home = None /\ detachedPosition at_ = true
      /\ exists text, scanned = Some (Text text)).

(** A position of a range that [parse] returns with the view [view]: a
    position of the view, or, when the view is a text alone, the position
    of an element-range token beside it. *)
Definition positionReturned (view : Node) (at_ : Position) : Prop :=
  validPosition view at_ = true
  \/ (isText view = true /\ detachedPosition at_ = true).

(** * Properties *)

(** ** Strings *)

#[local] Arguments String.append : simpl nomatch.

Lemma append_nil_r (s : string) : s +:+ EmptyString = s.
Proof. induction s; simpl; congruence. Qed.

Lemma append_assoc (a b c : string) : (a +:+ b) +:+ c = a +:+ (b +:+ c).
Proof. induction a; simpl; congruence. Qed.

Lemma noneOf_app (p : ascii -> bool) (a b : string) :
  noneOf p (a +:+ b) = noneOf p a && noneOf p b.
Proof.
  induction a as [|c a IH]; simpl; [reflexivity|].
  rewrite IH. now rewrite andb_assoc.
Qed.

Lemma split_noColon (s : string) :
  noColon s = true -> Js.split ":" s = [s].
Proof.
  induction s as [|c s IH]; simpl; [reflexivity|].
  unfold noColon in *; simpl. intros H.
  apply andb_prop in H as [Hc Hs]. unfold isColon in Hc.
  destruct (bool_decide (c = ":"%char)); [discriminate|].
  now rewrite (IH Hs).
Qed.

Lemma split_segment (a b : string) :
  noColon a = true ->
  Js.split ":" (a +:+ String ":" b) = a :: Js.split ":" b.
Proof.
  induction a as [|c a IH]; simpl; [reflexivity|].
  unfold noColon in *; simpl. intros H.
  apply andb_prop in H as [Hc Hs]. unfold isColon in Hc.
  destruct (bool_decide (c = ":"%char)); [discriminate|].
  now rewrite (IH Hs).
Qed.

Lemma lowerChar_fixed (c : ascii) : isUpper c = false -> Js.lowerChar c = c.
Proof. unfold isUpper, Js.lowerChar. now intros ->. Qed.

Lemma toLowerCase_fixed (s : string) :
  noneOf isUpper s = true -> Js.toLowerCase s = s.
Proof.
  induction s as [|c s IH]; simpl; [reflexivity|].
  intros H. apply andb_prop in H as [Hc Hs].
  apply negb_true_iff in Hc.
  now rewrite lowerChar_fixed, IH.
Qed.

Lemma lowerChar_upperChar (c : ascii) :
  Js.lowerChar (Js.upperChar c) = Js.lowerChar c.
Proof.
  destruct c as [[] [] [] [] [] [] [] []]; vm_compute; reflexivity.
Qed.

Lemma toLowerCase_toUpperCase (s : string) :
  Js.toLowerCase (Js.toUpperCase s) = Js.toLowerCase s.
Proof.
  induction s as [|c s IH]; simpl; [reflexivity|].
  now rewrite lowerChar_upperChar, IH.
Qed.

(** ** Numbers and their decimal form *)

Lemma digitsPrefix_value (ds rest : string) :
  allOf Js.isDigit ds = true ->
  noDigitAhead rest = true ->
  forall (seen : bool) (acc : Z),
    ds <> EmptyString \/ seen = true ->
    Js.digitsPrefix (ds +:+ rest) seen acc = Some (digitsValue ds acc).
Proof.
  intros Hds Hrest. induction ds as [|c ds IH]; intros seen acc Hseen.
  - destruct Hseen as [H| ->]; [congruence|]. simpl.
    destruct rest as [|c r]; simpl in *; [reflexivity|].
    apply negb_true_iff in Hrest. now rewrite Hrest.
  - simpl in Hds. apply andb_prop in Hds as [Hc Hds].
    simpl. rewrite Hc. apply IH; auto.
Qed.

Lemma digitsPrefix_none (s : string) (acc : Z) :
  noDigitAhead s = true -> Js.digitsPrefix s false acc = None.
Proof.
  destruct s as [|c s]; simpl; [reflexivity|].
  intros H. apply negb_true_iff in H. now rewrite H.
Qed.

Lemma digitsPrefix_some (s : string) (acc : Z) :
  noDigitAhead s = false -> is_Some (Js.digitsPrefix s false acc).
Proof.
  destruct s as [|c s]; simpl; [discriminate|].
  intros H. apply negb_false_iff in H. rewrite H.
  generalize (10 * acc + Js.digitValue c). clear.
  induction s as [|c s IH]; intros acc; simpl; [eauto|].
  destruct (Js.isDigit c); eauto.
Qed.

Lemma uintToString_digits (u : Decimal.uint) :
  allOf Js.isDigit (Js.uintToString u) = true.
Proof. induction u; simpl; auto. Qed.

Lemma digitsValue_acc (u : Decimal.uint) (acc : positive) :
  digitsValue (Js.uintToString u) (Zpos acc)
  = Zpos (Pos.of_uint_acc u acc).
Proof.
  revert acc.
  induction u as [|u IH|u IH|u IH|u IH|u IH|u IH|u IH|u IH|u IH|u IH];
    intros acc; simpl;
    try (rewrite <- IH; f_equal; vm_compute Js.digitValue; lia).
  reflexivity.
Qed.

Lemma digitsValue_uint (u : Decimal.uint) :
  digitsValue (Js.uintToString u) 0 = Z.of_N (Pos.of_uint u).
Proof.
  induction u as [|u IH|u IH|u IH|u IH|u IH|u IH|u IH|u IH|u IH|u IH];
    simpl; try reflexivity; try exact IH.
  - apply (digitsValue_acc u 1).
  - apply (digitsValue_acc u 2).
  - apply (digitsValue_acc u 3).
  - apply (digitsValue_acc u 4).
  - apply (digitsValue_acc u 5).
  - apply (digitsValue_acc u 6).
  - apply (digitsValue_acc u 7).
  - apply (digitsValue_acc u 8).
  - apply (digitsValue_acc u 9).
Qed.

Lemma uintToString_head (p : positive) :
  exists c s, Js.uintToString (Pos.to_uint p) = String c s
              /\ Js.isDigit c = true.
Proof.
  pose proof (Unsigned.to_uint_nonnil p) as H.
  destruct (Pos.to_uint p); try congruence; simpl; eauto.
Qed.

Lemma digits_allOf (v : Z) : allOf Js.isDigit (Js.digits v) = true.
Proof. destruct v; simpl; try reflexivity. apply uintToString_digits. Qed.

Lemma digits_nonempty (v : Z) : Js.digits v <> EmptyString.
Proof.
  destruct v; simpl; try discriminate.
  destruct (uintToString_head p) as (c & s & -> & _). discriminate.
Qed.

(** The digits of a number denote the number. *)
Lemma digitsValue_digits (v : Z) :
  0 <= v -> digitsValue (Js.digits v) 0 = v.
Proof.
  destruct v as [|p|p]; [reflexivity| |lia]. intros _. simpl.
  now rewrite digitsValue_uint, DecimalPos.Unsigned.of_to.
Qed.

Lemma isDigit_not_space (c : ascii) :
  Js.isDigit c = true ->
  Js.isWhiteSpace c = false /\ c <> "-"%char /\ c <> "+"%char.
Proof.
  destruct c as [[] [] [] [] [] [] [] []]; vm_compute; intros H;
    try discriminate H; repeat split; discriminate.
Qed.

(** [parseInt] reads a run of digits, whatever follows it, as long as no
    digit follows, and gives the double next to its value. *)
Lemma parseInt10_digits (ds rest : string) :
  ds <> EmptyString ->
  allOf Js.isDigit ds = true ->
  noDigitAhead rest = true ->
  Js.parseInt10 (ds +:+ rest) = Some (Js.toNumber (digitsValue ds 0)).
Proof.
  intros Hne Hds Hrest. unfold Js.parseInt10.
  destruct ds as [|c ds]; [congruence|].
  pose proof Hds as Hall. simpl in Hds. apply andb_prop in Hds as [Hc _].
  destruct (isDigit_not_space c Hc) as (Hw & Hm & Hp).
  assert (Hskip : Js.skipWhiteSpace (String c ds +:+ rest)
                  = String c ds +:+ rest).
  { simpl. now rewrite Hw. }
  rewrite Hskip.
  assert (Hgo : Js.digitsPrefix (String c ds +:+ rest) false 0
                = Some (digitsValue (String c ds) 0)).
  { apply digitsPrefix_value; auto. }
  transitivity (option_map Js.toNumber
                  (Js.digitsPrefix (String c ds +:+ rest) false 0));
    [|now rewrite Hgo].
  simpl.
  destruct c as [[] [] [] [] [] [] [] []]; try reflexivity;
    exfalso; (apply Hm; reflexivity) || (apply Hp; reflexivity).
Qed.

Lemma parseInt10_minus (ds rest : string) :
  ds <> EmptyString ->
  allOf Js.isDigit ds = true ->
  noDigitAhead rest = true ->
  Js.parseInt10 (String "-" (ds +:+ rest))
  = Some (Js.toNumber (- digitsValue ds 0)).
Proof.
  intros Hne Hds Hrest. unfold Js.parseInt10. simpl.
  rewrite digitsPrefix_value; auto.
Qed.

Lemma parseInt10_plus (ds rest : string) :
  ds <> EmptyString ->
  allOf Js.isDigit ds = true ->
  noDigitAhead rest = true ->
  Js.parseInt10 (String "+" (ds +:+ rest))
  = Some (Js.toNumber (digitsValue ds 0)).
Proof.
  intros Hne Hds Hrest. unfold Js.parseInt10. simpl.
  rewrite digitsPrefix_value; auto.
Qed.

Lemma parseInt10_space (c : ascii) (s : string) :
  Js.isWhiteSpace c = true -> Js.parseInt10 (String c s) = Js.parseInt10 s.
Proof. intros H. unfold Js.parseInt10. simpl. now rewrite H. Qed.

(** *** Rounding *)

Lemma pow2_pos (e : Z) : 0 <= e -> 0 < 2 ^ e.
Proof. intros H. apply Z.pow_pos_nonneg; lia. Qed.

Lemma roundToDouble_floor (n : Z) :
  0 <= n ->
  53 < Z.log2 n + 1 ->
  n / 2 ^ (Z.log2 n + 1 - 53) * 2 ^ (Z.log2 n + 1 - 53) <= Js.roundToDouble n.
Proof.
  intros Hn Hbits. unfold Js.roundToDouble.
  destruct (Z.log2 n + 1 <=? 53) eqn:E; [apply Z.leb_le in E; lia|].
  pose proof (pow2_pos (Z.log2 n + 1 - 53) ltac:(lia)) as Hulp.
  destruct (_ || _); nia.
Qed.

Lemma roundToDouble_nonneg (n : Z) : 0 <= n -> 0 <= Js.roundToDouble n.
Proof.
  intros Hn. destruct (Z.log2 n + 1 <=? 53) eqn:E.
  - unfold Js.roundToDouble. now rewrite E.
  - apply Z.leb_gt in E.
    etransitivity; [|apply roundToDouble_floor; lia].
    pose proof (pow2_pos (Z.log2 n + 1 - 53) ltac:(lia)) as Hulp.
    pose proof (Z.div_pos n _ Hn Hulp). nia.
Qed.

Lemma floor_multiple (v k c : Z) :
  0 < k -> c * k <= v -> c * k <= v / k * k.
Proof.
  intros Hk Hv. apply Z.mul_le_mono_nonneg_r; [lia|].
  apply Z.div_le_lower_bound; lia.
Qed.

(** An integer of 10^21 or more does not round below 10^21. *)
Lemma roundToDouble_large (v : Z) :
  10 ^ 21 <= v -> 10 ^ 21 <= Js.roundToDouble v.
Proof.
  intros Hv.
  assert (Hlog : 69 <= Z.log2 v).
  { rewrite <- (Z.log2_pow2 69) by lia. apply Z.log2_le_mono.
    etransitivity; [|exact Hv]. vm_compute. discriminate. }
  etransitivity; [|apply roundToDouble_floor; lia].
  set (e := Z.log2 v + 1 - 53).
  assert (He : 17 <= e) by (unfold e; lia).
  assert (Hlog2 : Z.log2 v = e + 52) by (unfold e; lia).
  clearbody e.
  change (10 ^ 21) with 1000000000000000000000 in *.
  destruct (Z_le_gt_dec e 21) as [Hsmall|Hbig].
  - assert (Hcases : e = 17 \/ e = 18 \/ e = 19 \/ e = 20 \/ e = 21) by lia.
    destruct Hcases as [->|[->|[->|[->| ->]]]].
    + apply (floor_multiple v (2 ^ 17) 7629394531250000); [reflexivity|].
      exact Hv.
    + apply (floor_multiple v (2 ^ 18) 3814697265625000); [reflexivity|].
      exact Hv.
    + apply (floor_multiple v (2 ^ 19) 1907348632812500); [reflexivity|].
      exact Hv.
    + apply (floor_multiple v (2 ^ 20) 953674316406250); [reflexivity|].
      exact Hv.
    + apply (floor_multiple v (2 ^ 21) 476837158203125); [reflexivity|].
      exact Hv.
  - assert (Hq : 2 ^ 52 <= v / 2 ^ e).
    { apply Z.div_le_lower_bound; [apply pow2_pos; lia|].
      rewrite <- Z.pow_add_r by lia.
      rewrite <- Hlog2.
      apply Z.log2_spec. lia. }
    assert (He' : 2 ^ 22 <= 2 ^ e) by (apply Z.pow_le_mono_r; lia).
    change (2 ^ 52) with 4503599627370496 in Hq.
    change (2 ^ 22) with 4194304 in He'. nia.
Qed.

(** An integer of at most 53 bits, and 2^53, is a double. *)
Lemma toNumber_exact (v : Z) :
  Z.abs v <= 2 ^ 53 -> Js.toNumber v = Js.Finite v.
Proof.
  intros Hv.
  assert (Hround : Js.roundToDouble (Z.abs v) = Z.abs v).
  { unfold Js.roundToDouble.
    destruct (Z.log2 (Z.abs v) + 1 <=? 53) eqn:E; [reflexivity|].
    apply Z.leb_gt in E.
    assert (Hlog : Z.log2 (Z.abs v) <= Z.log2 (2 ^ 53))
      by now apply Z.log2_le_mono.
    rewrite Z.log2_pow2 in Hlog by lia.
    assert (Heq : Z.abs v = 2 ^ 53).
    { apply Z.le_antisymm; [exact Hv|].
      replace 53 with (Z.log2 (Z.abs v)) at 1 by lia.
      apply Z.log2_spec.
      destruct (Z.eq_dec (Z.abs v) 0) as [H0|H0]; [|lia].
      rewrite H0 in E. simpl in E. lia. }
    rewrite Heq. reflexivity. }
  unfold Js.toNumber. rewrite Hround.
  destruct (2 ^ 1024 <=? Z.abs v) eqn:E.
  - apply Z.leb_le in E.
    assert (2 ^ 53 < 2 ^ 1024) by (apply Z.pow_lt_mono_r; lia). lia.
  - f_equal. lia.
Qed.

Lemma toNumber_not_positive (v x : Z) :
  v <= 0 -> 0 < x -> Js.toNumber v <> Js.Finite x.
Proof.
  intros Hv Hx. unfold Js.toNumber.
  destruct (2 ^ 1024 <=? _); [discriminate|].
  pose proof (roundToDouble_nonneg (Z.abs v) (Z.abs_nonneg v)) as Hm.
  intros [= E]. nia.
Qed.

Lemma toNumber_large (v x : Z) :
  10 ^ 21 <= v -> x < 10 ^ 21 -> Js.toNumber v <> Js.Finite x.
Proof.
  intros Hv Hx. unfold Js.toNumber.
  destruct (2 ^ 1024 <=? _); [discriminate|].
  assert (H0 : 0 < v) by (change (10 ^ 21) with 1000000000000000000000 in Hv; lia).
  rewrite Z.abs_eq, Z.sgn_pos by lia.
  pose proof (roundToDouble_large v Hv). intros [= E]. lia.
Qed.

Lemma toNumber_opp (v x : Z) :
  Js.toNumber v = Js.Finite x -> Js.toNumber (- v) = Js.Finite (- x).
Proof.
  unfold Js.toNumber. rewrite Z.abs_opp, Z.sgn_opp.
  destruct (2 ^ 1024 <=? _); [discriminate|].
  intros [= <-]. f_equal. lia.
Qed.

(** *** Printing *)

(** The integer whose digits are printed denotes the number. *)
Lemma shortest_number (x : Z) : Js.toNumber (Js.shortest x) = Js.toNumber x.
Proof.
  unfold Js.shortest.
  destruct (find _ _) as [v|] eqn:E; simpl; [|reflexivity].
  apply find_some in E as [_ E]. now apply bool_decide_eq_true in E.
Qed.

Lemma shortest_plain (x : Z) :
  0 < x < 10 ^ 21 ->
  Js.toNumber x = Js.Finite x ->
  0 < Js.shortest x < 10 ^ 21
  /\ Js.toNumber (Js.shortest x) = Js.Finite x.
Proof.
  intros Hx Hnum. pose proof (shortest_number x) as Hv. rewrite Hnum in Hv.
  split; [|exact Hv]. split.
  - destruct (Z_lt_le_dec 0 (Js.shortest x)) as [H|H]; [exact H|].
    now destruct (toNumber_not_positive _ x H (proj1 Hx)).
  - destruct (Z_lt_le_dec (Js.shortest x) (10 ^ 21)) as [H|H]; [exact H|].
    now destruct (toNumber_large _ x H (proj2 Hx)).
Qed.

(** The ways a plain number is printed: as 0, as the digits of a positive
    integer that denotes it, or as these behind a minus sign. *)
Lemma numberToString_plain (n : Js.Number) :
  plainNumber n = true ->
  (n = Js.Finite 0 /\ Js.numberToString n = "0")
  \/ (exists v, 0 < v /\ Js.toNumber v = n
                /\ Js.numberToString n = Js.digits v)
  \/ (exists v, 0 < v /\ Js.toNumber (- v) = n
                /\ Js.numberToString n = String "-" (Js.digits v)).
Proof.
  destruct n as [x|negative]; [|discriminate]. simpl. intros H.
  apply andb_prop in H as [Hnum Hlt].
  apply bool_decide_eq_true in Hnum. apply Z.ltb_lt in Hlt.
  rewrite Hnum.
  destruct x as [|p|p].
  - now left.
  - right. left.
    destruct (shortest_plain (Zpos p)) as ([Hpos Hsmall] & Hv); [lia|exact Hnum|].
    exists (Js.shortest (Zpos p)). split; [exact Hpos|]. split; [exact Hv|].
    simpl. unfold Js.positiveToString.
    apply Z.ltb_lt in Hsmall. now rewrite Hsmall.
  - right. right.
    apply toNumber_opp in Hnum. simpl in Hnum.
    destruct (shortest_plain (Zpos p)) as ([Hpos Hsmall] & Hv);
      [simpl in Hlt; lia|exact Hnum|].
    exists (Js.shortest (Zpos p)). split; [exact Hpos|].
    split; [now apply toNumber_opp in Hv|].
    simpl. unfold Js.positiveToString.
    apply Z.ltb_lt in Hsmall. now rewrite Hsmall.
Qed.

(** [parseInt] reads a plain number that was printed back, whatever
    follows it, as long as no digit follows. *)
Lemma parseInt10_numberToString (n : Js.Number) (rest : string) :
  plainNumber n = true ->
  noDigitAhead rest = true ->
  Js.parseInt10 (Js.numberToString n +:+ rest) = Some n.
Proof.
  intros Hplain Hrest.
  destruct (numberToString_plain n Hplain)
    as [[-> ->]|[(v & Hv & <- & ->)|(v & Hv & <- & ->)]].
  - change "0" with (Js.digits 0). now rewrite parseInt10_digits.
  - rewrite parseInt10_digits;
      auto using digits_nonempty, digits_allOf.
    rewrite digitsValue_digits by lia. reflexivity.
  - change (String "-" (Js.digits v) +:+ rest)
      with (String "-" (Js.digits v +:+ rest)).
    rewrite parseInt10_minus;
      auto using digits_nonempty, digits_allOf.
    rewrite digitsValue_digits by lia. reflexivity.
Qed.

Lemma allOf_noneOf (p q : ascii -> bool) (s : string) :
  (forall c, q c = true -> p c = false) ->
  allOf q s = true -> noneOf p s = true.
Proof.
  intros Hpq. induction s as [|c s IH]; simpl; [reflexivity|].
  intros H. apply andb_prop in H as [Hc Hs].
  now rewrite (Hpq c Hc), IH.
Qed.

Lemma numberToString_noneOf (p : ascii -> bool) (n : Js.Number) :
  plainNumber n = true ->
  (forall c, Js.isDigit c = true -> p c = false) ->
  p "-"%char = false ->
  noneOf p (Js.numberToString n) = true.
Proof.
  intros Hplain Hp Hm.
  destruct (numberToString_plain n Hplain)
    as [[-> ->]|[(v & Hv & <- & ->)|(v & Hv & <- & ->)]].
  - simpl. now rewrite Hp.
  - apply (allOf_noneOf p Js.isDigit); auto using digits_allOf.
  - simpl. rewrite Hm. simpl.
    apply (allOf_noneOf p Js.isDigit); auto using digits_allOf.
Qed.

Lemma isDigit_not_colon (c : ascii) : Js.isDigit c = true -> isColon c = false.
Proof.
  destruct c as [[] [] [] [] [] [] [] []]; vm_compute; congruence.
Qed.

Lemma isDigit_not_upper (c : ascii) : Js.isDigit c = true -> isUpper c = false.
Proof.
  destruct c as [[] [] [] [] [] [] [] []]; vm_compute; congruence.
Qed.

Lemma numberToString_nonempty (n : Js.Number) :
  plainNumber n = true -> Js.numberToString n <> EmptyString.
Proof.
  intros Hplain.
  destruct (numberToString_plain n Hplain)
    as [[-> ->]|[(v & Hv & <- & ->)|(v & Hv & <- & ->)]];
    try discriminate.
  apply digits_nonempty.
Qed.

(** ** The tag grammar and the tree builder *)

Lemma bind_Ok {A B : Type} (a : A) (k : A -> Result B) :
  bind (Ok a) k = k a.
Proof. reflexivity. Qed.

Lemma bind_assoc {A B C : Type} (r : Result A) (k : A -> Result B)
    (h : B -> Result C) :
  bind (bind r k) h = bind r (fun a => bind (k a) h).
Proof. now destruct r. Qed.

Lemma appendAll_fragment (cs children : list Node) :
  appendAll (DocumentFragment cs) children = DocumentFragment (cs ++ children).
Proof.
  revert cs. induction children as [|c children IH]; intros cs; simpl.
  - now rewrite app_nil_r.
  - unfold appendAll in *. simpl. rewrite IH. now rewrite <- app_assoc.
Qed.

Lemma appendAll_element cls name attrs (cs children : list Node) :
  appendAll (Element cls name attrs cs) children
  = Element cls name attrs (cs ++ children).
Proof.
  revert cs. induction children as [|c children IH]; intros cs; simpl.
  - now rewrite app_nil_r.
  - unfold appendAll in *. simpl. rewrite IH. now rewrite <- app_assoc.
Qed.

Lemma walkDom_unfold (D : Js.Number) (domNode : DomNode) :
  ViewParser._walkDom D domNode
  = match domNode with
    | DomDocumentFragment children =>
        match children with
        | [only] => ViewParser._walkDom D only
        | _ => walkChildren D children (DocumentFragment [])
        end
    | DomElement tagName attributes children =>
        viewElement <-! ViewParser._convertElement D tagName attributes ;;
        walkChildren D children viewElement
    | DomText textContent => Ok (Text textContent)
    end.
Proof. destruct domNode; reflexivity. Qed.

(** The loop over the child nodes in [_walkDom] converts the children in
    order and appends them. *)
Lemma walkChildren_mapResult (D : Js.Number) (children : list DomNode) (view : Node) :
  walkChildren D children view
  = (vs <-! mapResult (ViewParser._walkDom D) children ;;
     Ok (appendAll view vs)).
Proof.
  revert view. induction children as [|c children IH]; intros view.
  - reflexivity.
  - cbn [mapResult walkChildren]. fold (walkChildren D).
    rewrite bind_assoc.
    destruct (ViewParser._walkDom D c) as [v|e]; [|reflexivity].
    rewrite !bind_Ok, IH, bind_assoc.
    destruct (mapResult (ViewParser._walkDom D) children); reflexivity.
Qed.

Lemma walkDom_element (D : Js.Number) tagName attrs children :
  ViewParser._walkDom D (DomElement tagName attrs children)
  = (viewElement <-! ViewParser._convertElement D tagName attrs ;;
     vs <-! mapResult (ViewParser._walkDom D) children ;;
     Ok (appendAll viewElement vs)).
Proof.
  rewrite walkDom_unfold.
  destruct (ViewParser._convertElement D tagName attrs) as [v|e];
    [|reflexivity].
  rewrite !bind_Ok. apply walkChildren_mapResult.
Qed.

Lemma walkDom_fragment (D : Js.Number) children :
  length children <> 1%nat ->
  ViewParser._walkDom D (DomDocumentFragment children)
  = (vs <-! mapResult (ViewParser._walkDom D) children ;;
     Ok (DocumentFragment vs)).
Proof.
  intros Hlen. rewrite walkDom_unfold.
  assert (Hloop : walkChildren D children (DocumentFragment [])
                  = (vs <-! mapResult (ViewParser._walkDom D) children ;;
                     Ok (DocumentFragment vs))).
  { rewrite walkChildren_mapResult.
    destruct (mapResult _ _) as [vs|e]; [|reflexivity].
    rewrite !bind_Ok. now rewrite appendAll_fragment. }
  destruct children as [|c1 [|c2 rest]]; auto.
  now contradict Hlen.
Qed.

(** C2 (amended).  A generic fragment with exactly one child, an element or
    a text node alike, collapses to the conversion of that child as the
    root; a fragment with no child or with two or more children becomes a
    view document fragment of the converted children, in order. *)
Theorem C2_fragment_of_one_elision (D : Js.Number) :
  (forall only : DomNode,
      ViewParser._walkDom D (DomDocumentFragment [only])
      = ViewParser._walkDom D only)
  /\ (forall textContent : string,
         ViewParser._walkDom D (DomDocumentFragment [DomText textContent])
         = Ok (Text textContent))
  /\ ViewParser._walkDom D (DomDocumentFragment []) = Ok (DocumentFragment [])
  /\ (forall (first second : DomNode) (others : list DomNode),
         ViewParser._walkDom D
           (DomDocumentFragment (first :: second :: others))
         = (views <-! mapResult (ViewParser._walkDom D)
                        (first :: second :: others) ;;
            Ok (DocumentFragment views))).
Proof.
  repeat split.
  intros first second others. now apply walkDom_fragment.
Qed.

(** C2, as stated, fails: a fragment whose single child is a text node does
    not become a document fragment, it collapses to the text node. *)
Lemma C2_single_text_child_collapses :
  ~ (exists children : list Node,
        ViewParser._walkDom 10 (DomDocumentFragment [DomText "foobar"])
        = Ok (DocumentFragment children)).
Proof. intros [children H]. discriminate H. Qed.

Lemma convertElementName_two (tagName A B : string) :
  Js.toLowerCase tagName = A +:+ ":" +:+ B ->
  noColon A = true -> noColon B = true ->
  ViewParser._convertType A = None ->
  ViewParser._convertElementName tagName
  = match Js.parseInt10 B with
    | Some priority =>
        Ok (ViewParser.mkInfo A (Some "attribute") (Some priority))
    | None => Throw (TagGrammarError (A +:+ ":" +:+ B))
    end.
Proof.
  intros Hlow HA HB Htype. unfold ViewParser._convertElementName.
  rewrite Hlow. change (A +:+ ":" +:+ B) with (A +:+ String ":" B).
  rewrite (split_segment A B HA), (split_noColon B HB), Htype.
  unfold ViewParser._convertPriority.
  destruct (Js.parseInt10 B); reflexivity.
Qed.

Lemma parseInt10_is_number (B : string) :
  is_Some (Js.parseInt10 B) <-> startsWithNumber B = true.
Proof.
  unfold Js.parseInt10, startsWithNumber.
  assert (Hdigits : forall s,
             is_Some (option_map Js.toNumber (Js.digitsPrefix s false 0))
             <-> noDigitAhead s = false).
  { intros s. destruct (noDigitAhead s) eqn:E.
    - rewrite digitsPrefix_none by exact E. simpl.
      split; [intros [x Hx]; discriminate|discriminate].
    - destruct (digitsPrefix_some s 0 E) as [v ->]. simpl.
      split; [reflexivity|eauto]. }
  assert (Hminus : forall s,
             is_Some (option_map (fun n => Js.toNumber (- n))
                        (Js.digitsPrefix s false 0))
             <-> noDigitAhead s = false).
  { intros s. destruct (noDigitAhead s) eqn:E.
    - rewrite digitsPrefix_none by exact E. simpl.
      split; [intros [x Hx]; discriminate|discriminate].
    - destruct (digitsPrefix_some s 0 E) as [v ->]. simpl.
      split; [reflexivity|eauto]. }
  destruct (Js.skipWhiteSpace B) as [|c s].
  - rewrite Hdigits. simpl. split; discriminate.
  - destruct (ascii_dec c "-") as [->|Em].
    { simpl. rewrite Hminus. symmetry. apply negb_true_iff. }
    destruct (ascii_dec c "+") as [->|Ep].
    { simpl. rewrite Hdigits. symmetry. apply negb_true_iff. }
    rewrite !bool_decide_eq_false_2 by assumption. simpl.
    transitivity (is_Some (option_map Js.toNumber
                             (Js.digitsPrefix (String c s) false 0))).
    + destruct c as [[] [] [] [] [] [] [] []]; try reflexivity;
        exfalso; (apply Em; reflexivity) || (apply Ep; reflexivity).
    + rewrite Hdigits. simpl. apply negb_false_iff.
Qed.

Lemma parseInt10_reads (space sign run rest : string) :
  allOf Js.isWhiteSpace space = true ->
  sign = EmptyString \/ sign = "+" \/ sign = "-" ->
  run <> EmptyString ->
  allOf Js.isDigit run = true ->
  noDigitAhead rest = true ->
  Js.parseInt10 (space +:+ sign +:+ run +:+ rest)
  = Some (Js.toNumber
            (if bool_decide (sign = "-") then - digitsValue run 0
             else digitsValue run 0)).
Proof.
  intros Hspace Hsign Hrun Hdigits Hrest.
  induction space as [|c space IH]; simpl in Hspace |- *.
  - destruct Hsign as [->|[->| ->]]; simpl.
    + now apply parseInt10_digits.
    + now apply parseInt10_plus.
    + now apply parseInt10_minus.
  - apply andb_prop in Hspace as [Hc Hspace].
    rewrite parseInt10_space by exact Hc. now apply IH.
Qed.

(** C5 (amended).  For a tag name [A:B] where [A] is neither "container"
    nor "attribute", the element is an attribute element named [A] with the
    priority [parseInt( B, 10 )] whenever that is a number, and the tag is
    refused with the lower-cased tag text otherwise.  [parseInt( B, 10 )]
    is a number exactly when [B] starts, after white space and one sign,
    with a digit.  It reads the longest run of digits there and ignores
    what follows; the priority is the double next to the value of the run,
    negated behind a minus sign, so it is that value up to 2^53 and may
    differ from it beyond. *)
Theorem C5_two_segment_tag (D : Js.Number) (tagName A B : string)
    (attrs : list (string * string)) :
  Js.toLowerCase tagName = A +:+ ":" +:+ B ->
  noColon A = true -> noColon B = true ->
  ViewParser._convertType A = None ->
  ViewParser._convertElement D tagName attrs
  = match Js.parseInt10 B with
    | Some priority =>
        Ok (Element (AttributeElement priority) A
              (fold_left (fun acc kv => setAttribute (fst kv) (snd kv) acc)
                 attrs [])
              [])
    | None => Throw (TagGrammarError (A +:+ ":" +:+ B))
    end
  /\ (is_Some (Js.parseInt10 B) <-> startsWithNumber B = true)
  /\ (forall (space sign run rest : string),
         B = space +:+ sign +:+ run +:+ rest ->
         allOf Js.isWhiteSpace space = true ->
         sign = EmptyString \/ sign = "+" \/ sign = "-" ->
         run <> EmptyString ->
         allOf Js.isDigit run = true ->
         noDigitAhead rest = true ->
         Js.parseInt10 B
         = Some (Js.toNumber
                   (if bool_decide (sign = "-") then - digitsValue run 0
                    else digitsValue run 0)))
  /\ (forall v : Z,
         Z.abs v <= 2 ^ 53 -> Js.toNumber v = Js.Finite v).
Proof.
  intros Hlow HA HB Htype. split; [|split; [|split]].
  - unfold ViewParser._convertElement.
    rewrite (convertElementName_two tagName A B Hlow HA HB Htype).
    destruct (Js.parseInt10 B); reflexivity.
  - apply parseInt10_is_number.
  - intros space sign run rest ->. apply parseInt10_reads.
  - apply toNumber_exact.
Qed.

Lemma C5_two_segment_tag_witness :
  ViewParser._convertElement 10 "B:10px" [("class", "x")]
  = Ok (Element (AttributeElement 10) "b" [("class", "x")] [])
  /\ Js.parseInt10 "10px" = Some (Js.Finite 10).
Proof.
  destruct (C5_two_segment_tag 10 "B:10px" "b" "10px" [("class", "x")])
    as (Hel & _ & Hint & _); try reflexivity.
  split; [exact Hel|].
  apply (Hint EmptyString EmptyString "10" "px"); auto; discriminate.
Defined.

(** C5, as stated, fails: "b:10px" and "b:1.5" are not refused; their
    leading digits are the priority. *)
Lemma C5_lenient_priority :
  ViewParser._walkDom 10 (DomElement "b:10px" [] [])
  = Ok (Element (AttributeElement 10) "b" [] [])
  /\ ViewParser._walkDom 10 (DomElement "b:1.5" [] [])
     = Ok (Element (AttributeElement 1) "b" [] [])
  /\ ViewParser._walkDom 10 (DomElement "b:c" [] [])
     = Throw (TagGrammarError "b:c").
Proof. repeat split. Qed.

(** ** The range builder *)

Lemma createLoop_app (before after : list RangeParser.Item)
    (st : RangeParser.Builder) :
  RangeParser.createLoop (before ++ after) st
  = (st' <-! RangeParser.createLoop before st ;;
     RangeParser.createLoop after st').
Proof.
  revert st. induction before as [|item before IH]; intros st; simpl.
  - reflexivity.
  - destruct (RangeParser.createStep st item) as [st'|e]; simpl; auto.
Qed.

(** The ranges closed before a run of the loop stay in front of the ones
    the run adds. *)
Lemma createLoop_ranges (positions : list RangeParser.Item)
    (rs : list Range) (slot : option Range) :
  RangeParser.createLoop positions (RangeParser.mkBuilder rs slot)
  = (st <-! RangeParser.createLoop positions (RangeParser.mkBuilder [] slot) ;;
     Ok (RangeParser.mkBuilder (rs ++ RangeParser.ranges st)
           (RangeParser.range st))).
Proof.
  revert rs slot.
  induction positions as [|item positions IH]; intros rs slot; simpl.
  - now rewrite app_nil_r.
  - unfold RangeParser.createStep; simpl.
    destruct (negb (bool_decide (is_Some slot))
              && RangeParser.isEndToken (RangeParser.bracket item));
      [reflexivity|].
    destruct (bool_decide (is_Some slot)
              && RangeParser.isStartToken (RangeParser.bracket item));
      [reflexivity|].
    destruct (RangeParser.isStartToken (RangeParser.bracket item)); simpl.
    + apply IH.
    + destruct slot as [r|]; simpl; [|reflexivity].
      rewrite (IH (rs ++ _)), (IH [_]).
      destruct (RangeParser.createLoop positions _) as [st|e]; simpl;
        [|reflexivity].
      now rewrite <- app_assoc.
Qed.

Lemma createStep_end_without_start (st : RangeParser.Builder)
    (item : RangeParser.Item) :
  RangeParser.range st = None ->
  RangeParser.isEndToken (RangeParser.bracket item) = true ->
  RangeParser.createStep st item
  = Throw (UnbalancedRangeError (EndWithoutStart (RangeParser.bracket item))).
Proof.
  intros Hslot Hend. unfold RangeParser.createStep.
  now rewrite Hslot, Hend.
Qed.

Lemma start_not_end (c : ascii) :
  RangeParser.isStartToken c = true -> RangeParser.isEndToken c = false.
Proof.
  unfold RangeParser.isStartToken, RangeParser.isEndToken.
  intros H. apply orb_prop in H as [H|H]; apply bool_decide_eq_true in H;
    subst c; reflexivity.
Qed.

Lemma createStep_start_while_open (st : RangeParser.Builder)
    (item : RangeParser.Item) :
  is_Some (RangeParser.range st) ->
  RangeParser.isStartToken (RangeParser.bracket item) = true ->
  RangeParser.createStep st item
  = Throw (UnbalancedRangeError (StartWhileOpen (RangeParser.bracket item))).
Proof.
  intros [r Hslot] Hstart. unfold RangeParser.createStep.
  now rewrite Hslot, Hstart.
Qed.

Lemma createStep_open (rs : list Range) (item : RangeParser.Item) :
  RangeParser.isStartToken (RangeParser.bracket item) = true ->
  RangeParser.createStep (RangeParser.mkBuilder rs None) item
  = Ok (RangeParser.mkBuilder rs
          (Some (mkRange (RangeParser.position item)
                   (RangeParser.position item)))).
Proof.
  intros Hstart. unfold RangeParser.createStep. simpl.
  now rewrite (start_not_end _ Hstart), Hstart.
Qed.

Lemma createStep_close (rs : list Range) (r : Range)
    (item : RangeParser.Item) :
  RangeParser.isEndToken (RangeParser.bracket item) = true ->
  RangeParser.createStep (RangeParser.mkBuilder rs (Some r)) item
  = Ok (RangeParser.mkBuilder
          (rs ++ [mkRange (start r) (RangeParser.position item)]) None).
Proof.
  intros Hend. unfold RangeParser.createStep. simpl.
  assert (Hs : RangeParser.isStartToken (RangeParser.bracket item) = false).
  { destruct (RangeParser.isStartToken (RangeParser.bracket item)) eqn:E;
      [|reflexivity].
    apply start_not_end in E. congruence. }
  rewrite Hs. simpl.
  destruct (bool_decide (is_Some (Some r))); reflexivity.
Qed.

(** Whatever [_createRanges] throws, [parse] throws: the checks of the
    order option come after it. *)
Lemma parse_createRanges_throw (toDom : string -> DomNode) (D : Js.Number)
    (data : string) (options : ParseOptions) (view : Node)
    (scanned : option Node * list RangeParser.Item) (e : Error) :
  ViewParser.parse D toDom data = Ok view ->
  RangeParser._getPositions [] None view = Ok scanned ->
  RangeParser._createRanges (snd scanned) = Throw e ->
  parse toDom D data options = Throw e.
Proof.
  intros Hview Hscan Hcreate. unfold parse, RangeParser.parse.
  now rewrite Hview, !bind_Ok, Hscan, !bind_Ok, Hcreate.
Qed.

Lemma createRanges_throw_at (before after : list RangeParser.Item)
    (item : RangeParser.Item) (st : RangeParser.Builder) (e : Error) :
  RangeParser.createLoop before (RangeParser.mkBuilder [] None) = Ok st ->
  RangeParser.createStep st item = Throw e ->
  RangeParser._createRanges (before ++ item :: after) = Throw e.
Proof.
  intros Hbefore Hstep. unfold RangeParser._createRanges.
  rewrite createLoop_app, Hbefore, bind_Ok. simpl. now rewrite Hstep.
Qed.

Lemma convertElement_plain (D : Js.Number) (tagName name : string)
    (attrs : list (string * string)) :
  Js.toLowerCase tagName = name -> noColon name = true ->
  ViewParser._convertElement D tagName attrs
  = Ok (Element ViewElement name
          (fold_left (fun acc kv => setAttribute (fst kv) (snd kv) acc)
             attrs [])
          []).
Proof.
  intros Hlow Hname. unfold ViewParser._convertElement,
    ViewParser._convertElementName.
  now rewrite Hlow, (split_noColon name Hname).
Qed.

Section Unbalanced.

Variable toDom : string -> DomNode.
Variable D : Js.Number.
Variables p b : string.
Hypothesis p_tag : Js.toLowerCase p = "p".
Hypothesis b_tag : Js.toLowerCase b = "b".

Lemma parse_p_text (data text : string) (options : ParseOptions) :
  toDom data = DomDocumentFragment [DomElement p [] [DomText text]] ->
  parse toDom D data options
  = (r <-! RangeParser.parse (Element ViewElement "p" [] [Text text])
             (order options) ;;
     if negb (length (snd r) =? 0)%nat then
       selection <-! setRanges (snd r) (optLastRangeBackward options) ;;
       Ok (ViewAndSelection (fst r) selection)
     else Ok (View (fst r))).
Proof.
  intros Hdom. unfold parse, ViewParser.parse. rewrite Hdom.
  rewrite walkDom_unfold, walkDom_unfold.
  now rewrite (convertElement_plain D p "p" [] p_tag eq_refl).
Qed.

(** C6.  The four texts are refused with an unbalanced-range error, and
    so is every text whose positions hold an end token while no range is
    open, a start token while a range is open, or leave a range open at
    the end. *)
Theorem C6_unbalanced_ranges_rejected :
  toDom "<p>]text[</p>"
  = DomDocumentFragment [DomElement p [] [DomText "]text["]] ->
  toDom "<p>[text</p>"
  = DomDocumentFragment [DomElement p [] [DomText "[text"]] ->
  toDom "<p>te{xt</p>"
  = DomDocumentFragment [DomElement p [] [DomText "te{xt"]] ->
  toDom "<p>[<b>[x]</b>]</p>"
  = DomDocumentFragment
      [DomElement p []
         [DomText "["; DomElement b [] [DomText "[x]"]; DomText "]"]] ->
  (forall options,
      parse toDom D "<p>]text[</p>" options
      = Throw (UnbalancedRangeError (EndWithoutStart "]")))
  /\ (forall options,
         parse toDom D "<p>[text</p>" options
         = Throw (UnbalancedRangeError NoEndDelimiter))
  /\ (forall options,
         parse toDom D "<p>te{xt</p>" options
         = Throw (UnbalancedRangeError NoEndDelimiter))
  /\ (forall options,
         parse toDom D "<p>[<b>[x]</b>]</p>" options
         = Throw (UnbalancedRangeError (StartWhileOpen "[")))
  /\ (forall data options view scanned,
         ViewParser.parse D toDom data = Ok view ->
         RangeParser._getPositions [] None view = Ok scanned ->
         (forall before item after st,
             snd scanned = before ++ item :: after ->
             RangeParser.createLoop before (RangeParser.mkBuilder [] None)
             = Ok st ->
             (RangeParser.range st = None ->
              RangeParser.isEndToken (RangeParser.bracket item) = true ->
              parse toDom D data options
              = Throw (UnbalancedRangeError
                         (EndWithoutStart (RangeParser.bracket item))))
             /\ (is_Some (RangeParser.range st) ->
                 RangeParser.isStartToken (RangeParser.bracket item) = true ->
                 parse toDom D data options
                 = Throw (UnbalancedRangeError
                            (StartWhileOpen (RangeParser.bracket item)))))
         /\ (forall st,
                RangeParser.createLoop (snd scanned)
                  (RangeParser.mkBuilder [] None) = Ok st ->
                is_Some (RangeParser.range st) ->
                parse toDom D data options
                = Throw (UnbalancedRangeError NoEndDelimiter))).
Proof.
  intros H1 H2 H3 H4. split; [|split; [|split; [|split]]].
  - intros options. now rewrite (parse_p_text _ _ _ H1).
  - intros options. now rewrite (parse_p_text _ _ _ H2).
  - intros options. now rewrite (parse_p_text _ _ _ H3).
  - intros options. unfold parse, ViewParser.parse. rewrite H4.
    rewrite walkDom_unfold, walkDom_unfold.
    rewrite (convertElement_plain D p "p" [] p_tag eq_refl), bind_Ok.
    cbn [walkChildren]. rewrite (walkDom_unfold D (DomElement b _ _)).
    now rewrite (convertElement_plain D b "b" [] b_tag eq_refl).
  - intros data options view scanned Hview Hscan. split.
    + intros before item after st Hsplit Hloop. split.
      * intros Hslot Hend.
        eapply parse_createRanges_throw; eauto.
        rewrite Hsplit. eapply createRanges_throw_at; eauto.
        now apply createStep_end_without_start.
      * intros Hslot Hstart.
        eapply parse_createRanges_throw; eauto.
        rewrite Hsplit. eapply createRanges_throw_at; eauto.
        now apply createStep_start_while_open.
    + intros st Hloop [r Hslot].
      eapply parse_createRanges_throw; eauto.
      unfold RangeParser._createRanges. rewrite Hloop, bind_Ok.
      now rewrite Hslot.
Qed.

End Unbalanced.

Lemma C6_unbalanced_ranges_rejected_witness :
  (forall options,
      parse Html.toDom 10 "<p>]text[</p>" options
      = Throw (UnbalancedRangeError (EndWithoutStart "]")))
  /\ (forall options,
         parse Html.toDom 10 "<p>[<b>[x]</b>]</p>" options
         = Throw (UnbalancedRangeError (StartWhileOpen "["))).
Proof.
  destruct (C6_unbalanced_ranges_rejected Html.toDom 10 "P" "B")
    as (H1 & _ & _ & H4 & _); try reflexivity.
  split; assumption.
Defined.

(** ** The order option *)

Lemma arrayRead_arraySet_eq {A : Type} (a : JsArray A) (i : nat)
    (v : option A) :
  arrayRead (arraySet a i v) i = v.
Proof.
  unfold arrayRead, arraySet.
  destruct (i <? length a)%nat eqn:E.
  - apply Nat.ltb_lt in E. now rewrite list_lookup_insert_eq.
  - apply Nat.ltb_ge in E.
    rewrite lookup_app_r by lia.
    rewrite lookup_app_r by (rewrite length_replicate; lia).
    rewrite length_replicate.
    replace (i - length a - (i - length a))%nat with 0%nat by lia.
    reflexivity.
Qed.

Lemma arrayRead_arraySet_ne {A : Type} (a : JsArray A) (i j : nat)
    (v : option A) :
  i <> j -> arrayRead (arraySet a i v) j = arrayRead a j.
Proof.
  intros Hne. unfold arrayRead, arraySet.
  destruct (i <? length a)%nat eqn:E.
  - now rewrite list_lookup_insert_ne.
  - apply Nat.ltb_ge in E.
    destruct (decide (j < length a)%nat) as [Hj|Hj].
    + now rewrite lookup_app_l.
    + rewrite (lookup_ge_None_2 a j) by lia.
      rewrite lookup_app_r by lia.
      destruct (decide (j - length a < i - length a)%nat) as [Hlt|Hge].
      * rewrite lookup_app_l by (rewrite length_replicate; lia).
        now rewrite lookup_replicate_2.
      * rewrite lookup_app_r by (rewrite length_replicate; lia).
        rewrite length_replicate.
        rewrite lookup_ge_None_2; [reflexivity|]. simpl. lia.
Qed.

Lemma length_arraySet {A : Type} (a : JsArray A) (i : nat) (v : option A) :
  length (arraySet a i v) = Nat.max (length a) (S i).
Proof.
  unfold arraySet. destruct (i <? length a)%nat eqn:E.
  - apply Nat.ltb_lt in E. rewrite length_insert. lia.
  - apply Nat.ltb_ge in E.
    rewrite !length_app, length_replicate. simpl. lia.
Qed.

Lemma arrayGet_inRange {A : Type} (a : list A) (k : Z) :
  arrayGet a (k - 1) = None <-> inRange (length a) k = false.
Proof.
  unfold arrayGet, inRange.
  destruct (k - 1 <? 0) eqn:E.
  - apply Z.ltb_lt in E. split; [|reflexivity]. intros _.
    apply andb_false_iff. left. apply Z.leb_gt. lia.
  - apply Z.ltb_ge in E. rewrite lookup_ge_None.
    rewrite andb_false_iff, !Z.leb_gt. lia.
Qed.

(** [_sortRanges] refuses the order exactly when one of its entries is not
    the number of a range; otherwise it makes every assignment. *)
Lemma sortLoop_spec (rs : list Range) (rangesOrder : list Z) (index : nat)
    (sorted : JsArray Range) :
  RangeParser.sortLoop rs rangesOrder index sorted
  = if forallb (inRange (length rs)) rangesOrder
    then Ok (assignAll rs rangesOrder index sorted)
    else Throw InvalidRangeOrderError.
Proof.
  revert index sorted.
  induction rangesOrder as [|k rest IH]; intros index sorted; simpl.
  - reflexivity.
  - destruct (arrayGet rs (k - 1)) eqn:E.
    + assert (Hin : inRange (length rs) k = true).
      { destruct (inRange (length rs) k) eqn:F; [reflexivity|].
        apply arrayGet_inRange in F. congruence. }
      rewrite Hin. simpl. apply IH.
    + apply arrayGet_inRange in E. now rewrite E.
Qed.

Lemma assignAll_other (rs : list Range) (rangesOrder : list Z) (index : nat)
    (sorted : JsArray Range) (j : nat) :
  ~ In j (map (fun k => Z.to_nat (k - 1)) rangesOrder) ->
  arrayRead (assignAll rs rangesOrder index sorted) j = arrayRead sorted j.
Proof.
  revert index sorted.
  induction rangesOrder as [|k rest IH]; intros index sorted Hj; simpl.
  - reflexivity.
  - simpl in Hj. rewrite IH by tauto.
    apply arrayRead_arraySet_ne. tauto.
Qed.

Lemma assignAll_target (rs : list Range) (rangesOrder : list Z) (index : nat)
    (sorted : JsArray Range) (m : nat) (k : Z) :
  NoDup (map (fun k => Z.to_nat (k - 1)) rangesOrder) ->
  rangesOrder !! m = Some k ->
  arrayRead (assignAll rs rangesOrder index sorted) (Z.to_nat (k - 1))
  = rs !! (index + m)%nat.
Proof.
  revert index sorted m.
  induction rangesOrder as [|k0 rest IH]; intros index sorted m Hnd Hm.
  - discriminate Hm.
  - simpl in Hnd. apply NoDup_cons in Hnd as [Hfresh Hnd].
    rewrite list_elem_of_In in Hfresh.
    destruct m as [|m]; simpl in Hm.
    + injection Hm as ->. simpl.
      rewrite assignAll_other by exact Hfresh.
      rewrite arrayRead_arraySet_eq. f_equal. lia.
    + simpl. rewrite (IH _ _ m Hnd Hm). f_equal. lia.
Qed.

Lemma length_assignAll (rs : list Range) (rangesOrder : list Z) (index : nat)
    (sorted : JsArray Range) (n : nat) :
  (length sorted <= n)%nat ->
  Forall (fun k => (Z.to_nat (k - 1) < n)%nat) rangesOrder ->
  (length (assignAll rs rangesOrder index sorted) <= n)%nat.
Proof.
  revert index sorted.
  induction rangesOrder as [|k rest IH]; intros index sorted Hlen Hall;
    simpl; [exact Hlen|].
  apply Forall_cons_iff in Hall as [Hk Hall].
  apply IH; [|exact Hall]. rewrite length_arraySet. lia.
Qed.

(** An array of which every index below [n] reads a range, and that is not
    longer than [n], is the sequence of these ranges. *)
Lemma denseRanges_filled (a : JsArray Range) (n : nat) :
  (length a <= n)%nat ->
  (forall j, (j < n)%nat -> is_Some (arrayRead a j)) ->
  exists l, denseRanges a = Some l /\ length l = n
            /\ forall j, l !! j = arrayRead a j.
Proof.
  revert n. induction a as [|x a IH]; intros n Hlen Hfill.
  - destruct n as [|n].
    + exists []. split; [reflexivity|]. split; [reflexivity|].
      intros j. reflexivity.
    + destruct (Hfill 0%nat) as [r Hr]; [lia|]. discriminate Hr.
  - destruct n as [|n]; [simpl in Hlen; lia|].
    destruct (Hfill 0%nat) as [r Hr]; [lia|].
    unfold arrayRead in Hr. simpl in Hr. subst x.
    destruct (IH n) as (l & Hl & Hlenl & Hread).
    + simpl in Hlen. lia.
    + intros j Hj. apply (Hfill (S j)). lia.
    + exists (r :: l). simpl. rewrite Hl.
      split; [reflexivity|]. split; [simpl; now rewrite Hlenl|].
      intros [|j]; [reflexivity|]. apply Hread.
Qed.

Lemma denseRanges_map_Some (rs : list Range) :
  denseRanges (map Some rs) = Some rs.
Proof. induction rs as [|r rs IH]; simpl; [reflexivity|]. now rewrite IH. Qed.

Lemma inRange_target (n : nat) (k : Z) :
  inRange n k = true <-> 1 <= k <= Z.of_nat n.
Proof. unfold inRange. rewrite andb_true_iff, !Z.leb_le. tauto. Qed.

(** Distinct targets between 1 and [n], [n] of them, reach every index
    below [n]. *)
Lemma targets_cover (rangesOrder : list Z) (n : nat) :
  length rangesOrder = n ->
  Forall (fun k => 1 <= k <= Z.of_nat n) rangesOrder ->
  NoDup rangesOrder ->
  NoDup (map (fun k => Z.to_nat (k - 1)) rangesOrder)
  /\ forall j, (j < n)%nat ->
        exists m, rangesOrder !! m = Some (Z.of_nat j + 1).
Proof.
  intros Hlen Hall Hnd.
  assert (Hnd' : NoDup (map (fun k => Z.to_nat (k - 1)) rangesOrder)).
  { clear Hlen. induction rangesOrder as [|k rest IH]; simpl.
    - constructor.
    - apply Forall_cons_iff in Hall as [Hk Hall].
      apply NoDup_cons in Hnd as [Hfresh Hnd].
      apply NoDup_cons. split; [|now apply IH].
      intros Hin. apply list_elem_of_In, in_map_iff in Hin
        as (k' & Heq & Hin').
      apply list_elem_of_In in Hin'.
      assert (1 <= k' <= Z.of_nat n).
      { rewrite Forall_forall in Hall. now apply Hall. }
      assert (k' = k) by lia. subst k'.
      now apply Hfresh. }
  split; [exact Hnd'|].
  intros j Hj.
  assert (Hincl : incl (seq 0 n)
                    (map (fun k => Z.to_nat (k - 1)) rangesOrder)).
  { apply NoDup_length_incl.
    - apply NoDup_ListNoDup. exact Hnd'.
    - rewrite length_seq, length_map. lia.
    - intros x Hx. apply in_map_iff in Hx as (k & <- & Hk).
      apply in_seq.
      assert (1 <= k <= Z.of_nat n).
      { rewrite Forall_forall in Hall. apply Hall.
        now apply list_elem_of_In. }
      lia. }
  assert (Hin : In j (map (fun k => Z.to_nat (k - 1)) rangesOrder)).
  { apply Hincl. apply in_seq. lia. }
  apply in_map_iff in Hin as (k & Hk & Hin).
  apply list_elem_of_In, list_elem_of_lookup in Hin as [m Hm].
  exists m. rewrite Hm. f_equal.
  assert (1 <= k <= Z.of_nat n).
  { rewrite Forall_forall in Hall. apply Hall.
    apply list_elem_of_lookup. eauto. }
  lia.
Qed.

Lemma forallb_inRange (n : nat) (l : list Z) :
  forallb (inRange n) l = true <-> Forall (fun k => 1 <= k <= Z.of_nat n) l.
Proof.
  induction l as [|k l IH]; simpl.
  - split; [constructor|reflexivity].
  - rewrite andb_true_iff, IH, inRange_target, Forall_cons_iff. tauto.
Qed.

Lemma forallb_inRange_false (n : nat) (l : list Z) :
  forallb (inRange n) l = false
  <-> Exists (fun k => ~ (1 <= k <= Z.of_nat n)) l.
Proof.
  induction l as [|k l IH]; simpl.
  - split; [discriminate|]. intros H. inversion H.
  - rewrite andb_false_iff, IH, Exists_cons.
    rewrite <- inRange_target.
    destruct (inRange n k); split; intros [H|H]; auto; try discriminate.
    now contradict H.
Qed.

Section Order.

Variable toDom : string -> DomNode.
Variable D : Js.Number.

(** [parse] once the view is built, the positions are found and the
    ranges are made. *)
Lemma parse_found (data : string) (options : ParseOptions) (view : Node)
    (scanned : option Node * list RangeParser.Item) (rs : list Range) :
  ViewParser.parse D toDom data = Ok view ->
  RangeParser._getPositions [] None view = Ok scanned ->
  RangeParser._createRanges (snd scanned) = Ok rs ->
  parse toDom D data options
  = (r <-! (if negb (length (order options) =? 0)%nat then
              if negb (length (order options) =? length rs)%nat then
                Throw (RangeCountMismatchError (length rs)
                         (length (order options)))
              else
                sorted <-! RangeParser._sortRanges rs (order options) ;;
                Ok (RangeParser.scannedRoot (fst scanned), sorted)
            else Ok (RangeParser.scannedRoot (fst scanned), map Some rs)) ;;
     if negb (length (snd r) =? 0)%nat then
       selection <-! setRanges (snd r) (optLastRangeBackward options) ;;
       Ok (ViewAndSelection (fst r) selection)
     else Ok (View (fst r))).
Proof.
  intros Hview Hscan Hcreate. unfold parse, RangeParser.parse.
  now rewrite Hview, !bind_Ok, Hscan, !bind_Ok, Hcreate, !bind_Ok.
Qed.

(** With targets in range, [parse] ends in [setRanges]: it returns a
    selection or the selection class refuses the array; it does not throw
    an error of the order option. *)
Lemma parse_sorted (data : string) (options : ParseOptions) (view : Node)
    (scanned : option Node * list RangeParser.Item) (rs : list Range) :
  ViewParser.parse D toDom data = Ok view ->
  RangeParser._getPositions [] None view = Ok scanned ->
  RangeParser._createRanges (snd scanned) = Ok rs ->
  order options <> [] ->
  length (order options) = length rs ->
  forallb (inRange (length rs)) (order options) = true ->
  parse toDom D data options
  = match denseRanges (assignAll rs (order options) 0 []) with
    | Some sorted =>
        Ok (ViewAndSelection (RangeParser.scannedRoot (fst scanned))
              (mkSelection sorted (optLastRangeBackward options)))
    | None => Throw HostError
    end.
Proof.
  intros Hview Hscan Hcreate Hne Hlen Hin.
  rewrite (parse_found _ _ _ _ _ Hview Hscan Hcreate).
  destruct (order options) as [|k rest] eqn:Horder; [congruence|].
  rewrite <- Hlen. rewrite Nat.eqb_refl. cbn [length Nat.eqb negb].
  unfold RangeParser._sortRanges. rewrite sortLoop_spec, Hin, !bind_Ok.
  cbn [fst snd].
  assert (Hpos : (length (assignAll rs (k :: rest) 0 []) =? 0)%nat = false).
  { apply Nat.eqb_neq. simpl.
    destruct (assignAll rs rest 1 _) eqn:E; [|discriminate].
    exfalso.
    assert (Hread : arrayRead (assignAll rs rest 1
                                 (arraySet [] (Z.to_nat (k - 1)) (rs !! 0%nat)))
                      (Z.to_nat (k - 1)) = None)
      by now rewrite E.
    simpl in Hin. apply andb_prop in Hin as [Hk _].
    apply inRange_target in Hk.
    pose proof (length_arraySet (@nil (option Range)) (Z.to_nat (k - 1))
                  (rs !! 0%nat)) as Hl.
    assert (Hge : forall rest' i a,
               (length a <= length (assignAll rs rest' i a))%nat).
    { induction rest' as [|k' rest' IH']; intros i a; simpl; [lia|].
      etransitivity; [|apply IH']. rewrite length_arraySet. lia. }
    specialize (Hge rest 1%nat
                  (arraySet [] (Z.to_nat (k - 1)) (rs !! 0%nat))).
    rewrite E, Hl in Hge. simpl in Hge. lia. }
  rewrite Hpos. cbn [negb]. unfold setRanges.
  destruct (denseRanges _); reflexivity.
Qed.

(** C3 (amended).  With a non-empty order, [parse] fails with the
    count-mismatch error exactly when the order is not as long as the
    ranges found are many, and with the invalid-order error exactly when
    the lengths agree and some target is not between 1 and the number of
    ranges.  A target that occurs twice is not looked for.  When the
    targets are in range and pairwise distinct the ranges are reordered:
    the range found as the i-th is at the index its target names. *)
Theorem C3_order_validation (data : string) (options : ParseOptions)
    (view : Node) (scanned : option Node * list RangeParser.Item)
    (rs : list Range) :
  order options <> [] ->
  ViewParser.parse D toDom data = Ok view ->
  RangeParser._getPositions [] None view = Ok scanned ->
  RangeParser._createRanges (snd scanned) = Ok rs ->
  ((exists found given,
       parse toDom D data options
       = Throw (RangeCountMismatchError found given))
   <-> length (order options) <> length rs)
  /\ (parse toDom D data options = Throw InvalidRangeOrderError
      <-> length (order options) = length rs
          /\ Exists (fun k => ~ (1 <= k <= Z.of_nat (length rs)))
               (order options))
  /\ (length (order options) = length rs ->
      Forall (fun k => 1 <= k <= Z.of_nat (length rs)) (order options) ->
      NoDup (order options) ->
      exists sorted,
        parse toDom D data options
        = Ok (ViewAndSelection (RangeParser.scannedRoot (fst scanned))
                (mkSelection sorted (optLastRangeBackward options)))
        /\ length sorted = length rs
        /\ forall i k,
             order options !! i = Some k ->
             sorted !! Z.to_nat (k - 1) = rs !! i).
Proof.
  intros Hne Hview Hscan Hcreate.
  pose proof (parse_found data options view scanned rs Hview Hscan Hcreate)
    as Hparse.
  pose proof (parse_sorted data options view scanned rs Hview Hscan Hcreate
                Hne) as Hsorted.
  assert (Hlen0 : (length (order options) =? 0)%nat = false).
  { apply Nat.eqb_neq. destruct (order options); [congruence|discriminate]. }
  rewrite Hlen0 in Hparse. cbn [negb] in Hparse.
  destruct (decide (length (order options) = length rs)) as [Hlen|Hlen].
  - specialize (Hsorted Hlen).
    destruct (forallb (inRange (length rs)) (order options)) eqn:Hin.
    + specialize (Hsorted eq_refl).
      split; [|split].
      * split; [|congruence]. intros (found & given & H).
        rewrite Hsorted in H. destruct (denseRanges _); discriminate.
      * split.
        -- intros H. rewrite Hsorted in H.
           destruct (denseRanges _); discriminate.
        -- intros [_ Hex]. apply forallb_inRange_false in Hex. congruence.
      * intros _ Hall Hnd.
        destruct (targets_cover (order options) (length rs) Hlen Hall Hnd)
          as [Hnd' Hcover].
        destruct (denseRanges_filled (assignAll rs (order options) 0 [])
                    (length rs)) as (sorted & Hdense & Hlens & Hread).
        { apply length_assignAll; [simpl; lia|].
          eapply Forall_impl; [exact Hall|]. simpl. intros k Hk. lia. }
        { intros j Hj. destruct (Hcover j Hj) as [m Hm].
          pose proof (assignAll_target rs (order options) 0 [] m _ Hnd' Hm)
            as Ht.
          replace (Z.to_nat (Z.of_nat j + 1 - 1)) with j in Ht by lia.
          rewrite Ht. apply lookup_lt_is_Some.
          apply lookup_lt_Some in Hm. simpl. lia. }
        exists sorted. rewrite Hsorted, Hdense.
        split; [reflexivity|]. split; [exact Hlens|].
        intros i k Hi. rewrite Hread.
        now rewrite (assignAll_target rs (order options) 0 [] i k Hnd' Hi).
    + assert (Hthrow : parse toDom D data options
                       = Throw InvalidRangeOrderError).
      { rewrite Hparse, <- Hlen, Nat.eqb_refl. cbn [negb].
        unfold RangeParser._sortRanges. rewrite sortLoop_spec.
        rewrite Hin. reflexivity. }
      split; [|split].
      * split; [|congruence]. intros (found & given & H).
        rewrite Hthrow in H. discriminate.
      * split; [|intros _; exact Hthrow].
        intros _. split; [exact Hlen|].
        now apply forallb_inRange_false.
      * intros _ Hall _. apply forallb_inRange in Hall. congruence.
  - assert (Hthrow : parse toDom D data options
                     = Throw (RangeCountMismatchError (length rs)
                                (length (order options)))).
    { rewrite Hparse.
      assert (E : (length (order options) =? length rs)%nat = false)
        by now apply Nat.eqb_neq.
      now rewrite E. }
    split; [|split].
    + split; [intros _; exact Hlen|]. intros _. eauto.
    + split; [|intros [H _]; congruence].
      intros H. rewrite Hthrow in H. discriminate.
    + intros H. congruence.
Qed.


End Order.

Lemma C3_order_validation_witness :
  exists sorted,
    parse Html.toDom 10 "<p>{a}{b}</p>" (mkParseOptions [2; 1] false)
    = Ok (ViewAndSelection (Element ViewElement "p" [] [Text "ab"])
            (mkSelection sorted false))
    /\ length sorted = 2%nat.
Proof.
  destruct (C3_order_validation Html.toDom 10 "<p>{a}{b}</p>"
              (mkParseOptions [2; 1] false)
              (Element ViewElement "p" [] [Text "{a}{b}"])
              (Some (Element ViewElement "p" [] [Text "ab"]),
               [RangeParser.mkItem "{" (mkPosition [0%nat] 0);
                RangeParser.mkItem "}" (mkPosition [0%nat] 1);
                RangeParser.mkItem "{" (mkPosition [0%nat] 1);
                RangeParser.mkItem "}" (mkPosition [0%nat] 2)])
              [mkRange (mkPosition [0%nat] 0) (mkPosition [0%nat] 1);
               mkRange (mkPosition [0%nat] 1) (mkPosition [0%nat] 2)])
    as (_ & _ & Hsorted); try reflexivity; try discriminate.
  destruct Hsorted as (sorted & Hparse & Hlen & _).
  - reflexivity.
  - repeat constructor; simpl; lia.
  - apply (bool_decide_unpack _). reflexivity.
  - exists sorted. split; assumption.
Defined.

(** C3, as stated, fails: a target that occurs twice is not refused.  The
    order [1, 1] puts both ranges at index 0 and the last one stays. *)
Lemma C3_duplicate_target_accepted :
  parse Html.toDom 10 "<p>{a}{b}</p>" (mkParseOptions [1; 1] false)
  = Ok (ViewAndSelection (Element ViewElement "p" [] [Text "ab"])
          (mkSelection
             [mkRange (mkPosition [0%nat] 1) (mkPosition [0%nat] 2)] false)).
Proof. reflexivity. Qed.


(** ** The boundary tokens of [stringify] *)

Lemma Node_induction (P : Node -> Prop) :
  (forall children, Forall P children -> P (DocumentFragment children)) ->
  (forall cls name attrs children,
      Forall P children -> P (Element cls name attrs children)) ->
  (forall data, P (Text data)) ->
  forall node, P node.
Proof.
  intros Hfragment Helement Htext.
  fix IH 1. intros [children|cls name attrs children|data].
  - apply Hfragment. induction children; constructor; auto.
  - apply Helement. induction children; constructor; auto.
  - apply Htext.
Qed.

Lemma position_at (p : Position) (node : NodeRef) (at_ : Z) :
  isAt p node at_ = bool_decide (p = mkPosition node at_).
Proof.
  destruct p as [n o|o]; simpl.
  - apply eq_true_iff_eq.
    rewrite andb_true_iff, !bool_decide_eq_true.
    split; [intros [-> ->]; reflexivity|intros [= -> ->]; auto].
  - reflexivity.
Qed.

Lemma collapsed_end (range : Range) :
  isCollapsed range = true -> end_ range = start range.
Proof. unfold isCollapsed. intros H. now apply bool_decide_eq_true in H. Qed.

Lemma elementStep_marks (element : NodeRef) (at_ : Z)
    (marks : ViewStringify.Marks) (range : Range) :
  let here := mkPosition element at_ in
  ViewStringify.elementStep element at_ marks range
  = ViewStringify.mkMarks
      (ViewStringify.markStart marks
         +:+ (if startsAt here range then "[" else EmptyString))
      (ViewStringify.markEnd marks
         +:+ (if endsAt here range then "]" else EmptyString))
      (ViewStringify.markCollapsed marks
         +:+ (if collapsedAt here range then "[]" else EmptyString)).
Proof.
  intros here. unfold ViewStringify.elementStep, startsAt, endsAt, collapsedAt.
  rewrite !position_at. fold here.
  destruct marks as [s e c]. simpl.
  destruct (isCollapsed range) eqn:Hc.
  - rewrite !andb_false_r, !andb_true_r. simpl.
    destruct (bool_decide (start range = here)); simpl;
      now rewrite ?append_nil_r.
  - rewrite !andb_false_r, !andb_true_r.
    destruct (bool_decide (start range = here)),
      (bool_decide (end_ range = here)); simpl;
      now rewrite ?append_nil_r.
Qed.

Lemma elementRanges_fold (ranges : list Range) (element : NodeRef) (at_ : Z)
    (marks : ViewStringify.Marks) :
  let here := mkPosition element at_ in
  fold_left (ViewStringify.elementStep element at_) ranges marks
  = ViewStringify.mkMarks
      (ViewStringify.markStart marks +:+ tokensFor (startsAt here) "[" ranges)
      (ViewStringify.markEnd marks +:+ tokensFor (endsAt here) "]" ranges)
      (ViewStringify.markCollapsed marks
         +:+ tokensFor (collapsedAt here) "[]" ranges).
Proof.
  intros here. revert marks.
  induction ranges as [|r ranges IH]; intros marks; simpl.
  - destruct marks. simpl. now rewrite !append_nil_r.
  - rewrite IH, elementStep_marks. simpl. fold here.
    now rewrite !append_assoc.
Qed.

Lemma stringifyElementRanges_tokens (ranges : list Range) (element : NodeRef)
    (at_ : Z) :
  ViewStringify._stringifyElementRanges ranges element at_
  = boundaryTokens ELEMENT_RANGE_START_TOKEN ELEMENT_RANGE_END_TOKEN ranges
      (mkPosition element at_).
Proof.
  unfold ViewStringify._stringifyElementRanges. rewrite elementRanges_fold.
  reflexivity.
Qed.

Lemma decorate_cons (r : Range) (ranges : list Range) (node : NodeRef)
    (i : nat) (l : ViewStringify.Letter) :
  decorate ranges node i (decorate [r] node i l)
  = decorate (r :: ranges) node i l.
Proof.
  unfold decorate. simpl. now rewrite !append_nil_r, !append_assoc.
Qed.

Lemma decorate_nil (node : NodeRef) (i : nat) (l : ViewStringify.Letter) :
  decorate [] node i l = l.
Proof. destruct l. unfold decorate. simpl. now rewrite !append_nil_r. Qed.

Lemma lookup_alter_at {A : Type} (f : A -> A) (l : list A) (j i : nat) :
  alter f j l !! i = (if bool_decide (i = j) then f else id) <$> l !! i.
Proof.
  rewrite list_lookup_alter. destruct (decide (j = i)) as [->|Hne].
  - now rewrite bool_decide_eq_true_2 by reflexivity.
  - rewrite bool_decide_eq_false_2 by congruence.
    now destruct (l !! i).
Qed.

Lemma textStep_lookup (node : NodeRef) (len : nat)
    (result : list ViewStringify.Letter) (range : Range) (i : nat) :
  length result = S len ->
  ViewStringify.textStep node (Z.of_nat len) result range !! i
  = decorate [range] node i <$> result !! i.
Proof.
  intros Hlen.
  destruct (decide (i <= len)%nat) as [Hi|Hi]; cycle 1.
  { rewrite !lookup_ge_None_2; [reflexivity|lia|].
    unfold ViewStringify.textStep.
    repeat match goal with
           | |- context [if ?b then _ else _] => destruct b
           end; rewrite ?length_alter; lia. }
  destruct (result !! i) as [l|] eqn:Hl; cycle 1.
  { apply lookup_ge_None in Hl. lia. }
  unfold ViewStringify.textStep.
  set (here := mkPosition node (Z.of_nat i)).
  assert (Hstart : forall p : Position,
             isIn p node (Z.of_nat len) = true ->
             bool_decide (i = offsetIndex p) = bool_decide (p = here)).
  { intros [n o|o] H; [|discriminate H]. simpl in *.
    apply andb_prop in H as [H Hle]. apply andb_prop in H as [Hn Hge].
    apply bool_decide_eq_true in Hn. apply Z.leb_le in Hge, Hle. subst n.
    destruct (decide (i = Z.to_nat o)) as [->|Hne].
    - rewrite !bool_decide_eq_true_2; [reflexivity| |reflexivity].
      unfold here. f_equal. lia.
    - rewrite !bool_decide_eq_false_2; [reflexivity| |assumption].
      unfold here. intros [= E]. lia. }
  assert (Hmiss : forall p : Position,
             isIn p node (Z.of_nat len) = false ->
             bool_decide (p = here) = false).
  { intros [n o|o] H; [|now apply bool_decide_eq_false_2].
    simpl in *. apply bool_decide_eq_false_2.
    unfold here. intros [= -> ->].
    rewrite bool_decide_eq_true_2 in H by reflexivity. simpl in H.
    apply andb_false_iff in H as [H|H];
      [apply Z.leb_gt in H|apply Z.leb_gt in H]; lia. }
  unfold decorate, startsAt, endsAt, collapsedAt. fold here. simpl.
  rewrite !append_nil_r.
  destruct (isCollapsed range) eqn:Hc.
  - rewrite !andb_false_r, !andb_true_r. simpl. rewrite !append_nil_r.
    destruct (isIn (start range) node (Z.of_nat len)) eqn:Hg.
    + rewrite lookup_alter_at, Hl. simpl.
      rewrite (collapsed_end range Hc), (Hstart _ Hg).
      destruct (bool_decide (start range = here)); destruct l; simpl;
        now rewrite ?append_nil_r.
    + rewrite Hl, (Hmiss _ Hg). destruct l; simpl.
      now rewrite ?append_nil_r.
  - rewrite !andb_true_r.
    destruct (isIn (start range) node (Z.of_nat len)) eqn:Hg;
      destruct (isIn (end_ range) node (Z.of_nat len)) eqn:Hg';
      rewrite ?lookup_alter_at, ?Hl; simpl;
      rewrite ?(Hstart _ Hg), ?(Hstart _ Hg'), ?(Hmiss _ Hg), ?(Hmiss _ Hg');
      destruct (bool_decide (start range = here));
      destruct (bool_decide (end_ range = here)); destruct l; simpl;
      now rewrite ?append_nil_r.
Qed.

Lemma length_textStep (node : NodeRef) (len : Z)
    (result : list ViewStringify.Letter) (range : Range) :
  length (ViewStringify.textStep node len result range) = length result.
Proof.
  unfold ViewStringify.textStep.
  repeat match goal with
         | |- context [if ?b then _ else _] => destruct b
         end; now rewrite ?length_alter.
Qed.

Lemma textRanges_fold (ranges : list Range) (node : NodeRef) (len : nat)
    (result : list ViewStringify.Letter) (i : nat) :
  length result = S len ->
  fold_left (ViewStringify.textStep node (Z.of_nat len)) ranges result !! i
  = decorate ranges node i <$> result !! i.
Proof.
  revert result.
  induction ranges as [|r ranges IH]; intros result Hlen; simpl.
  - destruct (result !! i); simpl; [|reflexivity]. now rewrite decorate_nil.
  - rewrite IH by now rewrite length_textStep.
    rewrite textStep_lookup by assumption.
    destruct (result !! i); simpl; [|reflexivity]. now rewrite decorate_cons.
Qed.

Lemma join_empty_cons (x : string) (l : list string) :
  Js.join EmptyString (x :: l) = x +:+ Js.join EmptyString l.
Proof. destruct l; simpl; [now rewrite append_nil_r|reflexivity]. Qed.

Lemma length_chars (data : string) :
  length (Js.chars data) = String.length data.
Proof. induction data; simpl; congruence. Qed.

Lemma textWithTokens_letters (ranges : list Range) (node : NodeRef) (k : nat)
    (data : string) :
  Js.join EmptyString
    (map ViewStringify.letterString
       (imap (fun i l => decorate ranges node (k + i) l)
          (map (fun letter =>
                  ViewStringify.mkLetter letter EmptyString EmptyString
                    EmptyString)
             (Js.chars data ++ [EmptyString]))))
  = textWithTokens ranges node k data.
Proof.
  revert k. induction data as [|c data IH]; intros k.
  - simpl. unfold ViewStringify.letterString, decorate, boundaryTokens. simpl.
    replace (k + 0)%nat with k by lia. now rewrite !append_nil_r.
  - cbn [Js.chars app map imap textWithTokens].
    rewrite (imap_ext _ (fun i l => decorate ranges node (S k + i) l));
      [|intros; unfold compose; f_equal; lia].
    cbn [map]. rewrite join_empty_cons, IH.
    unfold ViewStringify.letterString at 1. unfold decorate, boundaryTokens.
    simpl. replace (k + 0)%nat with k by lia.
    now rewrite !append_assoc.
Qed.

Lemma stringifyTextRanges_tokens (ranges : list Range) (node : NodeRef)
    (data : string) :
  ViewStringify._stringifyTextRanges ranges node data
  = textWithTokens ranges node 0 data.
Proof.
  unfold ViewStringify._stringifyTextRanges.
  rewrite <- textWithTokens_letters. f_equal. f_equal.
  apply list_eq. intros i.
  rewrite textRanges_fold.
  - rewrite list_lookup_imap. reflexivity.
  - rewrite length_map, length_app, length_chars. simpl. lia.
Qed.

Lemma walkView_unfold (ranges : list Range) (options : ViewStringify.Options)
    (self : NodeRef) (root : Node) :
  ViewStringify._walkView ranges options self root
  = match root with
    | DocumentFragment children =>
        ViewStringify._stringifyElementRanges ranges self 0
          +:+ walkViewChildren ranges options self children 0
    | Element cls name attributes children =>
        ViewStringify._stringifyElementOpen options cls name attributes
          +:+ ViewStringify._stringifyElementRanges ranges self 0
          +:+ walkViewChildren ranges options self children 0
          +:+ ViewStringify._stringifyElementClose options cls name
    | Text data => ViewStringify._stringifyTextRanges ranges self data
    end.
Proof. destruct root; reflexivity. Qed.

Lemma withTokens_unfold (ranges : list Range)
    (options : ViewStringify.Options) (self : NodeRef) (node : Node) :
  withTokens ranges options self node
  = match node with
    | DocumentFragment children =>
        boundaryTokens "[" "]" ranges (mkPosition self 0)
          +:+ withTokensAll ranges options self children 0
    | Element cls name attrs children =>
        ViewStringify._stringifyElementOpen options cls name attrs
          +:+ boundaryTokens "[" "]" ranges (mkPosition self 0)
          +:+ withTokensAll ranges options self children 0
          +:+ ViewStringify._stringifyElementClose options cls name
    | Text data => textWithTokens ranges self 0 data
    end.
Proof. destruct node; reflexivity. Qed.

Lemma walkViewChildren_withTokens (ranges : list Range)
    (options : ViewStringify.Options) (self : NodeRef)
    (children : list Node) :
  Forall (fun child =>
            forall self,
              ViewStringify._walkView ranges options self child
              = withTokens ranges options self child) children ->
  forall offset,
    walkViewChildren ranges options self children offset
    = withTokensAll ranges options self children offset.
Proof.
  induction 1 as [|child rest Hchild _ IH]; intros offset;
    cbn [walkViewChildren withTokensAll]; [reflexivity|].
  rewrite Hchild, IH, stringifyElementRanges_tokens.
  now replace (Z.of_nat (S offset)) with (Z.of_nat offset + 1) by lia.
Qed.

(** The walk writes the tags, the texts and the tokens of every offset. *)
Lemma walkView_withTokens (ranges : list Range)
    (options : ViewStringify.Options) (node : Node) :
  forall self,
    ViewStringify._walkView ranges options self node
    = withTokens ranges options self node.
Proof.
  induction node as [children IH|cls name attrs children IH|data]
    using Node_induction; intros self;
    rewrite walkView_unfold, withTokens_unfold.
  - now rewrite stringifyElementRanges_tokens,
      (walkViewChildren_withTokens ranges options self children IH).
  - now rewrite stringifyElementRanges_tokens,
      (walkViewChildren_withTokens ranges options self children IH).
  - apply stringifyTextRanges_tokens.
Qed.

(** C8.  At every container offset [stringify] writes the end tokens of the
    ranges that end there and are not collapsed, then the pairs of the
    ranges collapsed there, then the start tokens of the ranges that start
    there and are not collapsed: after the opening tag for offset 0 and
    after each child for the offset behind it.  A text node is written with
    the same three groups, in the same order, before each of its characters
    and after the last one.  The ranges are those of the selection that
    [stringify] is called with, and none when it is called without
    selection: what [stringify] returns is the text of the tree with these
    tokens at every offset. *)
Theorem C8_boundary_token_order (ranges : list Range)
    (options : ViewStringify.Options) (node : NodeRef) :
  (forall at_ : Z,
      ViewStringify._stringifyElementRanges ranges node at_
      = tokensFor (endsAt (mkPosition node at_)) "]" ranges
        +:+ tokensFor (collapsedAt (mkPosition node at_)) "[]" ranges
        +:+ tokensFor (startsAt (mkPosition node at_)) "[" ranges)
  /\ (forall cls name attributes children,
         ViewStringify._walkView ranges options node
           (Element cls name attributes children)
         = ViewStringify._stringifyElementOpen options cls name attributes
           +:+ boundaryTokens "[" "]" ranges (mkPosition node 0)
           +:+ walkViewChildren ranges options node children 0
           +:+ ViewStringify._stringifyElementClose options cls name)
  /\ (forall children,
         ViewStringify._walkView ranges options node
           (DocumentFragment children)
         = boundaryTokens "[" "]" ranges (mkPosition node 0)
           +:+ walkViewChildren ranges options node children 0)
  /\ (forall child rest (offset : nat),
         walkViewChildren ranges options node (child :: rest) offset
         = ViewStringify._walkView ranges options (node ++ [offset]) child
           +:+ boundaryTokens "[" "]" ranges
                 (mkPosition node (Z.of_nat offset + 1))
           +:+ walkViewChildren ranges options node rest (S offset))
  /\ (forall data : string,
         ViewStringify._walkView ranges options node (Text data)
         = textWithTokens ranges node 0 data)
  /\ (forall (i : nat) (data : string),
         textWithTokens ranges node i data
         = (tokensFor (endsAt (mkPosition node (Z.of_nat i))) "}" ranges
            +:+ tokensFor (collapsedAt (mkPosition node (Z.of_nat i))) "{}"
                  ranges
            +:+ tokensFor (startsAt (mkPosition node (Z.of_nat i))) "{" ranges)
           +:+ match data with
               | EmptyString => EmptyString
               | String c rest =>
                   String c (textWithTokens ranges node (S i) rest)
               end)
  /\ (forall (root : Node) (selection : Selection),
         stringify root (Some selection) options
         = ViewStringify._walkView (getRanges selection) options [] root
         /\ stringify root (Some selection) options
            = withTokens (getRanges selection) options [] root)
  /\ (forall root : Node,
         stringify root None options
         = ViewStringify._walkView [] options [] root
         /\ stringify root None options = withTokens [] options [] root).
Proof.
  repeat apply conj; try (intros root; split;
                          [reflexivity|apply walkView_withTokens]);
    try (intros root selection; split;
         [reflexivity|apply walkView_withTokens]).
  - intros at_. apply stringifyElementRanges_tokens.
  - intros cls name attributes children.
    now rewrite walkView_unfold, stringifyElementRanges_tokens.
  - intros children.
    now rewrite walkView_unfold, stringifyElementRanges_tokens.
  - intros child rest offset. cbn [walkViewChildren].
    rewrite stringifyElementRanges_tokens.
    now replace (Z.of_nat (S offset)) with (Z.of_nat offset + 1) by lia.
  - intros data. rewrite walkView_unfold. apply stringifyTextRanges_tokens.
  - intros i data. destruct data; reflexivity.
Qed.

(** ** The scanner *)

Lemma getPositions_unfold (self : NodeRef) (home : option (NodeRef * nat))
    (node : Node) :
  RangeParser._getPositions self home node
  = match node with
    | DocumentFragment children =>
        r <-! visitChildren self children [] [] ;;
        Ok (Some (DocumentFragment (fst r)), snd r)
    | Element cls name attrs children =>
        r <-! visitChildren self children [] [] ;;
        Ok (Some (Element cls name attrs (fst r)), snd r)
    | Text data => RangeParser.getPositionsOfText self home data
    end.
Proof. destruct node; reflexivity. Qed.

Lemma visitChildren_cons (self : NodeRef) (child : Node)
    (rest kept : list Node) (found : list RangeParser.Item) :
  visitChildren self (child :: rest) kept found
  = (r <-! RangeParser._getPositions (self ++ [length kept])
             (Some (self, length kept)) child ;;
     visitChildren self rest (RangeParser.keep kept (fst r))
       (found ++ snd r)).
Proof. reflexivity. Qed.

Lemma scan_matched (data : string) (index offset : nat) :
  map RangeParser.bracketChar (RangeParser.scan data index offset)
  = matched data.
Proof.
  revert index offset. induction data as [|c data IH]; intros index offset;
    simpl; [reflexivity|].
  destruct (RangeParser.matches c); simpl; now rewrite IH.
Qed.

(** A recorded offset counts the characters that stay in front of the
    match. *)
Lemma scan_offset_bound (data : string) (index offset : nat) :
  (offset <= index)%nat ->
  Forall (fun b =>
            (index - offset <= RangeParser.textOffset b
             <= index - offset + String.length (RangeParser.strip data))%nat)
    (RangeParser.scan data index offset).
Proof.
  revert index offset. induction data as [|c data IH]; intros index offset Hle;
    simpl; [constructor|].
  destruct (RangeParser.matches c); simpl.
  - constructor; [simpl; lia|].
    eapply Forall_impl; [apply IH; lia|]. simpl. intros b Hb. lia.
  - eapply Forall_impl; [apply IH; lia|]. simpl. intros b Hb. lia.
Qed.

Lemma textToken_not_elementToken (c : ascii) :
  RangeParser.isTextToken c = true -> isElementToken c = false.
Proof.
  unfold RangeParser.isTextToken. intros H.
  apply orb_prop in H as [H|H]; apply bool_decide_eq_true in H; subst c;
    reflexivity.
Qed.

Lemma itemPositions_Ok (self : NodeRef) (home : option (NodeRef * nat))
    (text : string) (brackets : list RangeParser.Bracket)
    (items : list RangeParser.Item) :
  RangeParser.itemPositions self home text brackets = Ok items ->
  Forall2 (fun b item => RangeParser.itemPosition self home text b = Ok item)
    brackets items.
Proof.
  revert items. induction brackets as [|b brackets IH]; intros items; simpl.
  - intros [= <-]. constructor.
  - destruct (RangeParser.itemPosition self home text b) as [item|e] eqn:Hb;
      [|discriminate].
    rewrite bind_Ok.
    destruct (RangeParser.itemPositions self home text brackets)
      as [others|e]; [|discriminate].
    rewrite bind_Ok. intros [= <-]. constructor; auto.
Qed.

Lemma itemPositions_Throw (self : NodeRef) (home : option (NodeRef * nat))
    (text : string) (brackets : list RangeParser.Bracket) (e : Error) :
  RangeParser.itemPositions self home text brackets = Throw e ->
  exists b, In b brackets
            /\ RangeParser.itemPosition self home text b = Throw e.
Proof.
  induction brackets as [|b brackets IH]; simpl; [discriminate|].
  destruct (RangeParser.itemPosition self home text b) as [item|e'] eqn:Hb.
  - rewrite bind_Ok.
    destruct (RangeParser.itemPositions self home text brackets)
      as [others|e'']; [discriminate|].
    intros [= <-]. destruct IH as (b' & Hin & Hb'); eauto.
  - intros [= <-]. eauto.
Qed.

(** What a position that was made tells about the bracket. *)
Lemma itemPosition_Ok (self : NodeRef) (home : option (NodeRef * nat))
    (text : string) (b : RangeParser.Bracket) (item : RangeParser.Item) :
  RangeParser.itemPosition self home text b = Ok item ->
  RangeParser.bracket item = RangeParser.bracketChar b
  /\ (isElementToken (RangeParser.bracketChar b)
      && negb (RangeParser.textOffset b =? 0)%nat
      && negb (RangeParser.textOffset b =? String.length text)%nat = true ->
      text = EmptyString)
  /\ (text = EmptyString ->
      RangeParser.isTextToken (RangeParser.bracketChar b) = false).
Proof.
  unfold RangeParser.itemPosition.
  destruct (bool_decide (text = EmptyString)) eqn:Hempty; simpl.
  - apply bool_decide_eq_true in Hempty.
    destruct (RangeParser.isTextToken (RangeParser.bracketChar b)) eqn:Ht;
      [discriminate|].
    intros [= <-]. auto.
  - apply bool_decide_eq_false in Hempty.
    destruct (RangeParser.isTextToken (RangeParser.bracketChar b)) eqn:Ht.
    + intros [= <-]. split; [reflexivity|]. split; [|congruence].
      rewrite (textToken_not_elementToken _ Ht). discriminate.
    + destruct (negb (RangeParser.textOffset b =? 0)%nat
                && negb (RangeParser.textOffset b =? String.length text)%nat)
        eqn:Hin; [discriminate|].
      intros [= <-]. split; [reflexivity|]. split; [|congruence].
      rewrite <- andb_assoc, Hin, andb_false_r. discriminate.
Qed.

(** A bracket is refused with a marker-placement error only: an element
    token strictly inside a text that is not empty, or a text token in an
    empty text. *)
Lemma itemPosition_Throw (self : NodeRef) (home : option (NodeRef * nat))
    (text : string) (b : RangeParser.Bracket) (e : Error) :
  RangeParser.itemPosition self home text b = Throw e ->
  exists emptyText,
    e = MarkerPlacementError (RangeParser.bracketChar b) emptyText
    /\ (emptyText = true ->
        RangeParser.isTextToken (RangeParser.bracketChar b) = true).
Proof.
  unfold RangeParser.itemPosition.
  destruct (negb (bool_decide (text = EmptyString)));
    destruct (RangeParser.isTextToken (RangeParser.bracketChar b)) eqn:Ht;
    try discriminate.
  - destruct (negb (RangeParser.textOffset b =? 0)%nat
              && negb (RangeParser.textOffset b =? String.length text)%nat);
      [|discriminate].
    intros [= <-]. exists false. split; [reflexivity|discriminate].
  - intros [= <-]. exists true. split; [reflexivity|auto].
Qed.

Lemma existsb_false_Forall {A : Type} (p : A -> bool) (l : list A) :
  Forall (fun x => p x = false) l -> existsb p l = false.
Proof.
  induction 1 as [|x l Hx Hl IH]; simpl; [reflexivity|]. now rewrite Hx, IH.
Qed.

Lemma getPositionsText_items (self : NodeRef)
    (home : option (NodeRef * nat)) (data : string)
    (r : option Node * list RangeParser.Item) :
  RangeParser.getPositionsOfText self home data = Ok r ->
  RangeParser.itemPositions self home (RangeParser.strip data)
    (RangeParser.scan data 0 0) = Ok (snd r)
  /\ fst r = RangeParser.afterRemove home (RangeParser.strip data).
Proof.
  unfold RangeParser.getPositionsOfText.
  destruct (RangeParser.itemPositions _ _ _ _) as [items|e]; [|discriminate].
  rewrite bind_Ok. now intros [= <-].
Qed.

Lemma getPositionsText_Ok (self : NodeRef) (home : option (NodeRef * nat))
    (data : string) (r : option Node * list RangeParser.Item) :
  RangeParser.getPositionsOfText self home data = Ok r ->
  scannedWell home (Text data) r.
Proof.
  intros H. apply getPositionsText_items in H as [Hitems Hleft].
  destruct r as [left items]. simpl in Hitems, Hleft. subst left.
  unfold scannedWell. simpl.
  set (text := RangeParser.strip data) in *.
  apply itemPositions_Ok in Hitems.
  assert (Hall : Forall2
                   (fun b item =>
                      RangeParser.bracket item = RangeParser.bracketChar b
                      /\ (isElementToken (RangeParser.bracketChar b)
                          && negb (RangeParser.textOffset b =? 0)%nat
                          && negb (RangeParser.textOffset b
                                     =? String.length text)%nat = true ->
                          text = EmptyString)
                      /\ (text = EmptyString ->
                          RangeParser.isTextToken (RangeParser.bracketChar b)
                          = false))
                   (RangeParser.scan data 0 0) items).
  { eapply Forall2_impl; [exact Hitems|]. intros b item.
    apply itemPosition_Ok. }
  clear Hitems. split; [|split].
  - rewrite filter_cons, filter_nil. fold text.
    unfold RangeParser.afterRemove, nonEmptyText.
    destruct (bool_decide (text = EmptyString)) eqn:E.
    + apply bool_decide_eq_true in E.
      destruct home as [h|].
      * left. destruct (decide (negb true = true)) as [F|F];
          [discriminate F|reflexivity].
      * right. rewrite E. eauto.
    + left. destruct (decide (negb false = true)) as [F|F];
        [reflexivity|now contradict F].
  - rewrite app_nil_r, <- (scan_matched data 0 0).
    induction Hall as [|b item bs items' [Hb _] _ IH]; simpl;
      [reflexivity|]. now rewrite Hb, IH.
  - constructor; [|constructor]. split.
    + unfold elementTokenInside. fold text. apply existsb_false_Forall.
      pose proof (scan_offset_bound data 0 0 (Nat.le_refl 0)) as Hbound.
      fold text in Hbound.
      induction Hall as [|b item bs items' (_ & Hb & _) _ IH];
        [constructor|].
      apply Forall_cons_iff in Hbound as [Hb0 Hbound].
      constructor; [|now apply IH].
      destruct (isElementToken (RangeParser.bracketChar b)
                && negb (RangeParser.textOffset b =? 0)%nat
                && negb (RangeParser.textOffset b =? String.length text)%nat)
        eqn:E; [|reflexivity].
      specialize (Hb eq_refl). rewrite Hb in *. simpl in Hb0.
      assert (Hzero : RangeParser.textOffset b = 0%nat) by lia.
      apply andb_prop in E as [E _]. apply andb_prop in E as [_ E].
      rewrite Hzero in E. discriminate.
    + unfold textTokenInEmpty. fold text.
      destruct (bool_decide (text = EmptyString)) eqn:E; [|reflexivity].
      apply bool_decide_eq_true in E. simpl.
      apply existsb_false_Forall.
      induction Hall as [|b item bs items' (_ & _ & Hb) _ IH];
        constructor; auto.
Qed.

Lemma getPositionsText_Throw (self : NodeRef)
    (home : option (NodeRef * nat)) (data : string) (e : Error) :
  RangeParser.getPositionsOfText self home data = Throw e ->
  exists b emptyText,
    e = MarkerPlacementError b emptyText
    /\ In b (matched data)
    /\ (emptyText = true -> RangeParser.isTextToken b = true).
Proof.
  unfold RangeParser.getPositionsOfText. intros H.
  assert (Hitems : RangeParser.itemPositions self home
                     (RangeParser.strip data) (RangeParser.scan data 0 0)
                   = Throw e).
  { destruct (RangeParser.itemPositions _ _ _ _); simpl in H; congruence. }
  apply itemPositions_Throw in Hitems as (b & Hin & Hb).
  apply itemPosition_Throw in Hb as (emptyText & -> & Hflag).
  exists (RangeParser.bracketChar b), emptyText.
  split; [reflexivity|]. split; [|exact Hflag].
  rewrite <- (scan_matched data 0 0). now apply in_map.
Qed.

Lemma textNodes_keep (kept : list Node) (node : option Node) :
  flat_map textNodes (RangeParser.keep kept node)
  = flat_map textNodes kept ++ textNodesLeft node.
Proof.
  destruct node as [n|]; simpl.
  - rewrite flat_map_app. simpl. now rewrite app_nil_r.
  - now rewrite app_nil_r.
Qed.

Lemma visitChildren_Ok (self : NodeRef) (children : list Node) :
  Forall (fun child =>
            forall self home r,
              RangeParser._getPositions self home child = Ok r ->
              scannedWell home child r) children ->
  forall kept found r,
    visitChildren self children kept found = Ok r ->
    flat_map textNodes (fst r)
    = flat_map textNodes kept
      ++ filter (fun d => nonEmptyText d = true)
           (map RangeParser.strip (flat_map textNodes children))
    /\ map RangeParser.bracket (snd r)
       = map RangeParser.bracket found
         ++ flat_map matched (flat_map textNodes children)
    /\ Forall (fun d => elementTokenInside d = false
                        /\ textTokenInEmpty d = false)
         (flat_map textNodes children).
Proof.
  induction 1 as [|child rest Hchild _ IH]; intros kept found r.
  - simpl. intros [= <-]. simpl. rewrite !app_nil_r. auto.
  - rewrite visitChildren_cons.
    destruct (RangeParser._getPositions _ _ child) as [rc|e] eqn:Hc;
      [|discriminate].
    rewrite bind_Ok. intros Hrest.
    apply Hchild in Hc as ([Ha|(Hnone & _)] & Hb & Hc); [|discriminate].
    apply IH in Hrest as (Ha' & Hb' & Hc').
    simpl. rewrite Ha', Hb', textNodes_keep, Ha, !map_app, Hb.
    rewrite !filter_app, !flat_map_app, <- !app_assoc.
    split; [reflexivity|]. split; [reflexivity|].
    apply Forall_app. auto.
Qed.

(** The scan of a tree that goes through leaves the stripped texts that
    are not empty, finds the matched characters in order, and has met no
    misplaced token. *)
Lemma getPositions_Ok (node : Node) :
  forall self home r,
    RangeParser._getPositions self home node = Ok r ->
    scannedWell home node r.
Proof.
  induction node as [children IH|cls name attrs children IH|data]
    using Node_induction; intros self home r; rewrite getPositions_unfold.
  - destruct (visitChildren self children [] []) as [rc|e] eqn:Hv;
      [|discriminate].
    rewrite bind_Ok. intros [= <-].
    apply (visitChildren_Ok self children IH) in Hv as (Ha & Hb & Hc).
    unfold scannedWell. simpl in *. auto.
  - destruct (visitChildren self children [] []) as [rc|e] eqn:Hv;
      [|discriminate].
    rewrite bind_Ok. intros [= <-].
    apply (visitChildren_Ok self children IH) in Hv as (Ha & Hb & Hc).
    unfold scannedWell. simpl in *. auto.
  - apply getPositionsText_Ok.
Qed.

Lemma visitChildren_Throw (self : NodeRef) (children : list Node) :
  Forall (fun child =>
            forall self home e,
              RangeParser._getPositions self home child = Throw e ->
              exists b emptyText,
                e = MarkerPlacementError b emptyText
                /\ In b (flat_map matched (textNodes child))
                /\ (emptyText = true -> RangeParser.isTextToken b = true))
    children ->
  forall kept found e,
    visitChildren self children kept found = Throw e ->
    exists b emptyText,
      e = MarkerPlacementError b emptyText
      /\ In b (flat_map matched (flat_map textNodes children))
      /\ (emptyText = true -> RangeParser.isTextToken b = true).
Proof.
  induction 1 as [|child rest Hchild _ IH]; intros kept found e.
  - discriminate.
  - rewrite visitChildren_cons.
    destruct (RangeParser._getPositions _ _ child) as [rc|e'] eqn:Hc.
    + rewrite bind_Ok. intros Hrest.
      apply IH in Hrest as (b & flag & -> & Hin & Hflag).
      exists b, flag. split; [reflexivity|]. split; [|exact Hflag].
      simpl. rewrite flat_map_app. apply in_or_app. now right.
    + intros [= <-].
      apply Hchild in Hc as (b & flag & -> & Hin & Hflag).
      exists b, flag. split; [reflexivity|]. split; [|exact Hflag].
      simpl. rewrite flat_map_app. apply in_or_app. now left.
Qed.

(** The scan fails with a marker-placement error only, on a character
    that the scanner matched. *)
Lemma getPositions_Throw (node : Node) :
  forall self home e,
    RangeParser._getPositions self home node = Throw e ->
    exists b emptyText,
      e = MarkerPlacementError b emptyText
      /\ In b (flat_map matched (textNodes node))
      /\ (emptyText = true -> RangeParser.isTextToken b = true).
Proof.
  induction node as [children IH|cls name attrs children IH|data]
    using Node_induction; intros self home e; rewrite getPositions_unfold.
  - destruct (visitChildren self children [] []) as [rc|e'] eqn:Hv;
      [discriminate|].
    intros [= <-]. now apply (visitChildren_Throw self children IH) in Hv.
  - destruct (visitChildren self children [] []) as [rc|e'] eqn:Hv;
      [discriminate|].
    intros [= <-]. now apply (visitChildren_Throw self children IH) in Hv.
  - intros H. apply getPositionsText_Throw in H as (b & flag & H1 & H2 & H3).
    exists b, flag. simpl. rewrite app_nil_r. auto.
Qed.

(** The root stays: the caller's reference is what the scan leaves. *)
Lemma getPositions_root_some (view : Node)
    (scanned : option Node * list RangeParser.Item) :
  RangeParser._getPositions [] None view = Ok scanned ->
  fst scanned = Some (RangeParser.scannedRoot (fst scanned)).
Proof.
  rewrite getPositions_unfold.
  destruct view as [children|cls name attrs children|data].
  - destruct (visitChildren [] children [] []); [|discriminate].
    now intros [= <-].
  - destruct (visitChildren [] children [] []); [|discriminate].
    now intros [= <-].
  - intros H. apply getPositionsText_items in H as [_ ->].
    unfold RangeParser.afterRemove.
    now destruct (bool_decide (RangeParser.strip data = EmptyString)).
Qed.

Lemma getPositions_root_kept (view : Node)
    (scanned : option Node * list RangeParser.Item) :
  RangeParser._getPositions [] None view = Ok scanned ->
  textNodes (RangeParser.scannedRoot (fst scanned))
  = textNodesLeft (fst scanned).
Proof.
  intros H. apply getPositions_root_some in H. now rewrite H at 2.
Qed.

Lemma parse_getPositions_throw (toDom : string -> DomNode) (D : Js.Number)
    (data : string) (options : ParseOptions) (view : Node) (e : Error) :
  ViewParser.parse D toDom data = Ok view ->
  RangeParser._getPositions [] None view = Throw e ->
  parse toDom D data options = Throw e.
Proof.
  intros Hview Hscan. unfold parse, RangeParser.parse.
  now rewrite Hview, !bind_Ok, Hscan.
Qed.

(** What [parse] returns is the view as the scan left it. *)
Lemma parse_Ok_scanned (toDom : string -> DomNode) (D : Js.Number) (data : string)
    (options : ParseOptions) (view : Node) (parsed : Parsed) :
  ViewParser.parse D toDom data = Ok view ->
  parse toDom D data options = Ok parsed ->
  exists scanned,
    RangeParser._getPositions [] None view = Ok scanned
    /\ parsedView parsed = RangeParser.scannedRoot (fst scanned).
Proof.
  intros Hview. unfold parse, RangeParser.parse. rewrite Hview, !bind_Ok.
  destruct (RangeParser._getPositions [] None view) as [scanned|e];
    [|discriminate].
  rewrite !bind_Ok. intros H. exists scanned. split; [reflexivity|].
  destruct (RangeParser._createRanges (snd scanned)) as [rs|e];
    [|discriminate].
  rewrite !bind_Ok in H.
  assert (Hr : forall r : Result (Node * list (option Range)),
             (forall x, r = Ok x -> fst x = RangeParser.scannedRoot (fst scanned)) ->
             (x <-! r ;;
              if negb (length (snd x) =? 0)%nat then
                selection <-! setRanges (snd x)
                                (optLastRangeBackward options) ;;
                Ok (ViewAndSelection (fst x) selection)
              else Ok (View (fst x))) = Ok parsed ->
             parsedView parsed = RangeParser.scannedRoot (fst scanned)).
  { intros [x|e] Hx; [|discriminate]. rewrite bind_Ok.
    specialize (Hx x eq_refl).
    destruct (negb (length (snd x) =? 0)%nat).
    - destruct (setRanges _ _); [|discriminate].
      rewrite bind_Ok. now intros [= <-].
    - now intros [= <-]. }
  eapply Hr; [|exact H].
  intros x Hx.
  destruct (negb (length (order options) =? 0)%nat).
  - destruct (negb (length (order options) =? length rs)%nat);
      [discriminate|].
    destruct (RangeParser._sortRanges rs (order options)); [|discriminate].
    rewrite bind_Ok in Hx. now injection Hx as <-.
  - now injection Hx as <-.
Qed.

(** ** Marker placement and spaces *)

Lemma Exists_not_Forall_false {A : Type} (p q : A -> bool) (l : list A) :
  Exists (fun x => p x = true \/ q x = true) l ->
  Forall (fun x => p x = false /\ q x = false) l -> False.
Proof.
  intros Hex Hall. apply Exists_exists in Hex as (x & Hin & Hx).
  rewrite Forall_forall in Hall. destruct (Hall x Hin) as [Hp Hq].
  destruct Hx; congruence.
Qed.

Section Placement.

Variable toDom : string -> DomNode.
Variable D : Js.Number.


End Placement.



Lemma matches_space : RangeParser.matches " " = true.
Proof. reflexivity. Qed.

Lemma matched_not_token (c : ascii) :
  RangeParser.matches c = true -> isRangeToken c = false -> c = " "%char.
Proof.
  unfold RangeParser.matches, isRangeToken, RangeParser.isStartToken,
    RangeParser.isEndToken.
  intros Hm Ht.
  repeat match type of Hm with
         | (_ || _) = true => apply orb_prop in Hm as [Hm|Hm]
         end;
    apply bool_decide_eq_true in Hm; subst c;
    solve [reflexivity | discriminate Ht].
Qed.

Lemma matched_spaces (data : string) :
  noneOf isRangeToken data = true ->
  Forall (fun c => c = " "%char) (matched data).
Proof.
  induction data as [|c data IH]; simpl; [constructor|].
  intros H. apply andb_prop in H as [Hc Hrest].
  apply negb_true_iff in Hc.
  destruct (RangeParser.matches c) eqn:Hm; [|auto].
  constructor; [|auto]. now apply matched_not_token.
Qed.

Lemma matched_some_space (data : string) :
  someOf isSpace data = true -> matched data <> [].
Proof.
  induction data as [|c data IH]; simpl; [discriminate|].
  intros H. apply orb_prop in H as [H|H].
  - unfold isSpace in H. apply bool_decide_eq_true in H. subst c.
    discriminate.
  - destruct (RangeParser.matches c); [discriminate|auto].
Qed.

Lemma strip_noneOf (data : string) :
  noneOf RangeParser.matches (RangeParser.strip data) = true.
Proof.
  induction data as [|c data IH]; simpl; [reflexivity|].
  destruct (RangeParser.matches c) eqn:Hm; simpl; [exact IH|].
  now rewrite Hm, IH.
Qed.

Lemma noneOf_weaken (p q : ascii -> bool) (s : string) :
  (forall c, q c = true -> p c = true) ->
  noneOf p s = true -> noneOf q s = true.
Proof.
  intros Hpq. induction s as [|c s IH]; simpl; [reflexivity|].
  intros H. apply andb_prop in H as [Hc Hs].
  rewrite (IH Hs), andb_true_r. apply negb_true_iff in Hc.
  destruct (q c) eqn:Hq; [|reflexivity].
  apply Hpq in Hq. congruence.
Qed.

Lemma space_matches (c : ascii) :
  isSpace c = true -> RangeParser.matches c = true.
Proof.
  unfold isSpace. intros H. apply bool_decide_eq_true in H. now subst c.
Qed.

(** A text without matched characters is left as it is and gives no
    position. *)
Lemma scan_plain (data : string) (index offset : nat) :
  noneOf RangeParser.matches data = true ->
  RangeParser.scan data index offset = []
  /\ RangeParser.strip data = data.
Proof.
  revert index offset. induction data as [|c data IH]; intros index offset;
    simpl; [auto|].
  intros H. apply andb_prop in H as [Hc Hs]. apply negb_true_iff in Hc.
  rewrite Hc. destruct (IH (S index) offset Hs) as [-> ->]. auto.
Qed.

Lemma delimiter_is_space (c : ascii) :
  RangeParser.matches c = true -> isRangeToken c = false ->
  RangeParser.isTextToken c = false /\ c = " "%char.
Proof.
  intros Hm Ht. pose proof (matched_not_token c Hm Ht) as ->. now split.
Qed.

(** The positions of brackets that are all spaces: the first space that is
    strictly inside the text is refused. *)
Lemma itemPositions_spaces (self : NodeRef) (home : option (NodeRef * nat))
    (text : string) (brackets : list RangeParser.Bracket) :
  Forall (fun b => RangeParser.bracketChar b = " "%char
                   /\ (RangeParser.textOffset b <= String.length text)%nat)
    brackets ->
  if existsb (fun b =>
                negb (RangeParser.isTextToken (RangeParser.bracketChar b))
                && negb (RangeParser.textOffset b =? 0)%nat
                && negb (RangeParser.textOffset b =? String.length text)%nat)
       brackets
  then RangeParser.itemPositions self home text brackets
       = Throw (MarkerPlacementError " " false)
  else exists items,
         RangeParser.itemPositions self home text brackets = Ok items.
Proof.
  induction 1 as [|b brackets [Hb Hbound] _ IH]; simpl; [eauto|].
  unfold RangeParser.itemPosition. rewrite Hb. simpl.
  destruct (bool_decide (text = EmptyString)) eqn:Hempty; simpl.
  - apply bool_decide_eq_true in Hempty. subst text. simpl in *.
    assert (Hzero : RangeParser.textOffset b = 0%nat) by lia.
    rewrite Hzero. simpl.
    destruct (existsb _ brackets).
    + now rewrite IH.
    + destruct IH as [items ->]. rewrite !bind_Ok. eauto.
  - destruct (negb (RangeParser.textOffset b =? 0)%nat
              && negb (RangeParser.textOffset b =? String.length text)%nat);
      simpl; [reflexivity|].
    destruct (existsb _ brackets).
    + now rewrite IH.
    + destruct IH as [items ->]. rewrite !bind_Ok. eauto.
Qed.

Lemma scan_spaces (data : string) (index offset : nat) :
  noneOf isRangeToken data = true ->
  Forall (fun b => RangeParser.bracketChar b = " "%char)
    (RangeParser.scan data index offset).
Proof.
  revert index offset. induction data as [|c data IH]; intros index offset;
    simpl; [constructor|].
  intros H. apply andb_prop in H as [Hc Hrest]. apply negb_true_iff in Hc.
  destruct (RangeParser.matches c) eqn:Hm; [|auto].
  constructor; [|auto]. simpl. now apply matched_not_token.
Qed.

Lemma getPositionsText_spaces (self : NodeRef)
    (home : option (NodeRef * nat)) (data : string) :
  noneOf isRangeToken data = true ->
  if delimiterInside data
  then RangeParser.getPositionsOfText self home data
       = Throw (MarkerPlacementError " " false)
  else exists r, RangeParser.getPositionsOfText self home data = Ok r.
Proof.
  intros Hdata. unfold RangeParser.getPositionsOfText, delimiterInside.
  pose proof (itemPositions_spaces self home (RangeParser.strip data)
                (RangeParser.scan data 0 0)) as Hitems.
  destruct (existsb _ _).
  - rewrite Hitems; [reflexivity|].
    pose proof (scan_spaces data 0 0 Hdata) as Hs.
    pose proof (scan_offset_bound data 0 0 (Nat.le_refl 0)) as Hb.
    rewrite Forall_forall in Hs, Hb |- *. intros b Hin.
    specialize (Hs b Hin). specialize (Hb b Hin). simpl in Hb.
    split; [exact Hs|lia].
  - destruct Hitems as [items ->]; [|rewrite bind_Ok; eauto].
    pose proof (scan_spaces data 0 0 Hdata) as Hs.
    pose proof (scan_offset_bound data 0 0 (Nat.le_refl 0)) as Hb.
    rewrite Forall_forall in Hs, Hb |- *. intros b Hin.
    specialize (Hs b Hin). specialize (Hb b Hin). simpl in Hb.
    split; [exact Hs|lia].
Qed.

Lemma visitChildren_spaces (self : NodeRef) (children : list Node) :
  Forall (fun child =>
            Forall (fun d => noneOf isRangeToken d = true)
              (textNodes child) ->
            forall self home,
              if existsb delimiterInside (textNodes child)
              then RangeParser._getPositions self home child
                   = Throw (MarkerPlacementError " " false)
              else exists r, RangeParser._getPositions self home child = Ok r)
    children ->
  Forall (fun d => noneOf isRangeToken d = true)
    (flat_map textNodes children) ->
  forall kept found,
    if existsb delimiterInside (flat_map textNodes children)
    then visitChildren self children kept found
         = Throw (MarkerPlacementError " " false)
    else exists r, visitChildren self children kept found = Ok r.
Proof.
  induction 1 as [|child rest Hchild _ IH]; intros Htexts kept found.
  - simpl. eauto.
  - simpl in Htexts. apply Forall_app in Htexts as [Hhere Hrest].
    cbn [flat_map]. rewrite existsb_app, visitChildren_cons.
    specialize (Hchild Hhere (self ++ [length kept])
                  (Some (self, length kept))).
    destruct (existsb delimiterInside (textNodes child)); simpl.
    + now rewrite Hchild.
    + destruct Hchild as [r ->]. rewrite bind_Ok.
      apply (IH Hrest).
Qed.

(** The scan of a tree whose texts hold spaces but no range token: it
    fails on a space strictly inside a stripped text, and goes through
    otherwise. *)
Lemma getPositions_spaces (node : Node) :
  Forall (fun d => noneOf isRangeToken d = true) (textNodes node) ->
  forall self home,
    if existsb delimiterInside (textNodes node)
    then RangeParser._getPositions self home node
         = Throw (MarkerPlacementError " " false)
    else exists r, RangeParser._getPositions self home node = Ok r.
Proof.
  induction node as [children IH|cls name attrs children IH|data]
    using Node_induction; intros Htexts self home;
    rewrite getPositions_unfold; simpl in *.
  - pose proof (visitChildren_spaces self children IH Htexts [] []) as Hv.
    destruct (existsb _ _).
    + now rewrite Hv.
    + destruct Hv as [r ->]. rewrite bind_Ok. eauto.
  - pose proof (visitChildren_spaces self children IH Htexts [] []) as Hv.
    destruct (existsb _ _).
    + now rewrite Hv.
    + destruct Hv as [r ->]. rewrite bind_Ok. eauto.
  - apply Forall_cons_iff in Htexts as [Hdata _]. rewrite orb_false_r.
    now apply getPositionsText_spaces.
Qed.

Section Spaces.

Variable toDom : string -> DomNode.
Variable D : Js.Number.
Variable p : string.
Hypothesis p_tag : Js.toLowerCase p = "p".

(** C10.  What the code does with a space.  In the template literal of
    the regular expression a space stands on either side of the four
    tokens, between the brackets of the character class, so the class
    holds the space: the scan takes every space out of every text node and
    records it as a delimiter.  The code that follows knows the four
    tokens only and handles the space like an element-range token; a text
    without matched characters is left as it is.  When the texts of the
    view hold a space and no range token, [parse] returns no tree: a space
    strictly inside a stripped text is refused with the marker-placement
    error, and when there is none, the range builder uses the range that
    is [null] on the first space.  So the parse of "<p>foo bar</p>" fails
    with the marker-placement error on the space, where a text "foobar"
    was meant. *)
Theorem C10_space_is_a_delimiter (data : string) (options : ParseOptions)
    (view : Node) :
  ViewParser.parse D toDom data = Ok view ->
  Exists (fun d => someOf isSpace d = true) (textNodes view) ->
  Forall (fun d => noneOf isRangeToken d = true) (textNodes view) ->
  toDom "<p>foo bar</p>"
  = DomDocumentFragment [DomElement p [] [DomText "foo bar"]] ->
  RangeParser.matches " " = true
  /\ (forall text,
         noneOf isSpace (RangeParser.strip text) = true
         /\ (noneOf RangeParser.matches text = true ->
             RangeParser.strip text = text
             /\ RangeParser.scan text 0 0 = []))
  /\ parse toDom D data options
     = Throw (if existsb delimiterInside (textNodes view)
              then MarkerPlacementError " " false
              else HostError)
  /\ parse toDom D "<p>foo bar</p>" options
     = Throw (MarkerPlacementError " " false).
Proof.
  intros Hview Hspace Htokens Hdom.
  split; [reflexivity|]. split; [|split].
  - intros text. split.
    + apply (noneOf_weaken RangeParser.matches); [apply space_matches|].
      apply strip_noneOf.
    + intros Hplain. destruct (scan_plain text 0 0 Hplain). auto.
  - assert (Hall : Forall (fun c => c = " "%char)
                     (flat_map matched (textNodes view))).
    { apply Forall_forall. intros c Hc.
      apply list_elem_of_In, in_flat_map in Hc as (d & Hd & Hc).
      rewrite Forall_forall in Htokens.
      apply list_elem_of_In, Htokens, matched_spaces in Hd.
      rewrite Forall_forall in Hd. now apply Hd, list_elem_of_In. }
    pose proof (getPositions_spaces view Htokens [] None) as Hscan.
    destruct (existsb delimiterInside (textNodes view)).
    + now apply (parse_getPositions_throw toDom D data options view).
    + destruct Hscan as [scanned Hscan].
      pose proof (getPositions_Ok view [] None scanned Hscan)
        as (_ & Hbrackets & _).
      apply Exists_exists in Hspace as (d & Hd & Hsp).
      apply matched_some_space in Hsp.
      destruct (snd scanned) as [|item items] eqn:Hitems.
      { simpl in Hbrackets. exfalso.
        destruct (matched d) as [|c cs] eqn:Hm; [congruence|].
        assert (Hin : In c (flat_map matched (textNodes view))).
        { apply in_flat_map. exists d. split.
          - now apply list_elem_of_In.
          - rewrite Hm. now left. }
        rewrite <- Hbrackets in Hin. exact Hin. }
      eapply parse_createRanges_throw; eauto.
      rewrite Hitems. unfold RangeParser._createRanges. simpl.
      assert (Hb : RangeParser.bracket item = " "%char).
      { rewrite Forall_forall in Hall. apply Hall.
        rewrite <- Hbrackets. simpl. now left. }
      unfold RangeParser.createStep. simpl. now rewrite Hb.
  - now rewrite (parse_p_text toDom D p p_tag _ _ _ Hdom).
Qed.

End Spaces.

Lemma C10_space_is_a_delimiter_witness :
  parse Html.toDom 10 "<p>foo bar</p>" noOptions
  = Throw (MarkerPlacementError " " false)
  /\ parse Html.toDom 10 "<p><b>x</b> </p>" noOptions = Throw HostError.
Proof.
  destruct (C10_space_is_a_delimiter Html.toDom 10 "P" eq_refl
              "<p><b>x</b> </p>" noOptions
              (Element ViewElement "p" []
                 [Element ViewElement "b" [] [Text "x"]; Text " "]))
    as (_ & _ & Hany & Hfoo).
  - reflexivity.
  - apply Exists_cons_tl, Exists_cons_hd. reflexivity.
  - repeat constructor.
  - reflexivity.
  - split; assumption.
Defined.

(** The parse of "<p>foo bar</p>" does not give a text node "foobar"; it
    gives no tree at all. *)
Lemma C10_inner_space_rejected :
  ~ (exists parsed,
        parse Html.toDom 10 "<p>foo bar</p>" noOptions = Ok parsed
        /\ textNodes (parsedView parsed) = ["foobar"]).
Proof. intros (parsed & H & _). discriminate H. Qed.

(** ** Collapsed ranges *)

Lemma isCollapsed_same (at_ : Position) : isCollapsed (mkRange at_ at_) = true.
Proof. unfold isCollapsed. simpl. now apply bool_decide_eq_true_2. Qed.

Lemma tokens_of_collapsed (startToken endToken : ascii) (at_ here : Position) :
  boundaryTokens startToken endToken [mkRange at_ at_] here
  = if bool_decide (at_ = here)
    then String startToken (String endToken EmptyString)
    else EmptyString.
Proof.
  unfold boundaryTokens, endsAt, collapsedAt, startsAt. simpl.
  rewrite isCollapsed_same. simpl. rewrite !andb_false_r, andb_true_r.
  destruct (bool_decide (at_ = here)); reflexivity.
Qed.

Lemma textWithTokens_past (node : NodeRef) (at_ : Position) (data : string)
    (i : nat) :
  (forall j, (i <= j)%nat -> at_ <> mkPosition node (Z.of_nat j)) ->
  textWithTokens [mkRange at_ at_] node i data = data.
Proof.
  revert i. induction data as [|c data IH]; intros i Hpast;
    cbn [textWithTokens]; rewrite tokens_of_collapsed;
    (rewrite bool_decide_eq_false_2; [|now apply Hpast]).
  - reflexivity.
  - simpl. rewrite IH; [reflexivity|]. intros j Hj. apply Hpast. lia.
Qed.

Lemma textWithTokens_collapsed (node : NodeRef) (pre post : string)
    (i : nat) :
  textWithTokens
    [mkRange (mkPosition node (Z.of_nat (i + String.length pre)))
       (mkPosition node (Z.of_nat (i + String.length pre)))]
    node i (pre +:+ post)
  = pre +:+ "{}" +:+ post.
Proof.
  revert i. induction pre as [|c pre IH]; intros i.
  - simpl String.length. replace (i + 0)%nat with i by lia.
    change (EmptyString +:+ post) with post.
    change (EmptyString +:+ "{}" +:+ post) with ("{}" +:+ post).
    destruct post as [|c post]; cbn [textWithTokens];
      rewrite tokens_of_collapsed, bool_decide_eq_true_2 by reflexivity.
    + reflexivity.
    + rewrite textWithTokens_past; [reflexivity|].
      intros j Hj [= E]. lia.
  - change (String c pre +:+ post) with (String c (pre +:+ post)).
    cbn [textWithTokens].
    rewrite tokens_of_collapsed, bool_decide_eq_false_2;
      [|intros [= E]; simpl in E; lia].
    simpl String.length.
    replace (i + S (String.length pre))%nat
      with (S i + String.length pre)%nat by lia.
    rewrite IH. reflexivity.
Qed.

Lemma createRanges_Ok_loop (positions : list RangeParser.Item)
    (rs : list Range) :
  RangeParser._createRanges positions = Ok rs ->
  RangeParser.createLoop positions (RangeParser.mkBuilder [] None)
  = Ok (RangeParser.mkBuilder rs None).
Proof.
  unfold RangeParser._createRanges.
  destruct (RangeParser.createLoop positions _) as [[rs' [r|]]|e];
    simpl; try discriminate.
  now intros [= ->].
Qed.

Lemma scan_after_plain (pre rest : string) (index offset : nat) :
  noneOf RangeParser.matches pre = true ->
  RangeParser.scan (pre +:+ rest) index offset
  = RangeParser.scan rest (index + String.length pre) offset
  /\ RangeParser.strip (pre +:+ rest) = pre +:+ RangeParser.strip rest.
Proof.
  revert index. induction pre as [|c pre IH]; intros index; simpl.
  - intros _. now replace (index + 0)%nat with index by lia.
  - intros H. apply andb_prop in H as [Hc Hs]. apply negb_true_iff in Hc.
    rewrite Hc. destruct (IH (S index) Hs) as [-> ->].
    now replace (S index + String.length pre)%nat
      with (index + S (String.length pre))%nat by lia.
Qed.

Lemma length_append (a b : string) :
  String.length (a +:+ b) = (String.length a + String.length b)%nat.
Proof. induction a; simpl; congruence. Qed.

Lemma append_empty (a b : string) :
  a +:+ b = EmptyString -> a = EmptyString /\ b = EmptyString.
Proof. destruct a; simpl; [auto|discriminate]. Qed.

(** The scan of a text with one adjacent pair of tokens. *)
Lemma scan_pair (pre post : string) (s e : ascii) :
  noneOf RangeParser.matches pre = true ->
  noneOf RangeParser.matches post = true ->
  RangeParser.matches s = true -> RangeParser.matches e = true ->
  RangeParser.scan (pre +:+ String s (String e post)) 0 0
  = [RangeParser.mkBracket s (String.length pre);
     RangeParser.mkBracket e (String.length pre)]
  /\ RangeParser.strip (pre +:+ String s (String e post)) = pre +:+ post.
Proof.
  intros Hpre Hpost Hs He.
  destruct (scan_after_plain pre (String s (String e post)) 0 0 Hpre)
    as [-> ->].
  simpl. rewrite Hs, He.
  destruct (scan_plain post (S (S (String.length pre))) 2 Hpost) as [-> ->].
  split; [|reflexivity]. repeat f_equal; lia.
Qed.


(** ** The round trip without ranges *)

Lemma setAttribute_fresh (key value : string) (attrs : list (string * string)) :
  key ∉ map fst attrs -> setAttribute key value attrs = attrs ++ [(key, value)].
Proof.
  induction attrs as [|[k v] attrs IH]; simpl; [reflexivity|].
  intros Hfresh. apply not_elem_of_cons in Hfresh as [Hne Hfresh].
  rewrite bool_decide_eq_false_2 by congruence. now rewrite IH.
Qed.

(** Copying attributes one by one gives the same attributes when every key
    occurs once. *)
Lemma copy_attributes (attrs acc : list (string * string)) :
  NoDup (map fst (acc ++ attrs)) ->
  fold_left (fun acc kv => setAttribute (fst kv) (snd kv) acc) attrs acc
  = acc ++ attrs.
Proof.
  revert acc. induction attrs as [|[k v] attrs IH]; intros acc Hnd; simpl.
  - now rewrite app_nil_r.
  - rewrite setAttribute_fresh.
    + rewrite IH; rewrite <- app_assoc; [reflexivity|exact Hnd].
    + rewrite map_app in Hnd. apply NoDup_app in Hnd as (_ & Hdisj & _).
      intros Hin. apply (Hdisj k Hin). simpl. left.
Qed.

Lemma plainName_parts (name : string) :
  plainName name = true ->
  name <> EmptyString /\ noColon name = true /\ noneOf isUpper name = true.
Proof.
  unfold plainName. intros H.
  apply andb_prop in H as [H Hupper]. apply andb_prop in H as [Hne Hcolon].
  apply negb_true_iff, bool_decide_eq_false in Hne. auto.
Qed.

(** The tag name that [stringify] writes with both options. *)
Lemma elementName_showAll (cls : ElementClass) (name : string) :
  name <> EmptyString ->
  plainClass cls = true ->
  ViewStringify.elementName showAll cls name
  = match cls with
    | ViewElement => name
    | ContainerElement => "container" +:+ String ":" name
    | AttributeElement priority =>
        "attribute" +:+ String ":" (name +:+ String ":"
                                      (Js.numberToString priority))
    end.
Proof.
  intros Hname Hcls. unfold ViewStringify.elementName.
  assert (Hn : ViewStringify.nonEmpty name = true).
  { unfold ViewStringify.nonEmpty. now rewrite bool_decide_eq_false_2. }
  assert (He : ~ ViewStringify.nonEmpty EmptyString = true) by discriminate.
  destruct cls as [| |priority];
    cbn [ViewStringify._stringifyElementType
           ViewStringify._stringifyElementPriority showAll
           ViewStringify.showType ViewStringify.showPriority].
  - rewrite filter_cons_False by exact He.
    rewrite filter_cons_True by exact Hn.
    rewrite filter_cons_False by exact He.
    reflexivity.
  - rewrite filter_cons_True by reflexivity.
    rewrite filter_cons_True by exact Hn.
    rewrite filter_cons_False by exact He.
    rewrite filter_nil. simpl. destruct name; [congruence|reflexivity].
  - assert (Hp : ViewStringify.nonEmpty (Js.numberToString priority) = true).
    { unfold ViewStringify.nonEmpty. rewrite bool_decide_eq_false_2;
        [reflexivity|now apply numberToString_nonempty]. }
    rewrite filter_cons_True by reflexivity.
    rewrite filter_cons_True by exact Hn.
    rewrite filter_cons_True by exact Hp.
    rewrite filter_nil. simpl. destruct name; [congruence|reflexivity].
Qed.

Section RoundTrip.

Variable toDom : string -> DomNode.
Variable D : Js.Number.
Variable tagCase : string -> string.
Hypothesis tagCase_lower :
  forall s, Js.toLowerCase (tagCase s) = Js.toLowerCase s.

(** The tag grammar reads back what [stringify] writes for an element
    with a plain name. *)
Lemma convertElement_elementName (cls : ElementClass) (name : string)
    (attrs : list (string * string)) :
  plainName name = true ->
  plainClass cls = true ->
  NoDup (map fst attrs) ->
  ViewParser._convertElement D
    (tagCase (ViewStringify.elementName showAll cls name)) attrs
  = Ok (Element cls name attrs []).
Proof.
  intros Hname Hcls Hattrs.
  destruct (plainName_parts name Hname) as (Hne & Hcolon & Hupper).
  unfold ViewParser._convertElement, ViewParser._convertElementName.
  rewrite tagCase_lower, (elementName_showAll cls name Hne Hcls).
  rewrite (copy_attributes attrs []) by exact Hattrs. simpl app.
  destruct cls as [| |priority].
  - rewrite (toLowerCase_fixed name Hupper), (split_noColon name Hcolon).
    reflexivity.
  - rewrite toLowerCase_fixed
      by (rewrite noneOf_app; simpl; now rewrite Hupper).
    rewrite (split_segment "container" name eq_refl).
    rewrite (split_noColon name Hcolon). reflexivity.
  - simpl in Hcls.
    assert (Hdigits : noneOf isUpper (Js.numberToString priority) = true)
      by (apply numberToString_noneOf;
          [exact Hcls|apply isDigit_not_upper|reflexivity]).
    assert (Hdigits' : noColon (Js.numberToString priority) = true)
      by (apply numberToString_noneOf;
          [exact Hcls|apply isDigit_not_colon|reflexivity]).
    rewrite toLowerCase_fixed
      by (rewrite noneOf_app; simpl; rewrite noneOf_app; simpl;
          now rewrite Hupper, Hdigits).
    rewrite (split_segment "attribute" _ eq_refl).
    rewrite (split_segment name _ Hcolon).
    rewrite (split_noColon _ Hdigits').
    cbn [ViewParser._convertType bool_decide orb].
    unfold ViewParser._convertPriority.
    rewrite <- (append_nil_r (Js.numberToString priority)).
    rewrite parseInt10_numberToString by (exact Hcls || reflexivity).
    reflexivity.
Qed.

Lemma mapResult_Ok {A B : Type} (f : A -> Result B) (g : B -> A)
    (l : list B) :
  Forall (fun b => f (g b) = Ok b) l -> mapResult f (map g l) = Ok l.
Proof.
  induction 1 as [|b l Hb _ IH]; simpl; [reflexivity|].
  now rewrite Hb, bind_Ok, IH.
Qed.

Lemma forallb_Forall {A : Type} (p : A -> bool) (l : list A) :
  forallb p l = true -> Forall (fun x => p x = true) l.
Proof.
  induction l as [|x l IH]; simpl; [constructor|].
  intros H. apply andb_prop in H as [Hx Hl]. constructor; auto.
Qed.

(** The conditions on an element whose markup is read back. *)
Lemma markupNode_element (cls : ElementClass) (name : string)
    (attrs : list (string * string)) (children : list Node) :
  markupNode (Element cls name attrs children) = true ->
  plainName name = true /\ noneOf isBreak name = true
  /\ plainClass cls = true /\ NoDup (map fst attrs)
  /\ Forall (fun kv => markupAttribute kv = true) attrs
  /\ noTextPair children = true
  /\ Forall (fun c => markupNode c = true) children.
Proof.
  simpl. intros H.
  repeat match type of H with
         | _ && _ = true => let H' := fresh "H" in
                            apply andb_prop in H as [H H']
         end.
  apply bool_decide_eq_true in H3.
  auto 10 using forallb_Forall.
Qed.

(** The tree builder gives a node back from its generic image. *)
Lemma walkDom_domOf (node : Node) :
  markupNode node = true ->
  ViewParser._walkDom D (domOf tagCase node) = Ok node.
Proof.
  induction node as [children IH|cls name attrs children IH|data]
    using Node_induction; intros Hnode.
  - discriminate Hnode.
  - apply markupNode_element in Hnode
      as (Hname & _ & Hcls & Hattrs & _ & _ & Hchildren).
    cbn [domOf]. rewrite walkDom_element.
    rewrite (convertElement_elementName cls name attrs Hname Hcls Hattrs).
    rewrite bind_Ok, mapResult_Ok.
    + rewrite bind_Ok. now rewrite appendAll_element.
    + rewrite Forall_forall in IH, Hchildren |- *.
      intros c Hc. apply IH; auto.
  - reflexivity.
Qed.

Lemma walkDom_domRoot (tree : Node) :
  markupTree tree = true ->
  ViewParser._walkDom D (domRoot tagCase tree) = Ok tree.
Proof.
  destruct tree as [children|cls name attrs children|data]; intros Htree.
  - simpl in Htree. apply andb_prop in Htree as [Htree Hchildren].
    apply andb_prop in Htree as [Hlen _].
    apply negb_true_iff, Nat.eqb_neq in Hlen.
    unfold domRoot. rewrite walkDom_fragment by now rewrite length_map.
    rewrite mapResult_Ok; [reflexivity|].
    apply forallb_Forall in Hchildren.
    eapply Forall_impl; [exact Hchildren|]. apply walkDom_domOf.
  - unfold domRoot. rewrite walkDom_unfold. now apply walkDom_domOf.
  - reflexivity.
Qed.

End RoundTrip.

(** *** Scanning a tree without markers *)

Lemma visitChildren_plain (self : NodeRef) (children : list Node) :
  Forall (fun c => forall self home,
              RangeParser._getPositions self home c = Ok (Some c, []))
    children ->
  forall kept found,
    visitChildren self children kept found = Ok (kept ++ children, found).
Proof.
  induction 1 as [|c children Hc _ IH]; intros kept found.
  - simpl. now rewrite app_nil_r.
  - rewrite visitChildren_cons, Hc, bind_Ok. cbn [fst snd RangeParser.keep].
    rewrite IH, app_nil_r, <- app_assoc. reflexivity.
Qed.

Lemma Forall_flat_map_parts {A B : Type} (P : B -> Prop) (f : A -> list B)
    (l : list A) :
  Forall P (flat_map f l) -> Forall (fun x => Forall P (f x)) l.
Proof.
  induction l as [|x l IH]; simpl; [constructor|].
  intros H. apply Forall_app in H as [Hx Hl]. constructor; auto.
Qed.

(** The scan leaves a tree alone whose texts are not empty and hold no
    character that it matches. *)
Lemma getPositions_clean (node : Node) :
  Forall (fun d => plainText d = true) (textNodes node) ->
  forall self home,
    RangeParser._getPositions self home node = Ok (Some node, []).
Proof.
  induction node as [children IH|cls name attrs children IH|data]
    using Node_induction; intros Hplain self home; simpl in Hplain.
  - apply Forall_flat_map_parts in Hplain.
    rewrite getPositions_unfold, visitChildren_plain; [reflexivity|].
    rewrite Forall_forall in IH, Hplain |- *.
    intros c Hc. apply IH; auto.
  - apply Forall_flat_map_parts in Hplain.
    rewrite getPositions_unfold, visitChildren_plain; [reflexivity|].
    rewrite Forall_forall in IH, Hplain |- *.
    intros c Hc. apply IH; auto.
  - apply Forall_cons_iff in Hplain as [Hplain _].
    unfold plainText in Hplain.
    apply andb_prop in Hplain as [Hne Hnone].
    rewrite getPositions_unfold. unfold RangeParser.getPositionsOfText.
    destruct (scan_plain data 0 0 Hnone) as [-> ->]. simpl.
    unfold RangeParser.afterRemove.
    apply negb_true_iff in Hne. now rewrite Hne.
Qed.

(** *** What [stringify] writes when there is no range *)

Lemma textWithTokens_nil (node : NodeRef) (data : string) :
  forall i, textWithTokens [] node i data = data.
Proof.
  induction data as [|c data IH]; intros i; cbn [textWithTokens];
    unfold boundaryTokens; simpl; [reflexivity|]. now rewrite IH.
Qed.

Lemma markup_unfold (options : ViewStringify.Options) (node : Node) :
  markup options node
  = match node with
    | DocumentFragment children => markupAll options children
    | Element cls name attrs children =>
        ViewStringify._stringifyElementOpen options cls name attrs
          +:+ markupAll options children
          +:+ ViewStringify._stringifyElementClose options cls name
    | Text data => data
    end.
Proof. destruct node; reflexivity. Qed.

Lemma walkViewChildren_markup (options : ViewStringify.Options)
    (self : NodeRef) (children : list Node) :
  Forall (fun child =>
            forall self,
              ViewStringify._walkView [] options self child
              = markup options child) children ->
  forall offset,
    walkViewChildren [] options self children offset
    = markupAll options children.
Proof.
  induction 1 as [|child rest Hchild _ IH]; intros offset;
    cbn [walkViewChildren markupAll]; [reflexivity|].
  now rewrite Hchild, IH.
Qed.

(** Without ranges [stringify] writes the markup of the tree. *)
Lemma walkView_markup (options : ViewStringify.Options) (node : Node) :
  forall self,
    ViewStringify._walkView [] options self node = markup options node.
Proof.
  induction node as [children IH|cls name attrs children IH|data]
    using Node_induction; intros self;
    rewrite walkView_unfold, markup_unfold.
  - now rewrite (walkViewChildren_markup options self children IH).
  - now rewrite (walkViewChildren_markup options self children IH).
  - rewrite stringifyTextRanges_tokens. apply textWithTokens_nil.
Qed.

Lemma stringify_markup (options : ViewStringify.Options) (tree : Node) :
  stringify tree None options = markup options tree.
Proof. apply walkView_markup. Qed.

(** *** The reference tokenizer on the markup of a tree *)

Lemma isBreak_false (c : ascii) :
  isBreak c = false ->
  c <> "<"%char /\ c <> ">"%char /\ c <> " "%char /\ c <> "/"%char
  /\ c <> "="%char /\ c <> Html.dquote.
Proof.
  unfold isBreak. intros H.
  repeat (apply orb_false_elim in H as [H ?]).
  repeat match goal with
         | H : bool_decide _ = false |- _ => apply bool_decide_eq_false in H
         end.
  auto 10.
Qed.

Lemma lex_text (d rest acc : string) (out : list Html.Token) :
  noneOf isLess d = true ->
  Html.lex (d +:+ rest) (Html.InText acc) out
  = Html.lex rest (Html.InText (acc +:+ d)) out.
Proof.
  revert acc. induction d as [|c d IH]; intros acc H.
  - now rewrite append_nil_r.
  - simpl in H. apply andb_prop in H as [Hc Hd].
    apply negb_true_iff in Hc. unfold isLess in Hc.
    change (String c d +:+ rest) with (String c (d +:+ rest)).
    cbn [Html.lex Html.lexStep]. rewrite Hc. cbn [fst snd].
    rewrite (IH _ Hd). unfold Html.snoc. now rewrite append_assoc.
Qed.

Lemma closed_tag (rest : string) : closed (String "<" rest).
Proof. right. eauto. Qed.

(** A text is a token of its own when the input ends behind it or a tag
    starts there. *)
Lemma lex_closed_text (d rest : string) (out : list Html.Token) :
  d <> EmptyString ->
  noneOf isLess d = true ->
  closed rest ->
  Html.lex (d +:+ rest) (Html.InText EmptyString) out
  = Html.lex rest (Html.InText EmptyString) (out ++ [Html.Chars d]).
Proof.
  intros Hne Hd Hclosed. rewrite (lex_text d rest _ out Hd).
  change (EmptyString +:+ d) with d.
  destruct Hclosed as [->|[r ->]].
  - simpl. unfold Html.flushText.
    rewrite (bool_decide_eq_false_2 (d = EmptyString)) by exact Hne.
    reflexivity.
  - cbn [Html.lex Html.lexStep bool_decide]. simpl.
    unfold Html.flushText.
    rewrite (bool_decide_eq_false_2 (d = EmptyString)) by exact Hne.
    reflexivity.
Qed.

Lemma lex_name (name rest : string) (closing : bool) (acc : string)
    (out : list Html.Token) :
  noneOf isBreak name = true ->
  Html.lex (name +:+ rest) (Html.InTagName closing acc) out
  = Html.lex rest (Html.InTagName closing (acc +:+ name)) out.
Proof.
  revert acc. induction name as [|c name IH]; intros acc H.
  - now rewrite append_nil_r.
  - simpl in H. apply andb_prop in H as [Hc Hname].
    apply negb_true_iff, isBreak_false in Hc
      as (_ & Hgt & Hsp & Hsl & _ & _).
    change (String c name +:+ rest) with (String c (name +:+ rest)).
    cbn [Html.lex Html.lexStep].
    rewrite (bool_decide_eq_false_2 (c = ">"%char)) by exact Hgt.
    rewrite (bool_decide_eq_false_2 (c = "/"%char)) by exact Hsl.
    rewrite (bool_decide_eq_false_2 (c = " "%char)) by exact Hsp.
    cbn [andb fst snd]. rewrite (IH _ Hname).
    unfold Html.snoc. now rewrite append_assoc.
Qed.

Lemma lex_key (key rest ename : string) (done : list (string * string))
    (acc : string) (out : list Html.Token) :
  noneOf isBreak key = true ->
  Html.lex (key +:+ rest) (Html.InAttributeName ename done acc) out
  = Html.lex rest (Html.InAttributeName ename done (acc +:+ key)) out.
Proof.
  revert acc. induction key as [|c key IH]; intros acc H.
  - now rewrite append_nil_r.
  - simpl in H. apply andb_prop in H as [Hc Hkey].
    apply negb_true_iff, isBreak_false in Hc
      as (_ & Hgt & Hsp & _ & Heq & _).
    change (String c key +:+ rest) with (String c (key +:+ rest)).
    cbn [Html.lex Html.lexStep].
    rewrite (bool_decide_eq_false_2 (c = ">"%char)) by exact Hgt.
    rewrite (bool_decide_eq_false_2 (c = "="%char)) by exact Heq.
    rewrite (bool_decide_eq_false_2 (c = " "%char)) by exact Hsp.
    cbn [fst snd]. rewrite (IH _ Hkey).
    unfold Html.snoc. now rewrite append_assoc.
Qed.

Lemma lex_value (value rest ename : string) (done : list (string * string))
    (key acc : string) (out : list Html.Token) :
  noneOf isQuote value = true ->
  Html.lex (value +:+ rest)
    (Html.InAttributeValue true ename done key acc) out
  = Html.lex rest
      (Html.InAttributeValue true ename done key (acc +:+ value)) out.
Proof.
  revert acc. induction value as [|c value IH]; intros acc H.
  - now rewrite append_nil_r.
  - simpl in H. apply andb_prop in H as [Hc Hvalue].
    apply negb_true_iff in Hc. unfold isQuote in Hc.
    change (String c value +:+ rest) with (String c (value +:+ rest)).
    cbn [Html.lex Html.lexStep]. rewrite Hc. cbn [fst snd].
    rewrite (IH _ Hvalue). unfold Html.snoc. now rewrite append_assoc.
Qed.

(** One attribute as [_stringifyElementAttributes] writes it. *)
Lemma lex_attribute (kv : string * string) (rest ename : string)
    (done : list (string * string)) (out : list Html.Token) :
  markupAttribute kv = true ->
  Html.lex
    ((fst kv +:+ "=" +:+ ViewStringify.quote +:+ snd kv
        +:+ ViewStringify.quote) +:+ rest)
    (Html.BeforeAttribute ename done) out
  = Html.lex rest (Html.BeforeAttribute ename (done ++ [kv])) out.
Proof.
  destruct kv as [key value]. unfold markupAttribute. simpl fst. simpl snd.
  intros H. apply andb_prop in H as [H Hvalue].
  apply andb_prop in H as [Hne Hkey].
  apply negb_true_iff, bool_decide_eq_false in Hne.
  destruct key as [|c key]; [congruence|].
  simpl in Hkey. apply andb_prop in Hkey as [Hc Hkey].
  apply negb_true_iff, isBreak_false in Hc
    as (_ & Hgt & Hsp & _ & _ & _).
  rewrite !append_assoc.
  change (String c key +:+ ?x) with (String c (key +:+ x)).
  cbn [Html.lex Html.lexStep].
  rewrite (bool_decide_eq_false_2 (c = ">"%char)) by exact Hgt.
  rewrite (bool_decide_eq_false_2 (c = " "%char)) by exact Hsp.
  cbn [fst snd]. rewrite (lex_key key _ _ _ _ _ Hkey).
  change ("=" +:+ ?x) with (String "=" x).
  cbn [Html.lex Html.lexStep bool_decide]. simpl fst. simpl snd.
  unfold ViewStringify.quote at 1.
  change (String (ascii_of_nat 34) EmptyString +:+ ?x)
    with (String Html.dquote x).
  cbn [Html.lex Html.lexStep].
  rewrite (bool_decide_eq_false_2 (Html.dquote = ">"%char)) by discriminate.
  rewrite (bool_decide_eq_true_2 (Html.dquote = Html.dquote)) by reflexivity.
  cbn [fst snd]. rewrite (lex_value value _ _ _ _ _ _ Hvalue).
  unfold ViewStringify.quote.
  change (String (ascii_of_nat 34) EmptyString +:+ rest)
    with (String Html.dquote rest).
  cbn [Html.lex Html.lexStep].
  rewrite (bool_decide_eq_true_2 (Html.dquote = Html.dquote)) by reflexivity.
  reflexivity.
Qed.

Lemma attributes_cons (kv : string * string)
    (attrs : list (string * string)) :
  ViewStringify._stringifyElementAttributes (kv :: attrs)
  = (fst kv +:+ "=" +:+ ViewStringify.quote +:+ snd kv
       +:+ ViewStringify.quote)
    +:+ match attrs with
        | [] => EmptyString
        | _ => " " +:+ ViewStringify._stringifyElementAttributes attrs
        end.
Proof.
  unfold ViewStringify._stringifyElementAttributes.
  destruct attrs as [|kv' attrs]; cbn [map Js.join].
  - now rewrite append_nil_r.
  - reflexivity.
Qed.

(** The attributes of a tag up to its end. *)
Lemma lex_attributes (attrs : list (string * string)) (rest ename : string) :
  Forall (fun kv => markupAttribute kv = true) attrs ->
  attrs <> [] ->
  forall (done : list (string * string)) (out : list Html.Token),
    Html.lex
      (ViewStringify._stringifyElementAttributes attrs
         +:+ String ">" rest)
      (Html.BeforeAttribute ename done) out
    = Html.lex rest (Html.InText EmptyString)
        (out ++ [Html.TagOpen ename (done ++ attrs)]).
Proof.
  induction 1 as [|kv attrs Hkv _ IH]; intros Hne done out; [congruence|].
  rewrite attributes_cons, append_assoc, (lex_attribute kv _ _ _ _ Hkv).
  destruct attrs as [|kv' attrs].
  - change (EmptyString +:+ String ">" rest) with (String ">" rest).
    cbn [Html.lex Html.lexStep bool_decide]. reflexivity.
  - rewrite append_assoc.
    change (" " +:+ ?x) with (String " " x).
    cbn [Html.lex Html.lexStep bool_decide]. simpl fst. simpl snd.
    rewrite IH by discriminate. now rewrite <- app_assoc.
Qed.

Lemma attributes_empty (attrs : list (string * string)) :
  Forall (fun kv => markupAttribute kv = true) attrs ->
  attrs <> [] ->
  ViewStringify._stringifyElementAttributes attrs <> EmptyString.
Proof.
  intros Hall Hne. destruct attrs as [|kv attrs]; [congruence|].
  apply Forall_cons_iff in Hall as [Hkv _].
  rewrite attributes_cons. intros E. apply append_empty in E as [E _].
  apply append_empty in E as [E _].
  unfold markupAttribute in Hkv.
  apply andb_prop in Hkv as [Hkv _]. apply andb_prop in Hkv as [Hkv _].
  apply negb_true_iff, bool_decide_eq_false in Hkv. contradiction.
Qed.

Lemma isDigit_not_break (c : ascii) :
  Js.isDigit c = true -> isBreak c = false.
Proof.
  destruct c as [[] [] [] [] [] [] [] []]; vm_compute; congruence.
Qed.

(** The tag name of an element is not empty and can stand in a tag. *)
Lemma elementName_break (cls : ElementClass) (name : string) :
  plainName name = true ->
  noneOf isBreak name = true ->
  plainClass cls = true ->
  ViewStringify.elementName showAll cls name <> EmptyString
  /\ noneOf isBreak (ViewStringify.elementName showAll cls name) = true.
Proof.
  intros Hname Hbreak Hcls.
  destruct (plainName_parts name Hname) as (Hne & _ & _).
  rewrite (elementName_showAll cls name Hne Hcls).
  destruct cls as [| |priority].
  - auto.
  - split; [discriminate|]. rewrite noneOf_app. simpl. exact Hbreak.
  - split; [discriminate|]. rewrite noneOf_app. simpl.
    rewrite noneOf_app, Hbreak. simpl.
    apply numberToString_noneOf;
      [exact Hcls|apply isDigit_not_break|reflexivity].
Qed.

Section Tags.

Variables (cls : ElementClass) (name : string).
Variable attrs : list (string * string).
Hypothesis name_plain : plainName name = true.
Hypothesis name_break : noneOf isBreak name = true.
Hypothesis cls_plain : plainClass cls = true.
Hypothesis attrs_markup : Forall (fun kv => markupAttribute kv = true) attrs.

(** The opening tag that [_stringifyElementOpen] writes is one token. *)
Lemma lex_open (rest : string) (out : list Html.Token) :
  Html.lex
    (ViewStringify._stringifyElementOpen showAll cls name attrs +:+ rest)
    (Html.InText EmptyString) out
  = Html.lex rest (Html.InText EmptyString)
      (out ++ [Html.TagOpen (ViewStringify.elementName showAll cls name)
                 attrs]).
Proof.
  destruct (elementName_break cls name name_plain name_break cls_plain)
    as [Hne Hbreak].
  set (ename := ViewStringify.elementName showAll cls name) in *.
  unfold ViewStringify._stringifyElementOpen. fold ename.
  assert (Hn : ViewStringify.nonEmpty ename = true).
  { unfold ViewStringify.nonEmpty. now rewrite bool_decide_eq_false_2. }
  rewrite filter_cons_True by exact Hn.
  change ("<" +:+ ?x) with (String "<" x).
  destruct attrs as [|kv attrs'] eqn:Hattrs.
  - rewrite filter_cons_False by discriminate. rewrite filter_nil.
    cbn [Js.join].
    change (String "<" ?x +:+ ?y) with (String "<" (x +:+ y)).
    rewrite !append_assoc.
    cbn [Html.lex Html.lexStep bool_decide]. simpl fst. simpl snd.
    rewrite (lex_name ename _ _ _ _ Hbreak).
    change (">" +:+ rest) with (String ">" rest).
    cbn [Html.lex Html.lexStep bool_decide]. reflexivity.
  - rewrite <- Hattrs in *.
    assert (Ha : ViewStringify.nonEmpty
                   (ViewStringify._stringifyElementAttributes attrs) = true).
    { unfold ViewStringify.nonEmpty. rewrite bool_decide_eq_false_2;
        [reflexivity|]. apply attributes_empty; [exact attrs_markup|].
      rewrite Hattrs. discriminate. }
    rewrite filter_cons_True by exact Ha. rewrite filter_nil.
    cbn [Js.join].
    change (String "<" ?x +:+ ?y) with (String "<" (x +:+ y)).
    rewrite !append_assoc.
    cbn [Html.lex Html.lexStep bool_decide]. simpl fst. simpl snd.
    rewrite (lex_name ename _ _ _ _ Hbreak).
    change (" " +:+ ?x) with (String " " x).
    cbn [Html.lex Html.lexStep bool_decide]. simpl fst. simpl snd.
    change (">" +:+ rest) with (String ">" rest).
    rewrite lex_attributes; [reflexivity|exact attrs_markup|].
    rewrite Hattrs. discriminate.
Qed.

(** The closing tag is one token, and a text before it ends there. *)
Lemma lex_close (rest : string) (out : list Html.Token) :
  Html.lex (ViewStringify._stringifyElementClose showAll cls name +:+ rest)
    (Html.InText EmptyString) out
  = Html.lex rest (Html.InText EmptyString)
      (out ++ [Html.TagClose (ViewStringify.elementName showAll cls name)]).
Proof.
  destruct (elementName_break cls name name_plain name_break cls_plain)
    as [Hne Hbreak].
  set (ename := ViewStringify.elementName showAll cls name) in *.
  unfold ViewStringify._stringifyElementClose. fold ename.
  change ("</" +:+ ?x) with (String "<" (String "/" x)).
  change (String "<" (String "/" ?x) +:+ ?y)
    with (String "<" (String "/" (x +:+ y))).
  rewrite !append_assoc.
  cbn [Html.lex Html.lexStep bool_decide andb]. simpl fst. simpl snd.
  rewrite (lex_name ename _ _ _ _ Hbreak).
  change (">" +:+ rest) with (String ">" rest).
  cbn [Html.lex Html.lexStep bool_decide]. reflexivity.
Qed.

Lemma open_closed (rest : string) :
  closed
    (ViewStringify._stringifyElementOpen showAll cls name attrs +:+ rest).
Proof. unfold ViewStringify._stringifyElementOpen. apply closed_tag. Qed.

Lemma close_closed (rest : string) :
  closed (ViewStringify._stringifyElementClose showAll cls name +:+ rest).
Proof. unfold ViewStringify._stringifyElementClose. apply closed_tag. Qed.

End Tags.

Lemma markup_closed (node : Node) (rest : string) :
  markupNode node = true -> isText node = false ->
  closed (markup showAll node +:+ rest).
Proof.
  destruct node as [children|cls name attrs children|data];
    [discriminate| |discriminate].
  intros _ _. rewrite markup_unfold, append_assoc. apply open_closed.
Qed.

Lemma lex_nodes (children : list Node) :
  Forall (fun child =>
            forall rest out,
              isText child = false \/ closed rest ->
              Html.lex (markup showAll child +:+ rest)
                (Html.InText EmptyString) out
              = Html.lex rest (Html.InText EmptyString)
                  (out ++ tokensOf child)) children ->
  Forall (fun child => markupNode child = true) children ->
  noTextPair children = true ->
  forall rest out,
    closed rest ->
    Html.lex (markupAll showAll children +:+ rest)
      (Html.InText EmptyString) out
    = Html.lex rest (Html.InText EmptyString)
        (out ++ flat_map tokensOf children).
Proof.
  induction 1 as [|child more Hchild _ IH];
    intros Hmarkup Hpair rest out Hclosed.
  - simpl. now rewrite app_nil_r.
  - apply Forall_cons_iff in Hmarkup as [_ Hmore].
    cbn [noTextPair] in Hpair. apply andb_prop in Hpair as [Hnext Hpair].
    cbn [markupAll flat_map]. fold (markupAll showAll).
    rewrite append_assoc, Hchild.
    + rewrite (IH Hmore Hpair rest _ Hclosed). now rewrite app_assoc.
    + destruct (isText child) eqn:Htext; [right|now left].
      destruct more as [|second more']; [exact Hclosed|].
      cbn [markupAll]. fold (markupAll showAll). rewrite append_assoc.
      apply markup_closed.
      * now apply Forall_cons_iff in Hmore as [Hsecond _].
      * simpl in Hnext. now apply negb_true_iff in Hnext.
Qed.

(** The tokens of the markup of a node. *)
Lemma lex_node (node : Node) :
  markupNode node = true ->
  forall rest out,
    isText node = false \/ closed rest ->
    Html.lex (markup showAll node +:+ rest) (Html.InText EmptyString) out
    = Html.lex rest (Html.InText EmptyString) (out ++ tokensOf node).
Proof.
  induction node as [children IH|cls name attrs children IH|data]
    using Node_induction; intros Hnode rest out Hrest.
  - discriminate Hnode.
  - apply markupNode_element in Hnode
      as (Hname & Hbreak & Hcls & _ & Hattrs & Hpair & Hchildren).
    rewrite markup_unfold, !append_assoc.
    rewrite (lex_open cls name attrs Hname Hbreak Hcls Hattrs).
    rewrite lex_nodes; [| |exact Hchildren|exact Hpair|apply close_closed].
    + rewrite (lex_close cls name Hname Hbreak Hcls).
      cbn [tokensOf]. now rewrite <- !app_assoc.
    + rewrite Forall_forall in IH, Hchildren |- *.
      intros c Hc. apply IH; auto.
  - simpl in Hnode. apply andb_prop in Hnode as [Hne Hless].
    apply negb_true_iff, bool_decide_eq_false in Hne.
    destruct Hrest as [Htext|Hclosed]; [discriminate Htext|].
    now apply lex_closed_text.
Qed.

(** *** The tree of the tokens *)

Lemma build_nodes (children : list Node) :
  Forall (fun child =>
            forall rest stack before,
              Html.build (tokensOf child ++ rest) stack before
              = Html.build rest stack
                  (before ++ [domOf Js.toUpperCase child])) children ->
  forall rest stack before,
    Html.build (flat_map tokensOf children ++ rest) stack before
    = Html.build rest stack (before ++ map (domOf Js.toUpperCase) children).
Proof.
  induction 1 as [|child more Hchild _ IH]; intros rest stack before.
  - simpl. now rewrite app_nil_r.
  - cbn [flat_map map]. rewrite <- app_assoc, Hchild, IH.
    now rewrite <- app_assoc.
Qed.

Lemma build_node (node : Node) :
  markupNode node = true ->
  forall rest stack before,
    Html.build (tokensOf node ++ rest) stack before
    = Html.build rest stack (before ++ [domOf Js.toUpperCase node]).
Proof.
  induction node as [children IH|cls name attrs children IH|data]
    using Node_induction; intros Hnode rest stack before.
  - discriminate Hnode.
  - apply markupNode_element in Hnode
      as (_ & _ & _ & _ & _ & _ & Hchildren).
    cbn [tokensOf app Html.build]. rewrite <- app_assoc.
    rewrite build_nodes.
    + reflexivity.
    + rewrite Forall_forall in IH, Hchildren |- *.
      intros c Hc. apply IH; auto.
  - reflexivity.
Qed.

(** The reference tokenizer reads the markup of a tree as the generic
    image of the tree. *)
Lemma toDom_markup (tree : Node) :
  markupTree tree = true ->
  Html.toDom (markup showAll tree) = domRoot Js.toUpperCase tree.
Proof.
  intros Htree. unfold Html.toDom.
  rewrite <- (append_nil_r (markup showAll tree)).
  assert (Hend : forall tokens,
             Html.lex EmptyString (Html.InText EmptyString) tokens = tokens)
    by reflexivity.
  destruct tree as [children|cls name attrs children|data].
  - simpl in Htree. apply andb_prop in Htree as [Htree Hchildren].
    apply andb_prop in Htree as [_ Hpair].
    apply forallb_Forall in Hchildren.
    rewrite markup_unfold, lex_nodes;
      [|eapply Forall_impl; [exact Hchildren|]; intros c Hc;
        now apply lex_node
       |exact Hchildren|exact Hpair|now left].
    rewrite Hend, app_nil_l.
    rewrite <- (app_nil_r (flat_map tokensOf children)).
    rewrite build_nodes; [reflexivity|].
    eapply Forall_impl; [exact Hchildren|]. intros c Hc.
    now apply build_node.
  - rewrite lex_node by (exact Htree || now left).
    rewrite Hend, app_nil_l.
    pose proof (build_node _ Htree [] [] []) as Hbuild.
    rewrite app_nil_r in Hbuild. now rewrite Hbuild.
  - rewrite lex_node by (exact Htree || (right; now left)).
    reflexivity.
Qed.

Section RoundTripNoRanges.

Variable toDom : string -> DomNode.
Variable D : Js.Number.


End RoundTripNoRanges.



(** Two text nodes next to each other are written as one run of
    characters and come back as one text node. *)
Example adjacent_texts_come_back_as_one :
  parse Html.toDom 10
    (stringify (Element ContainerElement "p" [] [Text "foo"; Text "bar"])
       None showAll)
    noOptions
  = Ok (View (Element ContainerElement "p" [] [Text "foobar"])).
Proof. reflexivity. Qed.

(** From 10^21 on a priority is written in exponent form, of which
    [parseInt] reads the digits before the point or the exponent. *)
Example large_priority_not_restored :
  stringify (Element (AttributeElement (10 ^ 21)) "b" [] [Text "foo"])
    None showAll
  = "<attribute:b:1e+21>foo</attribute:b:1e+21>"
  /\ parse Html.toDom 10 "<attribute:b:1e+21>foo</attribute:b:1e+21>"
       noOptions
     = Ok (View (Element (AttributeElement 1) "b" [] [Text "foo"])).
Proof. split; vm_compute; reflexivity. Qed.

(** ** A collapsed range through [stringify] and [parse] *)

(** *** What [stringify] writes for one collapsed range *)

Lemma elementRanges_collapsed (at_ : Position) (self : NodeRef) (k : Z) :
  ViewStringify._stringifyElementRanges [mkRange at_ at_] self k
  = if bool_decide (at_ = mkPosition self k) then "[]" else EmptyString.
Proof. rewrite stringifyElementRanges_tokens. apply tokens_of_collapsed. Qed.

Lemma walkViewChildren_cons (ranges : list Range)
    (options : ViewStringify.Options) (self : NodeRef) (child : Node)
    (rest : list Node) (k : nat) :
  walkViewChildren ranges options self (child :: rest) k
  = ViewStringify._walkView ranges options (self ++ [k]) child
      +:+ ViewStringify._stringifyElementRanges ranges self (Z.of_nat (S k))
      +:+ walkViewChildren ranges options self rest (S k).
Proof. reflexivity. Qed.

Lemma markupAll_cons (options : ViewStringify.Options) (child : Node)
    (rest : list Node) :
  markupAll options (child :: rest)
  = markup options child +:+ markupAll options rest.
Proof. reflexivity. Qed.

(** Children that the range is not in, from an offset on behind which the
    range does not stand. *)
Lemma walkViewChildren_past (options : ViewStringify.Options)
    (at_ : Position) (self : NodeRef) (children : list Node) :
  Forall (fun child =>
            forall self',
              (forall q off, at_ <> mkPosition (self' ++ q) off) ->
              ViewStringify._walkView [mkRange at_ at_] options self' child
              = markup options child) children ->
  forall k,
    (forall j q off, (k <= j)%nat -> at_ <> mkPosition (self ++ j :: q) off) ->
    (forall j, (k < j)%nat -> at_ <> mkPosition self (Z.of_nat j)) ->
    walkViewChildren [mkRange at_ at_] options self children k
    = markupAll options children.
Proof.
  intros Hchildren.
  induction Hchildren as [|child rest Hchild _ IH]; intros k Hbelow Hpast;
    [reflexivity|].
  rewrite walkViewChildren_cons, markupAll_cons, Hchild.
  - rewrite elementRanges_collapsed, bool_decide_eq_false_2
      by (apply Hpast; lia).
    rewrite IH; [reflexivity| |].
    + intros j q off Hj. apply Hbelow. lia.
    + intros j Hj. apply Hpast. lia.
  - intros q off. rewrite <- app_assoc. now apply Hbelow.
Qed.

Lemma walkView_outside (options : ViewStringify.Options) (at_ : Position)
    (node : Node) :
  forall self,
    (forall q off, at_ <> mkPosition (self ++ q) off) ->
    ViewStringify._walkView [mkRange at_ at_] options self node
    = markup options node.
Proof.
  induction node as [children IH|cls name attrs children IH|data]
    using Node_induction; intros self Hout;
    rewrite walkView_unfold, markup_unfold.
  - rewrite elementRanges_collapsed, bool_decide_eq_false_2
      by (rewrite <- (app_nil_r self) at 1; apply Hout).
    rewrite (walkViewChildren_past options at_ self children IH);
      [reflexivity|intros; apply Hout|].
    intros j _. rewrite <- (app_nil_r self) at 1. apply Hout.
  - rewrite elementRanges_collapsed, bool_decide_eq_false_2
      by (rewrite <- (app_nil_r self) at 1; apply Hout).
    rewrite (walkViewChildren_past options at_ self children IH);
      [reflexivity|intros; apply Hout|].
    intros j _. rewrite <- (app_nil_r self) at 1. apply Hout.
  - rewrite stringifyTextRanges_tokens. apply textWithTokens_past.
    intros j _. rewrite <- (app_nil_r self) at 1. apply Hout.
Qed.

Lemma walkViewChildren_plain (options : ViewStringify.Options)
    (at_ : Position) (self : NodeRef) (children : list Node) (k : nat) :
  (forall j q off, (k <= j)%nat -> at_ <> mkPosition (self ++ j :: q) off) ->
  (forall j, (k < j)%nat -> at_ <> mkPosition self (Z.of_nat j)) ->
  walkViewChildren [mkRange at_ at_] options self children k
  = markupAll options children.
Proof.
  intros Hbelow Hpast. apply walkViewChildren_past; auto.
  apply Forall_forall. intros child _ self' Hout.
  now apply walkView_outside.
Qed.

Lemma textWithTokens_pairInside (node : NodeRef) (offset : nat) :
  forall data i,
    (offset <= String.length data)%nat ->
    textWithTokens
      [mkRange (mkPosition node (Z.of_nat (i + offset)))
         (mkPosition node (Z.of_nat (i + offset)))] node i data
    = pairInside offset data.
Proof.
  induction offset as [|n IH]; intros data i Hlen.
  - replace (i + 0)%nat with i by lia.
    destruct data as [|c rest]; cbn [textWithTokens pairInside];
      rewrite tokens_of_collapsed, bool_decide_eq_true_2 by reflexivity.
    + reflexivity.
    + rewrite textWithTokens_past; [reflexivity|].
      intros j Hj [= E]. lia.
  - destruct data as [|c rest]; [simpl in Hlen; lia|].
    cbn [textWithTokens pairInside].
    rewrite tokens_of_collapsed, bool_decide_eq_false_2
      by (intros [= E]; lia).
    replace (i + S n)%nat with (S i + n)%nat by lia.
    rewrite IH by (simpl in Hlen; lia). reflexivity.
Qed.

Lemma markupAll_pairAmong_first (options : ViewStringify.Options)
    (children : list Node) :
  markupAll options (pairAmong 0 children)
  = "[]" +:+ markupAll options children.
Proof. destruct children as [|[] rest]; reflexivity. Qed.

Lemma pairAmong_next (n : nat) (child : Node) (rest : list Node) :
  isText child = false \/ (0 < n)%nat ->
  pairAmong (S n) (child :: rest) = child :: pairAmong n rest.
Proof.
  intros [H|H].
  - destruct child; [destruct n; reflexivity..|discriminate].
  - destruct n as [|n]; [lia|]. destruct child; reflexivity.
Qed.

Lemma markupAll_pairAmong (options : ViewStringify.Options) (n : nat) :
  forall children,
    (n <= length children)%nat ->
    markupAll options (pairAmong n children)
    = markupAll options (take n children) +:+ "[]"
        +:+ markupAll options (drop n children).
Proof.
  induction n as [|n IH]; intros children Hlen.
  - rewrite markupAll_pairAmong_first. now rewrite take_0, drop_0.
  - destruct children as [|child rest]; [simpl in Hlen; lia|].
    simpl in Hlen. cbn [take drop]. rewrite markupAll_cons, append_assoc.
    rewrite <- IH by lia.
    destruct (isText child) eqn:Htext.
    + destruct child as [cs|cls name attrs cs|data]; try discriminate.
      destruct n as [|n].
      * rewrite markupAll_pairAmong_first. cbn [pairAmong].
        rewrite markupAll_cons, !markup_unfold. now rewrite !append_assoc.
      * now rewrite pairAmong_next, markupAll_cons by (right; lia).
    + now rewrite pairAmong_next, markupAll_cons by now left.
Qed.

(** The children of the owner of the range, from the child at [k] on,
    when the range stands behind that child or further on. *)
Lemma walkViewChildren_pairAmong (options : ViewStringify.Options)
    (self : NodeRef) (n : nat) :
  forall children k,
    (n < length children)%nat ->
    walkViewChildren
      [mkRange (mkPosition self (Z.of_nat (k + S n)))
         (mkPosition self (Z.of_nat (k + S n)))] options self children k
    = markupAll options (pairAmong (S n) children).
Proof.
  induction n as [|n IH]; intros children k Hlen;
    (destruct children as [|child rest]; [simpl in Hlen; lia|]);
    simpl in Hlen; rewrite walkViewChildren_cons.
  - rewrite walkView_outside
      by (intros q off [= E _]; apply (f_equal length) in E;
          rewrite !length_app in E; simpl in E; lia).
    rewrite elementRanges_collapsed, bool_decide_eq_true_2
      by (repeat f_equal; lia).
    rewrite walkViewChildren_plain.
    + rewrite (markupAll_pairAmong options 1) by (simpl; lia).
      cbn [take drop]. rewrite take_0, drop_0. cbn [markupAll].
      now rewrite append_nil_r.
    + intros j q off _ [= E _]. apply (f_equal length) in E.
      rewrite !length_app in E. simpl in E. lia.
    + intros j Hj [= E]. lia.
  - rewrite walkView_outside
      by (intros q off [= E _]; apply (f_equal length) in E;
          rewrite !length_app in E; simpl in E; lia).
    rewrite elementRanges_collapsed, bool_decide_eq_false_2
      by (intros [= E]; lia).
    replace (k + S (S n))%nat with (S k + S n)%nat by lia.
    rewrite IH by lia.
    now rewrite pairAmong_next, markupAll_cons by (right; lia).
Qed.

(** The children of a node below which the range is, from the child at
    [k] on, when the owner is under the child at [k + i]. *)
Lemma walkViewChildren_alter (options : ViewStringify.Options)
    (self rest : NodeRef) (offset : Z) (f : Node -> Node) :
  forall children k i child,
    children !! i = Some child ->
    ViewStringify._walkView
      [mkRange (mkPosition (self ++ (k + i)%nat :: rest) offset)
         (mkPosition (self ++ (k + i)%nat :: rest) offset)]
      options (self ++ [(k + i)%nat]) child
    = markup options (f child) ->
    walkViewChildren
      [mkRange (mkPosition (self ++ (k + i)%nat :: rest) offset)
         (mkPosition (self ++ (k + i)%nat :: rest) offset)]
      options self children k
    = markupAll options (alter f i children).
Proof.
  assert (Hself : forall j off,
             mkPosition (self ++ j :: rest) offset <> mkPosition self off).
  { intros j off [= E _]. apply (f_equal length) in E.
    rewrite !length_app in E. simpl in E. lia. }
  induction children as [|first more IH]; intros k i child Hchild Hwalk;
    [discriminate|].
  rewrite walkViewChildren_cons, elementRanges_collapsed,
    bool_decide_eq_false_2 by apply Hself.
  destruct i as [|i].
  - injection Hchild as ->. replace (k + 0)%nat with k in * by lia.
    cbn [alter list_alter]. rewrite markupAll_cons, Hwalk.
    rewrite walkViewChildren_plain; [reflexivity| |].
    + intros j q off Hj [= E _]. apply app_inv_head in E.
      injection E as E. lia.
    + intros j _. apply Hself.
  - replace (k + S i)%nat with (S k + i)%nat in * by lia.
    cbn [alter list_alter]. rewrite markupAll_cons.
    rewrite (IH (S k) i child Hchild Hwalk).
    rewrite walkView_outside; [reflexivity|].
    intros q off. rewrite <- app_assoc. simpl.
    intros [= E _]. apply app_inv_head in E. injection E as E. lia.
Qed.

Lemma validPosition_here (node : Node) (offset : nat) :
  validPosition node (mkPosition [] (Z.of_nat offset)) = true ->
  match node with
  | DocumentFragment children
  | Element _ _ _ children => (offset <= length children)%nat
  | Text data => (offset <= String.length data)%nat
  end.
Proof.
  unfold validPosition. simpl.
  destruct node; intros H; apply andb_prop in H as [_ H];
    apply Z.leb_le in H; lia.
Qed.

Lemma validPosition_below (node : Node) (i : nat) (rest : NodeRef)
    (offset : Z) :
  validPosition node (mkPosition (i :: rest) offset) = true ->
  exists child,
    validPosition child (mkPosition rest offset) = true
    /\ match node with
       | DocumentFragment children
       | Element _ _ _ children => children !! i = Some child
       | Text _ => False
       end.
Proof.
  unfold validPosition. simpl.
  destruct node as [children|cls name attrs children|data];
    [| |discriminate];
    destruct (children !! i) as [child|] eqn:Hchild; try discriminate;
    intros H; exists child; auto.
Qed.

Lemma walkViewChildren_owner (options : ViewStringify.Options)
    (self : NodeRef) (offset : nat) (children : list Node) :
  (offset <= length children)%nat ->
  ViewStringify._stringifyElementRanges
    [mkRange (mkPosition self (Z.of_nat offset))
       (mkPosition self (Z.of_nat offset))] self 0
  +:+ walkViewChildren
        [mkRange (mkPosition self (Z.of_nat offset))
           (mkPosition self (Z.of_nat offset))] options self children 0
  = markupAll options (pairAmong offset children).
Proof.
  intros Hlen. rewrite elementRanges_collapsed.
  destruct offset as [|n].
  - rewrite bool_decide_eq_true_2 by reflexivity.
    rewrite walkViewChildren_plain, markupAll_pairAmong_first;
      [reflexivity| |].
    + intros j q off _ [= E _]. apply (f_equal length) in E.
      rewrite !length_app in E. simpl in E. lia.
    + intros j Hj [= E]. lia.
  - rewrite bool_decide_eq_false_2 by (intros [= E]; lia).
    change (Z.of_nat (S n)) with (Z.of_nat (0 + S n)).
    rewrite walkViewChildren_pairAmong by lia. reflexivity.
Qed.

(** With one collapsed range at a position of the tree, [stringify]
    writes the markup of the tree with the pair of tokens at that
    position. *)
Lemma walkView_withPair (options : ViewStringify.Options) (offset : nat) :
  forall path node self,
    validPosition node (mkPosition path (Z.of_nat offset)) = true ->
    ViewStringify._walkView
      [mkRange (mkPosition (self ++ path) (Z.of_nat offset))
         (mkPosition (self ++ path) (Z.of_nat offset))] options self node
    = markup options (withPair path offset node).
Proof.
  induction path as [|i rest IH]; intros node self Hvalid.
  - apply validPosition_here in Hvalid. rewrite app_nil_r.
    rewrite walkView_unfold.
    destruct node as [children|cls name attrs children|data];
      cbn [withPair]; rewrite markup_unfold.
    + now apply walkViewChildren_owner.
    + rewrite <- (walkViewChildren_owner options self offset children Hvalid).
      now rewrite !append_assoc.
    + rewrite stringifyTextRanges_tokens.
      now apply (textWithTokens_pairInside self offset data 0).
  - apply validPosition_below in Hvalid as (child & Hvalid & Hchild).
    assert (Hself : forall off,
               mkPosition (self ++ i :: rest) (Z.of_nat offset)
               <> mkPosition self off).
    { intros off [= E _]. apply (f_equal length) in E.
      rewrite length_app in E. simpl in E. lia. }
    assert (Hchildren : forall children,
               children !! i = Some child ->
               walkViewChildren
                 [mkRange (mkPosition (self ++ i :: rest) (Z.of_nat offset))
                    (mkPosition (self ++ i :: rest) (Z.of_nat offset))]
                 options self children 0
               = markupAll options (alter (withPair rest offset) i children)).
    { intros children Hi.
      apply (walkViewChildren_alter options self rest (Z.of_nat offset)
               (withPair rest offset) children 0 i child Hi).
      simpl. rewrite <- (IH child (self ++ [i]) Hvalid).
      now rewrite <- app_assoc. }
    rewrite walkView_unfold.
    destruct node as [children|cls name attrs children|data];
      [| |contradiction];
      cbn [withPair]; rewrite markup_unfold, elementRanges_collapsed,
        bool_decide_eq_false_2 by apply Hself;
      now rewrite (Hchildren children Hchild).
Qed.

(** *** The markup of the tree with the pair is read back *)

Lemma isText_withPair (path : NodeRef) (offset : nat) (node : Node) :
  isText (withPair path offset node) = isText node.
Proof. destruct path, node; reflexivity. Qed.

Lemma noTextPair_ext (children : list Node) :
  forall others,
    map isText children = map isText others ->
    noTextPair children = noTextPair others.
Proof.
  induction children as [|first rest IH]; intros [|first' rest'] E;
    try discriminate; [reflexivity|].
  injection E as Efirst Erest. cbn [noTextPair].
  rewrite (IH rest' Erest), Efirst.
  destruct rest as [|second more], rest' as [|second' more'];
    try discriminate; [reflexivity|].
  injection Erest as -> _. reflexivity.
Qed.

Lemma noTextPair_alter (f : Node -> Node) (i : nat) (children : list Node) :
  (forall child, isText (f child) = isText child) ->
  noTextPair (alter f i children) = noTextPair children.
Proof.
  intros Hf. apply noTextPair_ext.
  revert i. induction children as [|first rest IH]; intros [|i];
    cbn [alter list_alter map]; try reflexivity.
  - now rewrite Hf.
  - now rewrite IH.
Qed.

Lemma pairInside_nonempty (offset : nat) (data : string) :
  pairInside offset data <> EmptyString.
Proof. destruct offset, data; discriminate. Qed.

Lemma noneOf_pairInside (p : ascii -> bool) (offset : nat) :
  p "{"%char = false -> p "}"%char = false ->
  forall data, noneOf p (pairInside offset data) = noneOf p data.
Proof.
  intros Hs He. induction offset as [|n IH]; intros [|c rest];
    cbn [pairInside noneOf]; unfold TEXT_RANGE_START_TOKEN,
      TEXT_RANGE_END_TOKEN; rewrite ?Hs, ?He, ?IH; reflexivity.
Qed.

Lemma markupNode_text_left (data : string) :
  markupNode (Text data) = true -> markupNode (Text ("[]" +:+ data)) = true.
Proof. simpl. intros H. apply andb_prop in H as [_ H]. exact H. Qed.

Lemma markupNode_text_right (data : string) :
  markupNode (Text data) = true -> markupNode (Text (data +:+ "[]")) = true.
Proof.
  simpl. intros H. apply andb_prop in H as [Hne H].
  rewrite noneOf_app, H.
  destruct data; [discriminate|reflexivity].
Qed.

Lemma markupNode_pairAmong (offset : nat) :
  forall children,
    Forall (fun c => markupNode c = true) children ->
    Forall (fun c => markupNode c = true) (pairAmong offset children).
Proof.
  induction offset as [|n IH]; intros children Hchildren.
  - destruct Hchildren as [|child rest Hchild Hrest]; cbn [pairAmong].
    + now repeat constructor.
    + destruct child as [cs|cls name attrs cs|data];
        repeat constructor; auto using markupNode_text_left.
  - destruct Hchildren as [|child rest Hchild Hrest]; [constructor|].
    destruct (isText child) eqn:Htext.
    + destruct child as [cs|cls name attrs cs|data]; try discriminate.
      destruct n as [|n].
      * cbn [pairAmong]. constructor; auto using markupNode_text_right.
      * rewrite pairAmong_next by (right; lia). constructor; auto.
    + rewrite pairAmong_next by now left. constructor; auto.
Qed.

Lemma noTextPair_cons (first : Node) (rest : list Node) :
  noTextPair (first :: rest)
  = negb (isText first
          && match rest with
             | second :: _ => isText second
             | [] => false
             end)
    && noTextPair rest.
Proof.
  cbn [noTextPair]. destruct rest; [|reflexivity].
  now rewrite andb_false_r.
Qed.

Lemma noTextPair_pairAmong (offset : nat) :
  forall children,
    noTextPair children = true ->
    noTextPair (pairAmong offset children) = true
    /\ ((0 < offset)%nat ->
        option_map isText (head (pairAmong offset children))
        = option_map isText (head children)).
Proof.
  induction offset as [|n IH]; intros children Hpair.
  - split; [|lia].
    destruct children as [|[cs|cls name attrs cs|data] rest];
      cbn [pairAmong]; try (rewrite noTextPair_cons; now rewrite Hpair).
    rewrite <- Hpair. now apply noTextPair_ext.
  - destruct children as [|child rest]; [now split|].
    rewrite noTextPair_cons in Hpair.
    apply andb_prop in Hpair as [Hhead Hrest].
    destruct (IH rest Hrest) as [IHpair IHhead].
    assert (Hnext : isText child = false \/ (0 < n)%nat
                    -> noTextPair (pairAmong (S n) (child :: rest)) = true
                       /\ ((0 < S n)%nat ->
                           option_map isText
                             (head (pairAmong (S n) (child :: rest)))
                           = option_map isText (head (child :: rest)))).
    { intros Hcase. rewrite (pairAmong_next n child rest Hcase).
      split; [|reflexivity].
      rewrite noTextPair_cons, IHpair, andb_true_r.
      destruct Hcase as [Htext|Hn]; [now rewrite Htext|].
      specialize (IHhead Hn).
      destruct (pairAmong n rest) as [|second more],
        rest as [|second' more']; simpl in IHhead; try discriminate;
        [now rewrite andb_false_r|].
      injection IHhead as ->. exact Hhead. }
    destruct n as [|n].
    + destruct child as [cs|cls name attrs cs|data];
        [now apply Hnext; left|now apply Hnext; left|].
      cbn [pairAmong]. split; [|reflexivity].
      rewrite noTextPair_cons, Hrest. simpl in Hhead |- *.
      now rewrite Hhead.
    + apply Hnext. right. lia.
Qed.

Lemma Forall_forallb {A : Type} (p : A -> bool) (l : list A) :
  Forall (fun x => p x = true) l -> forallb p l = true.
Proof. induction 1 as [|x l Hx _ IH]; simpl; [reflexivity|]. now rewrite Hx. Qed.

Lemma markupNode_withPair (offset : nat) :
  forall path node,
    markupNode node = true -> markupNode (withPair path offset node) = true.
Proof.
  induction path as [|i rest IH];
    intros [children|cls name attrs children|data] Hnode;
    try discriminate Hnode; cbn [withPair]; try exact Hnode.
  - apply markupNode_element in Hnode
      as (Hname & Hbreak & Hcls & Hdup & Hattrs & Hpair & Hchildren).
    cbn [markupNode]. rewrite Hname, Hbreak, Hcls.
    rewrite (bool_decide_eq_true_2 _ Hdup), (Forall_forallb _ _ Hattrs).
    rewrite (proj1 (noTextPair_pairAmong offset children Hpair)).
    now rewrite (Forall_forallb _ _ (markupNode_pairAmong offset _ Hchildren)).
  - simpl in Hnode |- *. apply andb_prop in Hnode as [_ Hless].
    rewrite (noneOf_pairInside isLess) by reflexivity. rewrite Hless.
    now rewrite bool_decide_eq_false_2 by apply pairInside_nonempty.
  - apply markupNode_element in Hnode
      as (Hname & Hbreak & Hcls & Hdup & Hattrs & Hpair & Hchildren).
    cbn [markupNode]. rewrite Hname, Hbreak, Hcls.
    rewrite (bool_decide_eq_true_2 _ Hdup), (Forall_forallb _ _ Hattrs).
    rewrite noTextPair_alter, Hpair by (intros; apply isText_withPair).
    rewrite Forall_forallb; [reflexivity|].
    apply Forall_alter; [exact Hchildren|]. intros child _. apply IH.
Qed.

Lemma length_pairAmong (offset : nat) :
  forall children,
    (length children <= length (pairAmong offset children))%nat.
Proof.
  induction offset as [|n IH]; intros [|child rest]; cbn [pairAmong].
  - simpl. lia.
  - destruct child; simpl; lia.
  - simpl. lia.
  - specialize (IH rest). destruct n, child; simpl in *; lia.
Qed.

Lemma markupTree_withPair (path : NodeRef) (offset : nat) (tree : Node) :
  markupTree tree = true ->
  tree <> DocumentFragment [] ->
  markupTree (withPair path offset tree) = true.
Proof.
  destruct tree as [children|cls name attrs children|data];
    intros Htree Hne.
  - simpl in Htree. apply andb_prop in Htree as [Htree Hchildren].
    apply andb_prop in Htree as [Hlen Hpair].
    apply forallb_Forall in Hchildren.
    apply negb_true_iff, Nat.eqb_neq in Hlen.
    assert (Hmany : (2 <= length children)%nat).
    { destruct children as [|a [|b more]]; simpl in *;
        [congruence|congruence|lia]. }
    destruct path as [|i rest]; cbn [withPair markupTree].
    + pose proof (length_pairAmong offset children) as Hle.
      apply andb_true_intro. split; [apply andb_true_intro; split|].
      * apply negb_true_iff, Nat.eqb_neq. lia.
      * apply (noTextPair_pairAmong offset children Hpair).
      * apply Forall_forallb. now apply markupNode_pairAmong.
    + apply andb_true_intro. split; [apply andb_true_intro; split|].
      * apply negb_true_iff, Nat.eqb_neq. rewrite length_alter. lia.
      * rewrite noTextPair_alter by (intros; apply isText_withPair).
        exact Hpair.
      * apply Forall_forallb, Forall_alter; [exact Hchildren|].
        intros child _. apply markupNode_withPair.
  - pose proof (markupNode_withPair offset path _ Htree) as H.
    destruct path; exact H.
  - pose proof (markupNode_withPair offset path _ Htree) as H.
    destruct path; exact H.
Qed.

(** *** The scan of the tree with the pair *)

Lemma pairInside_split (offset : nat) :
  forall data,
    (offset <= String.length data)%nat ->
    exists pre post,
      data = pre +:+ post /\ String.length pre = offset
      /\ pairInside offset data = pre +:+ String "{" (String "}" post).
Proof.
  induction offset as [|n IH]; intros data Hlen.
  - exists EmptyString, data. destruct data; auto.
  - destruct data as [|c rest]; [simpl in Hlen; lia|].
    destruct (IH rest) as (pre & post & -> & <- & E);
      [simpl in Hlen; lia|].
    exists (String c pre), post. cbn [pairInside]. now rewrite E.
Qed.

Lemma plainText_parts (data : string) :
  plainText data = true ->
  bool_decide (data = EmptyString) = false
  /\ noneOf RangeParser.matches data = true.
Proof.
  unfold plainText. intros H. apply andb_prop in H as [Hne Hnone].
  now apply negb_true_iff in Hne.
Qed.

Lemma getPositionsText_inside (self : NodeRef) (home : option (NodeRef * nat))
    (offset : nat) (data : string) :
  plainText data = true ->
  (offset <= String.length data)%nat ->
  RangeParser.getPositionsOfText self home (pairInside offset data)
  = Ok (Some (Text data),
        [RangeParser.mkItem "{" (mkPosition self (Z.of_nat offset));
         RangeParser.mkItem "}" (mkPosition self (Z.of_nat offset))]).
Proof.
  intros Hplain Hlen. apply plainText_parts in Hplain as [Hne Hnone].
  destruct (pairInside_split offset data Hlen) as (pre & post & -> & <- & ->).
  rewrite noneOf_app in Hnone. apply andb_prop in Hnone as [Hpre Hpost].
  unfold RangeParser.getPositionsOfText.
  destruct (scan_pair pre post "{" "}" Hpre Hpost eq_refl eq_refl)
    as [-> ->].
  unfold RangeParser.afterRemove. rewrite Hne.
  cbn [RangeParser.itemPositions]. unfold RangeParser.itemPosition.
  now rewrite Hne.
Qed.

Lemma getPositionsText_left (self parent : NodeRef) (index : nat)
    (data : string) :
  plainText data = true ->
  RangeParser.getPositionsOfText self (Some (parent, index)) ("[]" +:+ data)
  = Ok (Some (Text data),
        [RangeParser.mkItem "[" (mkPosition parent (Z.of_nat index));
         RangeParser.mkItem "]" (mkPosition parent (Z.of_nat index))]).
Proof.
  intros Hplain. apply plainText_parts in Hplain as [Hne Hnone].
  unfold RangeParser.getPositionsOfText.
  change ("[]" +:+ data)
    with (EmptyString +:+ String "[" (String "]" data)).
  destruct (scan_pair EmptyString data "[" "]" eq_refl Hnone eq_refl eq_refl)
    as [-> ->].
  change (EmptyString +:+ data) with data.
  unfold RangeParser.afterRemove. rewrite Hne.
  cbn [RangeParser.itemPositions]. unfold RangeParser.itemPosition.
  now rewrite Hne.
Qed.

Lemma getPositionsText_right (self parent : NodeRef) (index : nat)
    (data : string) :
  plainText data = true ->
  RangeParser.getPositionsOfText self (Some (parent, index)) (data +:+ "[]")
  = Ok (Some (Text data),
        [RangeParser.mkItem "[" (mkPosition parent (Z.of_nat index + 1));
         RangeParser.mkItem "]" (mkPosition parent (Z.of_nat index + 1))]).
Proof.
  intros Hplain. apply plainText_parts in Hplain as [Hne Hnone].
  assert (Hlen : String.length data <> 0%nat).
  { destruct data; [discriminate|simpl; lia]. }
  unfold RangeParser.getPositionsOfText.
  change (data +:+ "[]") with (data +:+ String "[" (String "]" EmptyString)).
  destruct (scan_pair data EmptyString "[" "]" Hnone eq_refl eq_refl eq_refl)
    as [-> ->].
  rewrite append_nil_r. unfold RangeParser.afterRemove. rewrite Hne.
  cbn [RangeParser.itemPositions]. unfold RangeParser.itemPosition.
  rewrite Hne.
  cbn [RangeParser.bracketChar RangeParser.textOffset negb].
  assert (E0 : (String.length data =? 0)%nat = false)
    by now apply Nat.eqb_neq.
  rewrite E0, Nat.eqb_refl. reflexivity.
Qed.

Lemma textNodes_children (children : list Node) :
  Forall (fun d => plainText d = true) (flat_map textNodes children) ->
  Forall (fun c => forall self home,
              RangeParser._getPositions self home c = Ok (Some c, []))
    children.
Proof.
  intros Hplain. apply Forall_flat_map_parts in Hplain.
  eapply Forall_impl; [exact Hplain|]. intros c Hc.
  now apply getPositions_clean.
Qed.

(** The children of the owner of the range: the pair gives two positions
    at the offset, and the children are left as they were. *)
Lemma visitChildren_pairAmong (self : NodeRef) (offset : nat) :
  forall children kept found,
    (offset <= length children)%nat ->
    Forall (fun d => plainText d = true) (flat_map textNodes children) ->
    visitChildren self (pairAmong offset children) kept found
    = Ok (kept ++ children,
          found
            ++ [RangeParser.mkItem "["
                  (mkPosition self (Z.of_nat (length kept + offset)));
                RangeParser.mkItem "]"
                  (mkPosition self (Z.of_nat (length kept + offset)))]).
Proof.
  induction offset as [|n IH]; intros children kept found Hlen Hplain.
  - replace (length kept + 0)%nat with (length kept) by lia.
    destruct children as [|child rest].
    + cbn [pairAmong]. rewrite visitChildren_cons, getPositions_unfold.
      simpl. now rewrite app_nil_r.
    + assert (Hrest : Forall (fun d => plainText d = true)
                        (flat_map textNodes rest))
        by (simpl in Hplain; now apply Forall_app in Hplain as [_ ?]).
      destruct (isText child) eqn:Htext.
      * destruct child as [cs|cls name attrs cs|data]; try discriminate.
        cbn [pairAmong]. rewrite visitChildren_cons, getPositions_unfold.
        rewrite getPositionsText_left
          by (simpl in Hplain; now apply Forall_cons_iff in Hplain as [? _]).
        rewrite bind_Ok. cbn [fst snd RangeParser.keep].
        rewrite visitChildren_plain by now apply textNodes_children.
        now rewrite <- app_assoc.
      * assert (E : pairAmong 0 (child :: rest) = Text "[]" :: child :: rest)
          by (destruct child; [reflexivity|reflexivity|discriminate]).
        rewrite E, visitChildren_cons, getPositions_unfold.
        change (RangeParser.getPositionsOfText (self ++ [length kept])
                  (Some (self, length kept)) "[]")
          with (Ok (A := option Node * list RangeParser.Item)
                  (None,
                   [RangeParser.mkItem "["
                      (mkPosition self (Z.of_nat (length kept)));
                    RangeParser.mkItem "]"
                      (mkPosition self (Z.of_nat (length kept)))])).
        rewrite bind_Ok. cbn [fst snd RangeParser.keep].
        now rewrite visitChildren_plain by now apply textNodes_children.
  - destruct children as [|child rest]; [simpl in Hlen; lia|].
    simpl in Hlen.
    assert (Hrest : Forall (fun d => plainText d = true)
                      (flat_map textNodes rest))
      by (simpl in Hplain; now apply Forall_app in Hplain as [_ ?]).
    assert (Hnext : isText child = false \/ (0 < n)%nat ->
                    visitChildren self (pairAmong (S n) (child :: rest))
                      kept found
                    = Ok (kept ++ child :: rest,
                          found
                            ++ [RangeParser.mkItem "["
                                  (mkPosition self
                                     (Z.of_nat (length kept + S n)));
                                RangeParser.mkItem "]"
                                  (mkPosition self
                                     (Z.of_nat (length kept + S n)))])).
    { intros Hcase. rewrite (pairAmong_next n child rest Hcase).
      rewrite visitChildren_cons, getPositions_clean
        by (simpl in Hplain; now apply Forall_app in Hplain as [? _]).
      rewrite bind_Ok. cbn [fst snd RangeParser.keep].
      rewrite IH by (lia || exact Hrest).
      rewrite app_nil_r, <- app_assoc, length_app. simpl.
      now replace (length kept + 1 + n)%nat with (length kept + S n)%nat
        by lia. }
    destruct n as [|n]; [|apply Hnext; right; lia].
    destruct child as [cs|cls name attrs cs|data];
      [apply Hnext; now left|apply Hnext; now left|].
    cbn [pairAmong]. rewrite visitChildren_cons, getPositions_unfold.
    rewrite getPositionsText_right
      by (simpl in Hplain; now apply Forall_cons_iff in Hplain as [? _]).
    rewrite bind_Ok. cbn [fst snd RangeParser.keep].
    rewrite visitChildren_plain by now apply textNodes_children.
    rewrite <- app_assoc.
    now replace (Z.of_nat (length kept) + 1) with (Z.of_nat (length kept + 1))
      by lia.
Qed.

(** The children of a node below which the range is. *)
Lemma visitChildren_alter (self : NodeRef) (f : Node -> Node)
    (items : list RangeParser.Item) :
  forall children kept found i child,
    children !! i = Some child ->
    Forall (fun d => plainText d = true) (flat_map textNodes children) ->
    RangeParser._getPositions (self ++ [(length kept + i)%nat])
      (Some (self, (length kept + i)%nat)) (f child)
    = Ok (Some child, items) ->
    visitChildren self (alter f i children) kept found
    = Ok (kept ++ children, found ++ items).
Proof.
  induction children as [|first rest IH];
    intros kept found i child Hchild Hplain Hscan; [discriminate|].
  assert (Hrest : Forall (fun d => plainText d = true)
                    (flat_map textNodes rest))
    by (simpl in Hplain; now apply Forall_app in Hplain as [_ ?]).
  destruct i as [|i]; cbn [alter list_alter]; rewrite visitChildren_cons.
  - injection Hchild as ->.
    replace (length kept + 0)%nat with (length kept) in Hscan by lia.
    rewrite Hscan, bind_Ok. cbn [fst snd RangeParser.keep].
    rewrite visitChildren_plain by now apply textNodes_children.
    now rewrite <- app_assoc.
  - rewrite getPositions_clean
      by (simpl in Hplain; now apply Forall_app in Hplain as [? _]).
    rewrite bind_Ok. cbn [fst snd RangeParser.keep].
    rewrite (IH (kept ++ [first]) (found ++ []) i child Hchild Hrest).
    + now rewrite app_nil_r, <- app_assoc.
    + rewrite length_app. simpl.
      now replace (length kept + 1 + i)%nat with (length kept + S i)%nat
        by lia.
Qed.

Lemma lookup_texts (children : list Node) (i : nat) (child : Node) :
  children !! i = Some child ->
  Forall (fun d => plainText d = true) (flat_map textNodes children) ->
  Forall (fun d => plainText d = true) (textNodes child).
Proof.
  intros Hchild Hplain. apply Forall_flat_map_parts in Hplain.
  rewrite Forall_forall in Hplain. apply Hplain.
  now apply list_elem_of_lookup_2 in Hchild.
Qed.

(** The scan of the tree with the pair gives the tree back, and two
    positions: a start token and an end token at the position of the
    range. *)
Lemma getPositions_withPair (offset : nat) :
  forall path node self home,
    validPosition node (mkPosition path (Z.of_nat offset)) = true ->
    Forall (fun d => plainText d = true) (textNodes node) ->
    exists s e,
      RangeParser.isStartToken s = true /\ RangeParser.isEndToken e = true
      /\ RangeParser._getPositions self home (withPair path offset node)
         = Ok (Some node,
               [RangeParser.mkItem s
                  (mkPosition (self ++ path) (Z.of_nat offset));
                RangeParser.mkItem e
                  (mkPosition (self ++ path) (Z.of_nat offset))]).
Proof.
  induction path as [|i rest IH]; intros node self home Hvalid Hplain.
  - apply validPosition_here in Hvalid. rewrite app_nil_r.
    destruct node as [children|cls name attrs children|data];
      cbn [withPair]; rewrite getPositions_unfold.
    + exists "["%char, "]"%char. repeat split.
      now rewrite (visitChildren_pairAmong self offset children [] []).
    + exists "["%char, "]"%char. repeat split.
      now rewrite (visitChildren_pairAmong self offset children [] []).
    + exists "{"%char, "}"%char. repeat split.
      apply getPositionsText_inside; [|exact Hvalid].
      simpl in Hplain. now apply Forall_cons_iff in Hplain as [? _].
  - apply validPosition_below in Hvalid as (child & Hvalid & Hchild).
    assert (Hchildren : forall children,
               children !! i = Some child ->
               Forall (fun d => plainText d = true)
                 (flat_map textNodes children) ->
               exists s e,
                 RangeParser.isStartToken s = true
                 /\ RangeParser.isEndToken e = true
                 /\ visitChildren self
                      (alter (withPair rest offset) i children) [] []
                    = Ok (children,
                          [RangeParser.mkItem s
                             (mkPosition (self ++ i :: rest)
                                (Z.of_nat offset));
                           RangeParser.mkItem e
                             (mkPosition (self ++ i :: rest)
                                (Z.of_nat offset))])).
    { intros children Hi Htexts.
      destruct (IH child (self ++ [i]) (Some (self, i)) Hvalid
                  (lookup_texts children i child Hi Htexts))
        as (s & e & Hs & He & Hscan).
      exists s, e. repeat split; [exact Hs|exact He|].
      rewrite <- app_assoc in Hscan.
      now rewrite (visitChildren_alter self (withPair rest offset) _
                     children [] [] i child Hi Htexts Hscan). }
    destruct node as [children|cls name attrs children|data];
      [| |contradiction];
      destruct (Hchildren children Hchild Hplain)
        as (s & e & Hs & He & Hscan);
      exists s, e; repeat split; try assumption;
      cbn [withPair]; rewrite getPositions_unfold, Hscan; reflexivity.
Qed.

(** *** The pair in the text that is written *)

Lemma markupAll_app (options : ViewStringify.Options)
    (before after : list Node) :
  markupAll options (before ++ after)
  = markupAll options before +:+ markupAll options after.
Proof.
  induction before as [|child rest IH]; [reflexivity|].
  cbn [app]. now rewrite !markupAll_cons, IH, append_assoc.
Qed.

Lemma markupAll_alter (options : ViewStringify.Options) (f : Node -> Node)
    (pair inner outer : string) :
  forall children i child,
    children !! i = Some child ->
    markup options child = inner +:+ outer ->
    markup options (f child) = inner +:+ pair +:+ outer ->
    exists pre post,
      markupAll options children = pre +:+ post
      /\ markupAll options (alter f i children) = pre +:+ pair +:+ post.
Proof.
  induction children as [|first rest IH]; intros i child Hchild Hplain Hpair;
    [discriminate|].
  destruct i as [|i]; cbn [alter list_alter]; rewrite !markupAll_cons.
  - injection Hchild as ->.
    exists inner, (outer +:+ markupAll options rest).
    rewrite Hplain, Hpair. now rewrite !append_assoc.
  - destruct (IH i child Hchild Hplain Hpair) as (pre & post & -> & ->).
    exists (markup options first +:+ pre), post.
    now rewrite !append_assoc.
Qed.

(** The markup of the tree with the pair is the markup of the tree with
    the two tokens at one place: the element-range tokens when the owner
    has children, the text-range tokens when it is a text. *)
Lemma markup_withPair (options : ViewStringify.Options) (offset : nat) :
  forall path node,
    validPosition node (mkPosition path (Z.of_nat offset)) = true ->
    exists pre post,
      markup options node = pre +:+ post
      /\ markup options (withPair path offset node)
         = pre +:+ match nodeAt path node with
                   | Some (Text _) => "{}"
                   | _ => "[]"
                   end +:+ post.
Proof.
  induction path as [|i rest IH]; intros node Hvalid.
  - apply validPosition_here in Hvalid. cbn [nodeAt].
    destruct node as [children|cls name attrs children|data];
      cbn [withPair]; rewrite !markup_unfold.
    + exists (markupAll options (take offset children)),
        (markupAll options (drop offset children)).
      rewrite <- markupAll_app, take_drop.
      split; [reflexivity|now apply markupAll_pairAmong].
    + exists (ViewStringify._stringifyElementOpen options cls name attrs
              +:+ markupAll options (take offset children)),
        (markupAll options (drop offset children)
         +:+ ViewStringify._stringifyElementClose options cls name).
      rewrite markupAll_pairAmong by exact Hvalid.
      rewrite <- (take_drop offset children) at 1.
      rewrite markupAll_app. now rewrite !append_assoc.
    + destruct (pairInside_split offset data Hvalid)
        as (pre & post & -> & _ & ->).
      now exists pre, post.
  - destruct (validPosition_below _ _ _ _ Hvalid)
      as (child & Hvalid' & Hchild).
    destruct (IH child Hvalid') as (inner & outer & Hplain & Hpair).
    destruct node as [children|cls name attrs children|data];
      [| |contradiction]; cbn [withPair nodeAt]; rewrite Hchild,
        !markup_unfold;
      destruct (markupAll_alter options (withPair rest offset) _ inner outer
                  children i child Hchild Hplain Hpair)
        as (pre & post & -> & ->).
    + now exists pre, post.
    + exists (ViewStringify._stringifyElementOpen options cls name attrs
              +:+ pre),
        (post +:+ ViewStringify._stringifyElementClose options cls name).
      now rewrite !append_assoc.
Qed.

Section CollapsedRange.

Variable toDom : string -> DomNode.
Variable D : Js.Number.


End CollapsedRange.



(** Both kinds of collapsed range, through [stringify] and back. *)
Example collapsed_ranges_round_trip :
  let tree :=
    Element ContainerElement "p" []
      [Text "foo"; Element (AttributeElement 10) "b" [] [Text "bar"]] in
  let selection :=
    mkSelection
      [mkRange (mkPosition [0%nat] 1) (mkPosition [0%nat] 1);
       mkRange (mkPosition [] 2) (mkPosition [] 2)] false in
  stringify tree (Some selection) showAll
  = "<container:p>f{}oo<attribute:b:10>bar</attribute:b:10>[]</container:p>"
  /\ parse Html.toDom 10 (stringify tree (Some selection) showAll) noOptions
     = Ok (ViewAndSelection tree selection).
Proof. split; reflexivity. Qed.

(** In the empty fragment the pair is all there is to read: it comes back
    as a text without parent, which stays, and the range has no owner. *)
Example collapsed_range_in_empty_fragment :
  let at_ := mkPosition [] 0 in
  stringify (DocumentFragment [])
    (Some (mkSelection [mkRange at_ at_] false)) showAll
  = "[]"
  /\ parse Html.toDom 10 "[]" noOptions
     = Ok (ViewAndSelection (Text EmptyString)
             (mkSelection
                [mkRange (nullPosition None) (nullPosition None)] false)).
Proof. split; reflexivity. Qed.

(** ** Further properties: the tag grammar and the tree builder *)

Lemma DomNode_induction (P : DomNode -> Prop) :
  (forall children, Forall P children -> P (DomDocumentFragment children)) ->
  (forall tagName attrs children,
      Forall P children -> P (DomElement tagName attrs children)) ->
  (forall textContent, P (DomText textContent)) ->
  forall domNode, P domNode.
Proof.
  intros Hfragment Helement Htext.
  fix IH 1. intros [children|tagName attrs children|textContent].
  - apply Hfragment. induction children; constructor; auto.
  - apply Helement. induction children; constructor; auto.
  - apply Htext.
Qed.

Lemma convertElement_from_name (D : Js.Number) (tagName : string)
    (attrs : list (string * string)) :
  ViewParser._convertElement D tagName attrs
  = (info <-! ViewParser._convertElementName tagName ;;
     Ok (Element
           (if bool_decide (ViewParser.type info = Some "attribute") then
              match ViewParser.priority info with
              | Some p => AttributeElement p
              | None => AttributeElement D
              end
            else if bool_decide (ViewParser.type info = Some "container")
                 then ContainerElement
                 else ViewElement)
           (ViewParser.name info)
           (fold_left (fun acc kv => setAttribute (fst kv) (snd kv) acc)
              attrs [])
           [])).
Proof. reflexivity. Qed.

Section TagTable.

Variable D : Js.Number.
Variables tagName N P : string.
Variable attrs : list (string * string).
Hypothesis N_segment : noColon N = true.
Hypothesis P_segment : noColon P = true.

(** X1.  A tag name without colon gives a plain element; "container:N"
    gives a container element and "attribute:N" an attribute element with
    the default priority.  The name is lower-cased, and it may be empty. *)
Theorem tag_without_priority :
  (Js.toLowerCase tagName = N ->
   ViewParser._convertElement D tagName attrs
   = Ok (Element ViewElement N (copyAttributes attrs) []))
  /\ (Js.toLowerCase tagName = "container:" +:+ N ->
      ViewParser._convertElement D tagName attrs
      = Ok (Element ContainerElement N (copyAttributes attrs) []))
  /\ (Js.toLowerCase tagName = "attribute:" +:+ N ->
      ViewParser._convertElement D tagName attrs
      = Ok (Element (AttributeElement D) N (copyAttributes attrs) [])).
Proof.
  repeat apply conj; intros Hlow; rewrite convertElement_from_name;
    unfold ViewParser._convertElementName; rewrite Hlow.
  - now rewrite (split_noColon N N_segment).
  - change ("container:" +:+ N) with ("container" +:+ String ":" N).
    rewrite (split_segment "container" N eq_refl).
    now rewrite (split_noColon N N_segment).
  - change ("attribute:" +:+ N) with ("attribute" +:+ String ":" N).
    rewrite (split_segment "attribute" N eq_refl).
    now rewrite (split_noColon N N_segment).
Qed.

(** X2.  A tag name of three segments [T:N:P] is accepted exactly when [T]
    is "container" or "attribute" and [P] starts with a number; a container
    element then drops the priority.  Four segments or more are always
    refused.  The error carries the lower-cased tag name. *)
Theorem tag_with_three_segments (T rest : string) :
  noColon T = true ->
  (Js.toLowerCase tagName = T +:+ ":" +:+ N +:+ ":" +:+ P ->
   ViewParser._convertElement D tagName attrs
   = match ViewParser._convertType T, Js.parseInt10 P with
     | Some type, Some priority =>
         Ok (Element
               (if bool_decide (type = "attribute")
                then AttributeElement priority else ContainerElement)
               N (copyAttributes attrs) [])
     | _, _ => Throw (TagGrammarError (T +:+ ":" +:+ N +:+ ":" +:+ P))
     end)
  /\ (Js.toLowerCase tagName = T +:+ ":" +:+ N +:+ ":" +:+ P +:+ ":" +:+ rest ->
      ViewParser._convertElement D tagName attrs
      = Throw (TagGrammarError
                 (T +:+ ":" +:+ N +:+ ":" +:+ P +:+ ":" +:+ rest))).
Proof.
  intros T_segment. split; intros Hlow; rewrite convertElement_from_name;
    unfold ViewParser._convertElementName; rewrite Hlow.
  - change (T +:+ ":" +:+ N +:+ ":" +:+ P)
      with (T +:+ String ":" (N +:+ String ":" P)).
    rewrite (split_segment T _ T_segment), (split_segment N _ N_segment).
    rewrite (split_noColon P P_segment).
    unfold ViewParser._convertPriority, ViewParser._convertType.
    destruct (bool_decide (T = "container")) eqn:Hc;
      destruct (bool_decide (T = "attribute")) eqn:Ha;
      destruct (Js.parseInt10 P); simpl; try reflexivity;
      try (apply bool_decide_eq_true in Hc);
      try (apply bool_decide_eq_true in Ha); subst; try discriminate;
      try reflexivity.
  - change (T +:+ ":" +:+ N +:+ ":" +:+ P +:+ ":" +:+ rest)
      with (T +:+ String ":" (N +:+ String ":" (P +:+ String ":" rest))).
    rewrite (split_segment T _ T_segment), (split_segment N _ N_segment).
    rewrite (split_segment P _ P_segment).
    destruct rest as [|c rest']; simpl.
    + reflexivity.
    + destruct (bool_decide (c = ":"%char)); [reflexivity|].
      destruct (Js.split ":" rest'); reflexivity.
Qed.

End TagTable.

Lemma tag_without_priority_witness :
  ViewParser._convertElement 10 "SPAN" [("id", "x")]
  = Ok (Element ViewElement "span" [("id", "x")] [])
  /\ ViewParser._convertElement 10 "Container:DIV" []
     = Ok (Element ContainerElement "div" [] [])
  /\ ViewParser._convertElement 10 "attribute:b" []
     = Ok (Element (AttributeElement 10) "b" [] []).
Proof.
  split; [|split].
  - apply (tag_without_priority 10 "SPAN" "span" [("id", "x")] eq_refl).
    reflexivity.
  - apply (tag_without_priority 10 "Container:DIV" "div" [] eq_refl).
    reflexivity.
  - apply (tag_without_priority 10 "attribute:b" "b" [] eq_refl).
    reflexivity.
Defined.

Lemma tag_with_three_segments_witness :
  ViewParser._convertElement 10 "container:div:7" []
  = Ok (Element ContainerElement "div" [] [])
  /\ ViewParser._convertElement 10 "a:b:c:d" []
     = Throw (TagGrammarError "a:b:c:d").
Proof.
  split.
  - apply (tag_with_three_segments 10 "container:div:7" "div" "7" []
             eq_refl eq_refl "container" EmptyString eq_refl).
    reflexivity.
  - apply (tag_with_three_segments 10 "a:b:c:d" "b" "c" []
             eq_refl eq_refl "a" "d" eq_refl).
    reflexivity.
Defined.

Lemma convertElementName_error (tagName : string) (e : Error) :
  ViewParser._convertElementName tagName = Throw e ->
  e = TagGrammarError (Js.toLowerCase tagName).
Proof.
  unfold ViewParser._convertElementName.
  destruct (Js.split ":" (Js.toLowerCase tagName))
    as [|p0 [|p1 [|p2 [|p3 rest]]]]; try congruence.
  - destruct (ViewParser._convertType p0); [discriminate|].
    destruct (ViewParser._convertPriority p1); congruence.
  - destruct (ViewParser._convertType p0), (ViewParser._convertPriority p2);
      congruence.
Qed.

Lemma convertElement_accepted (D : Js.Number) (tagName : string)
    (attrs : list (string * string)) :
  if tagAccepted tagName
  then exists view, ViewParser._convertElement D tagName attrs = Ok view
                    /\ textNodes view = []
  else ViewParser._convertElement D tagName attrs
       = Throw (TagGrammarError (Js.toLowerCase tagName)).
Proof.
  rewrite convertElement_from_name. unfold tagAccepted.
  destruct (ViewParser._convertElementName tagName) as [info|e] eqn:Hname.
  - rewrite bind_Ok. eauto.
  - apply convertElementName_error in Hname. now subst e.
Qed.

Lemma find_app {A : Type} (p : A -> bool) (l1 l2 : list A) :
  find p (l1 ++ l2)
  = match find p l1 with
    | Some x => Some x
    | None => find p l2
    end.
Proof.
  induction l1 as [|x l1 IH]; simpl; [reflexivity|].
  destruct (p x); [reflexivity|exact IH].
Qed.

Lemma mapResult_Forall2 {A B : Type} (f : A -> Result B) (l : list A)
    (vs : list B) :
  mapResult f l = Ok vs -> Forall2 (fun a b => f a = Ok b) l vs.
Proof.
  revert vs. induction l as [|a l IH]; intros vs; simpl.
  - intros [= <-]. constructor.
  - destruct (f a) as [b|e] eqn:Hb; [|discriminate]. rewrite bind_Ok.
    destruct (mapResult f l) as [bs|e]; [|discriminate].
    rewrite bind_Ok. intros [= <-]. constructor; auto.
Qed.

(** The children of a generic node are converted up to the first refused
    tag. *)
Lemma mapResult_walkDom (D : Js.Number) (children : list DomNode) :
  Forall (fun child =>
            match firstRefusedTag child with
            | Some t =>
                ViewParser._walkDom D child
                = Throw (TagGrammarError (Js.toLowerCase t))
            | None => exists view, ViewParser._walkDom D child = Ok view
            end) children ->
  match find (fun t => negb (tagAccepted t)) (flat_map domTags children) with
  | Some t =>
      mapResult (ViewParser._walkDom D) children
      = Throw (TagGrammarError (Js.toLowerCase t))
  | None => exists views, mapResult (ViewParser._walkDom D) children = Ok views
  end.
Proof.
  induction 1 as [|child rest Hchild _ IH]; simpl; [eauto|].
  rewrite find_app. unfold firstRefusedTag in Hchild.
  destruct (find _ (domTags child)) as [t|].
  - now rewrite Hchild.
  - destruct Hchild as [view ->]. rewrite bind_Ok.
    destruct (find _ (flat_map domTags rest)) as [t|].
    + now rewrite IH.
    + destruct IH as [views ->]. rewrite bind_Ok. eauto.
Qed.

(** What [_walkDom] does with a generic tree, by the first tag name that
    the tag grammar refuses. *)
Lemma walkDom_outcome (D : Js.Number) (domNode : DomNode) :
  match firstRefusedTag domNode with
  | Some t =>
      ViewParser._walkDom D domNode
      = Throw (TagGrammarError (Js.toLowerCase t))
  | None => exists view, ViewParser._walkDom D domNode = Ok view
  end.
Proof.
  induction domNode as [children IH|tagName attrs children IH|textContent]
    using DomNode_induction.
  - apply (mapResult_walkDom D) in IH.
    unfold firstRefusedTag in *. cbn [domTags].
    destruct children as [|c1 [|c2 rest]].
    + simpl. eauto.
    + rewrite walkDom_unfold. simpl in IH |- *.
      destruct (find _ (domTags c1 ++ [])) as [t|].
      * destruct (ViewParser._walkDom D c1); simpl in IH; congruence.
      * destruct IH as [views IH].
        destruct (ViewParser._walkDom D c1); simpl in IH; [eauto|discriminate].
    + rewrite walkDom_fragment by (simpl; lia).
      destruct (find _ _) as [t|].
      * now rewrite IH.
      * destruct IH as [views ->]. rewrite bind_Ok. eauto.
  - apply (mapResult_walkDom D) in IH.
    unfold firstRefusedTag in *. cbn [domTags find].
    rewrite walkDom_element.
    pose proof (convertElement_accepted D tagName attrs) as Hown.
    destruct (tagAccepted tagName); cbn [negb].
    + destruct Hown as (view & -> & _). rewrite bind_Ok.
      destruct (find _ _) as [t|].
      * now rewrite IH.
      * destruct IH as [views ->]. rewrite bind_Ok. eauto.
    + now rewrite Hown.
  - simpl. eauto.
Qed.

(** X3.  [_walkDom] fails exactly when the tag grammar refuses the tag name
    of some element of the generic tree, and then with the error of the
    first such element in document order, an element coming before its
    children; no other error comes from the tree builder. *)
Theorem walkDom_first_refused_tag (D : Js.Number) (domNode : DomNode) (e : Error) :
  ViewParser._walkDom D domNode = Throw e
  <-> exists t, firstRefusedTag domNode = Some t
                /\ e = TagGrammarError (Js.toLowerCase t).
Proof.
  pose proof (walkDom_outcome D domNode) as Hwalk.
  destruct (firstRefusedTag domNode) as [t|].
  - rewrite Hwalk. split.
    + intros [= <-]. eauto.
    + now intros (t' & [= <-] & ->).
  - destruct Hwalk as [view ->]. split; [discriminate|].
    now intros (t & Ht & _).
Qed.

Lemma textNodes_appendAll (view : Node) (children : list Node) :
  isText view = false ->
  textNodes (appendAll view children)
  = textNodes view ++ flat_map textNodes children.
Proof.
  intros Hview. destruct view as [cs|cls name attrs cs|data];
    [| |discriminate].
  - rewrite appendAll_fragment. simpl. now rewrite flat_map_app.
  - rewrite appendAll_element. simpl. now rewrite flat_map_app.
Qed.

Lemma Forall2_flat_map_texts (D : Js.Number) (children : list DomNode)
    (views : list Node) :
  Forall (fun child =>
            forall view,
              ViewParser._walkDom D child = Ok view ->
              textNodes view = domTexts child) children ->
  Forall2 (fun child view => ViewParser._walkDom D child = Ok view)
    children views ->
  flat_map textNodes views = flat_map domTexts children.
Proof.
  intros Hall H2. induction H2 as [|child view children views Hc _ IH];
    simpl; [reflexivity|].
  apply Forall_cons_iff in Hall as [Hchild Hall].
  now rewrite (Hchild view Hc), (IH Hall).
Qed.

(** X4.  The tree builder keeps the texts: the text nodes of the view are
    the text nodes of the generic tree, with the same content and in the
    same order. *)
Theorem walkDom_keeps_texts (D : Js.Number) (domNode : DomNode) (view : Node) :
  ViewParser._walkDom D domNode = Ok view ->
  textNodes view = domTexts domNode.
Proof.
  revert view.
  induction domNode as [children IH|tagName attrs children IH|textContent]
    using DomNode_induction; intros view.
  - destruct children as [|c1 [|c2 rest]].
    + now intros [= <-].
    + rewrite walkDom_unfold. intros H. simpl. rewrite app_nil_r.
      apply Forall_cons_iff in IH as [IH _]. now apply IH.
    + rewrite walkDom_fragment by (simpl; lia).
      destruct (mapResult _ _) as [views|e] eqn:Hmap; [|discriminate].
      rewrite bind_Ok. intros [= <-].
      apply mapResult_Forall2 in Hmap.
      apply (Forall2_flat_map_texts D _ _ IH Hmap).
  - rewrite walkDom_element.
    pose proof (convertElement_accepted D tagName attrs) as Hown.
    destruct (tagAccepted tagName).
    + destruct Hown as (el & Hel & Htexts). rewrite Hel, bind_Ok.
      destruct (mapResult _ _) as [views|e] eqn:Hmap; [|discriminate].
      rewrite bind_Ok. intros [= <-].
      apply mapResult_Forall2 in Hmap.
      rewrite textNodes_appendAll, Htexts.
      * apply (Forall2_flat_map_texts D _ _ IH Hmap).
      * rewrite convertElement_from_name in Hel.
        destruct (ViewParser._convertElementName tagName); [|discriminate].
        rewrite bind_Ok in Hel. now injection Hel as <-.
    + rewrite Hown. discriminate.
  - now intros [= <-].
Qed.

Lemma walkDom_keeps_texts_witness :
  textNodes
    (Element ContainerElement "p" []
       [Text "a b"; Element (AttributeElement 3) "b" [] [Text "[c]"]])
  = ["a b"; "[c]"].
Proof.
  apply (walkDom_keeps_texts 10
           (DomDocumentFragment
              [DomElement "CONTAINER:P" []
                 [DomText "a b"; DomElement "B:3" [] [DomText "[c]"]]])).
  reflexivity.
Defined.

(** ** Further properties: the display options *)

(** The tag name that [stringify] writes, for any options. *)
Lemma elementName_options (options : ViewStringify.Options)
    (cls : ElementClass) (name : string) :
  name <> EmptyString ->
  (ViewStringify.showPriority options = true -> plainClass cls = true) ->
  ViewStringify.elementName options cls name
  = match cls with
    | ViewElement => name
    | ContainerElement =>
        if ViewStringify.showType options
        then "container" +:+ String ":" name
        else name
    | AttributeElement priority =>
        if ViewStringify.showType options then
          if ViewStringify.showPriority options
          then "attribute" +:+ String ":"
                 (name +:+ String ":" (Js.numberToString priority))
          else "attribute" +:+ String ":" name
        else if ViewStringify.showPriority options
             then name +:+ String ":" (Js.numberToString priority)
             else name
    end.
Proof.
  intros Hname Hcls. unfold ViewStringify.elementName.
  assert (Hn : ViewStringify.nonEmpty name = true).
  { unfold ViewStringify.nonEmpty. now rewrite bool_decide_eq_false_2. }
  assert (He : ~ ViewStringify.nonEmpty EmptyString = true) by discriminate.
  assert (Hp : forall priority,
             plainNumber priority = true ->
             ViewStringify.nonEmpty (Js.numberToString priority) = true).
  { intros priority Hplain. unfold ViewStringify.nonEmpty.
    rewrite bool_decide_eq_false_2;
      [reflexivity|now apply numberToString_nonempty]. }
  assert (Hjoin2 : forall a, Js.join ":" [a; name] = a +:+ String ":" name).
  { intros a. simpl. destruct name; [congruence|reflexivity]. }
  destruct options as [[] []], cls as [| |priority];
    cbn [ViewStringify._stringifyElementType
           ViewStringify._stringifyElementPriority
           ViewStringify.showType ViewStringify.showPriority] in *;
    repeat first
      [ rewrite filter_cons_True
          by first [exact Hn|apply Hp; now apply Hcls|reflexivity]
      | rewrite filter_cons_False by exact He
      | rewrite filter_nil ];
    try reflexivity; try apply Hjoin2.
Qed.

Section ReadBack.

Variable D : Js.Number.
Variable tagCase : string -> string.
Hypothesis tagCase_lower :
  forall s, Js.toLowerCase (tagCase s) = Js.toLowerCase s.


End ReadBack.


(** Without the type, an attribute element named "attribute" is not read
    back: its priority is taken for the name. *)
Example tag_name_type_word_as_name :
  ViewParser._convertElement 10
    (ViewStringify.elementName (ViewStringify.mkOptions false true)
       (AttributeElement 5) "attribute")
    []
  = Ok (Element (AttributeElement 10) "5" [] []).
Proof. reflexivity. Qed.

(** A priority from 10^21 on is written in exponent form and is read back
    as its first digit. *)
Example tag_name_large_priority :
  ViewStringify.elementName showAll (AttributeElement (10 ^ 21)) "b"
  = "attribute:b:1e+21"
  /\ ViewParser._convertElement 10 "attribute:b:1e+21" []
     = Ok (Element (AttributeElement 1) "b" [] []).
Proof. split; vm_compute; reflexivity. Qed.

(** ** Further properties: the ranges that [parse] returns *)

Lemma createStep_close_any (rs : list Range) (r : Range)
    (item : RangeParser.Item) :
  RangeParser.isStartToken (RangeParser.bracket item) = false ->
  RangeParser.createStep (RangeParser.mkBuilder rs (Some r)) item
  = Ok (RangeParser.mkBuilder
          (rs ++ [mkRange (start r) (RangeParser.position item)]) None).
Proof.
  intros Hs. unfold RangeParser.createStep. simpl. now rewrite Hs.
Qed.

Lemma createStep_first (item : RangeParser.Item) (st : RangeParser.Builder) :
  RangeParser.createStep (RangeParser.mkBuilder [] None) item = Ok st ->
  RangeParser.isStartToken (RangeParser.bracket item) = true
  /\ st = RangeParser.mkBuilder []
            (Some (mkRange (RangeParser.position item)
                     (RangeParser.position item))).
Proof.
  unfold RangeParser.createStep. simpl.
  destruct (RangeParser.isEndToken (RangeParser.bracket item));
    [discriminate|].
  destruct (RangeParser.isStartToken (RangeParser.bracket item));
    [|discriminate].
  now intros [= <-].
Qed.

Lemma createLoop_pairUp (n : nat) :
  forall positions rs,
    (length positions <= n)%nat ->
    RangeParser.createLoop positions (RangeParser.mkBuilder [] None)
    = Ok (RangeParser.mkBuilder rs None)
    <-> pairUp positions = Some rs.
Proof.
  induction n as [|n IH]; intros positions rs Hlen.
  - destruct positions; [|simpl in Hlen; lia]. simpl.
    split; intros [= <-]; reflexivity.
  - destruct positions as [|first [|second rest]].
    + simpl. split; intros [= <-]; reflexivity.
    + simpl. split; [|discriminate].
      destruct (RangeParser.createStep _ first) as [st|e] eqn:Hstep;
        [|discriminate].
      apply createStep_first in Hstep as [_ ->]. discriminate.
    + cbn [RangeParser.createLoop pairUp].
      destruct (RangeParser.isStartToken (RangeParser.bracket first))
        eqn:Hfirst; cycle 1.
      { split; [|discriminate].
        destruct (RangeParser.createStep _ first) as [st|e] eqn:Hstep;
          [|discriminate].
        apply createStep_first in Hstep as [Hs _]. congruence. }
      rewrite (createStep_open [] first Hfirst), bind_Ok.
      destruct (RangeParser.isStartToken (RangeParser.bracket second))
        eqn:Hsecond; cbn [negb andb].
      { split; [|discriminate].
        rewrite createStep_start_while_open; [discriminate|eauto|exact Hsecond]. }
      rewrite (createStep_close_any [] _ second Hsecond), bind_Ok.
      cbn [app start]. rewrite createLoop_ranges.
      simpl in Hlen.
      assert (Hrest : forall rs',
                 RangeParser.createLoop rest (RangeParser.mkBuilder [] None)
                 = Ok (RangeParser.mkBuilder rs' None)
                 <-> pairUp rest = Some rs')
        by (intros rs'; apply IH; lia).
      destruct (RangeParser.createLoop rest _) as [[rs' slot]|e];
        cbn [bind RangeParser.ranges RangeParser.range].
      * destruct slot as [r|].
        -- split; [discriminate|].
           destruct (pairUp rest) as [rs''|]; [|discriminate].
           discriminate (proj2 (Hrest rs'') eq_refl).
        -- rewrite (proj1 (Hrest rs') eq_refl). simpl.
           split; intros [= <-]; reflexivity.
      * split; [discriminate|].
        destruct (pairUp rest) as [rs''|]; [|discriminate].
        discriminate (proj2 (Hrest rs'') eq_refl).
Qed.

Lemma pairUp_length (positions : list RangeParser.Item) :
  forall rs, pairUp positions = Some rs ->
             length positions = (2 * length rs)%nat.
Proof.
  assert (H : forall n positions rs,
             (length positions <= n)%nat ->
             pairUp positions = Some rs ->
             length positions = (2 * length rs)%nat).
  { induction n as [|n IH]; intros ps rs Hlen.
    - destruct ps; [|simpl in Hlen; lia]. now intros [= <-].
    - destruct ps as [|first [|second rest]]; simpl.
      + now intros [= <-].
      + discriminate.
      + destruct (_ && _); [|discriminate].
        destruct (pairUp rest) as [rs'|] eqn:Hp; [|discriminate].
        intros [= <-]. simpl in Hlen |- *.
        rewrite (IH rest rs'); [lia|lia|exact Hp]. }
  intros rs. now apply (H (length positions)).
Qed.

Lemma createRanges_iff_pairUp (positions : list RangeParser.Item)
    (rs : list Range) :
  RangeParser._createRanges positions = Ok rs <-> pairUp positions = Some rs.
Proof.
  rewrite <- (createLoop_pairUp (length positions) positions rs (le_n _)).
  unfold RangeParser._createRanges. split.
  - apply createRanges_Ok_loop.
  - now intros ->.
Qed.

(** X6.  [_createRanges] succeeds exactly on the streams that pair up: a
    start token, then an item that is not a start token, again and again.
    The ranges are these pairs, in the order of the stream, so there are
    half as many ranges as positions and no two ranges share a position of
    the stream. *)
Theorem createRanges_pairs_positions (positions : list RangeParser.Item)
    (rs : list Range) :
  (RangeParser._createRanges positions = Ok rs
   <-> pairUp positions = Some rs)
  /\ (RangeParser._createRanges positions = Ok rs ->
      length positions = (2 * length rs)%nat).
Proof.
  split; [apply createRanges_iff_pairUp|].
  intros H. apply createRanges_iff_pairUp in H. now apply pairUp_length.
Qed.

Lemma createRanges_pairs_positions_witness :
  length
    [RangeParser.mkItem "[" (mkPosition [] 0);
     RangeParser.mkItem "]" (mkPosition [] 1);
     RangeParser.mkItem "{" (mkPosition [1%nat] 0);
     RangeParser.mkItem "}" (mkPosition [1%nat] 2)]
  = (2 * length
           [mkRange (mkPosition [] 0) (mkPosition [] 1);
            mkRange (mkPosition [1%nat] 0) (mkPosition [1%nat] 2)])%nat.
Proof.
  apply (createRanges_pairs_positions _ _). reflexivity.
Defined.

Lemma createLoop_errors (positions : list RangeParser.Item)
    (st : RangeParser.Builder) (e : Error) :
  RangeParser.createLoop positions st = Throw e ->
  e = HostError \/ exists why, e = UnbalancedRangeError why.
Proof.
  revert st. induction positions as [|item positions IH]; intros st; simpl;
    [discriminate|].
  destruct (RangeParser.createStep st item) as [st'|e'] eqn:Hstep.
  - rewrite bind_Ok. apply IH.
  - intros [= <-]. unfold RangeParser.createStep in Hstep.
    repeat match type of Hstep with
           | (if ?b then _ else _) = _ => destruct b
           | match ?o with Some _ => _ | None => _ end = _ => destruct o
           end; try discriminate Hstep; injection Hstep as <-; eauto.
Qed.

Lemma createRanges_errors (positions : list RangeParser.Item) (e : Error) :
  RangeParser._createRanges positions = Throw e ->
  e = HostError \/ exists why, e = UnbalancedRangeError why.
Proof.
  unfold RangeParser._createRanges.
  destruct (RangeParser.createLoop positions _) as [st|e'] eqn:Hloop.
  - rewrite bind_Ok. destruct (RangeParser.range st); [|discriminate].
    intros [= <-]. eauto.
  - intros [= <-]. now apply createLoop_errors in Hloop.
Qed.

(** The range parser never fails with a tag error. *)
Lemma rangeParser_no_tag_error (view : Node) (order : list Z) (e : Error) :
  RangeParser.parse view order = Throw e ->
  forall tagName, e <> TagGrammarError tagName.
Proof.
  unfold RangeParser.parse.
  destruct (RangeParser._getPositions [] None view) as [scanned|e'] eqn:Hscan.
  - rewrite bind_Ok.
    destruct (RangeParser._createRanges (snd scanned)) as [rs|e'] eqn:Hrs.
    + rewrite bind_Ok.
      destruct (negb (length order =? 0)%nat); [|discriminate].
      destruct (negb (length order =? length rs)%nat).
      * intros [= <-] tagName. discriminate.
      * unfold RangeParser._sortRanges. rewrite sortLoop_spec.
        destruct (forallb _ order); [discriminate|].
        intros [= <-] tagName. discriminate.
    + intros [= <-] tagName.
      apply createRanges_errors in Hrs as [->|[why ->]]; discriminate.
  - intros [= <-] tagName.
    apply getPositions_Throw in Hscan as (b & flag & -> & _).
    discriminate.
Qed.

Section ParseResult.

Variable toDom : string -> DomNode.
Variable D : Js.Number.

(** X7.  A refused tag name is reported before anything else: when the
    tag grammar refuses the tag name of an element, [parse] fails with the
    error of the first such element whatever the texts hold and whatever
    the order option is; and when it refuses none, [parse] never fails with
    a tag error. *)
Theorem parse_reports_refused_tag_first (data : string)
    (options : ParseOptions) :
  match firstRefusedTag (toDom data) with
  | Some t =>
      parse toDom D data options = Throw (TagGrammarError (Js.toLowerCase t))
  | None =>
      forall tagName,
        parse toDom D data options <> Throw (TagGrammarError tagName)
  end.
Proof.
  pose proof (walkDom_outcome D (toDom data)) as Hwalk.
  unfold parse, ViewParser.parse.
  destruct (firstRefusedTag (toDom data)) as [t|].
  - now rewrite Hwalk.
  - destruct Hwalk as [view ->]. rewrite bind_Ok. intros tagName.
    destruct (RangeParser.parse view (order options)) as [r|e] eqn:Hr.
    + rewrite bind_Ok.
      destruct (negb (length (snd r) =? 0)%nat); [|discriminate].
      unfold setRanges. destruct (denseRanges (snd r)); discriminate.
    + intros [= ->]. now apply (rangeParser_no_tag_error _ _ _ Hr tagName).
Qed.

Lemma denseRanges_length (a : list (option Range)) (l : list Range) :
  denseRanges a = Some l -> length l = length a.
Proof.
  revert l. induction a as [|[r|] a IH]; intros l; simpl.
  - now intros [= <-].
  - destruct (denseRanges a) as [l'|]; [|discriminate].
    intros [= <-]. simpl. now rewrite (IH l').
  - discriminate.
Qed.

Lemma length_assignAll_ge (rs : list Range) (rangesOrder : list Z)
    (index : nat) (sorted : list (option Range)) :
  (length sorted <= length (assignAll rs rangesOrder index sorted))%nat.
Proof.
  revert index sorted.
  induction rangesOrder as [|k rest IH]; intros index sorted; simpl; [lia|].
  etransitivity; [|apply IH]. rewrite length_arraySet. lia.
Qed.

(** X8.  What [parse] returns tells whether markers were found.  It
    returns the view alone exactly when no text holds a character that the
    scanner matches; otherwise it returns a selection, which is never
    empty and carries the [lastRangeBackward] option. *)
Theorem parse_return_shape (data : string) (options : ParseOptions)
    (view : Node) (parsed : Parsed) :
  ViewParser.parse D toDom data = Ok view ->
  parse toDom D data options = Ok parsed ->
  match parsed with
  | View _ => flat_map matched (textNodes view) = []
  | ViewAndSelection _ selection =>
      flat_map matched (textNodes view) <> []
      /\ getRanges selection <> []
      /\ lastRangeBackward selection = optLastRangeBackward options
  end.
Proof.
  intros Hview. unfold parse, RangeParser.parse. rewrite Hview, !bind_Ok.
  destruct (RangeParser._getPositions [] None view) as [scanned|e] eqn:Hscan;
    [|discriminate].
  rewrite !bind_Ok.
  destruct (RangeParser._createRanges (snd scanned)) as [rs|e] eqn:Hrs;
    [|discriminate].
  rewrite !bind_Ok.
  apply getPositions_Ok in Hscan as (_ & Hbrackets & _).
  apply createRanges_iff_pairUp, pairUp_length in Hrs.
  assert (Hfound : flat_map matched (textNodes view) = [] <-> rs = []).
  { rewrite <- Hbrackets. split.
    - intros E. apply (f_equal (@length _)) in E.
      rewrite length_map, Hrs in E. destruct rs; [reflexivity|discriminate].
    - intros ->. simpl in Hrs. now destruct (snd scanned). }
  destruct (negb (length (order options) =? 0)%nat) eqn:Horder.
  - destruct (negb (length (order options) =? length rs)%nat) eqn:Hlen;
      [discriminate|].
    apply negb_true_iff, Nat.eqb_neq in Horder.
    apply negb_false_iff, Nat.eqb_eq in Hlen.
    unfold RangeParser._sortRanges. rewrite sortLoop_spec.
    destruct (forallb _ (order options)); [|discriminate].
    rewrite !bind_Ok. cbn [fst snd].
    destruct (order options) as [|k rest] eqn:Eorder; [now contradict Horder|].
    assert (Hpos : length (assignAll rs (k :: rest) 0 []) <> 0%nat).
    { simpl.
      pose proof (length_assignAll_ge rs rest 1
                    (arraySet [] (Z.to_nat (k - 1)) (rs !! 0%nat))) as Hge.
      rewrite length_arraySet in Hge. lia. }
    apply Nat.eqb_neq in Hpos. rewrite Hpos. cbn [negb]. unfold setRanges.
    destruct (denseRanges _) as [l|] eqn:Hdense; [|discriminate].
    rewrite bind_Ok. intros [= <-]. cbn [getRanges lastRangeBackward].
    apply denseRanges_length in Hdense. apply Nat.eqb_neq in Hpos.
    repeat split.
    + rewrite Hfound. intros ->. simpl in Hlen. discriminate.
    + intros ->. simpl in Hdense, Hpos. congruence.
  - rewrite bind_Ok. cbn [fst snd]. rewrite length_map.
    destruct rs as [|r rs']; cbn [length Nat.eqb negb].
    + intros [= <-]. now apply Hfound.
    + unfold setRanges. rewrite denseRanges_map_Some, bind_Ok.
      intros [= <-]. cbn [getRanges lastRangeBackward].
      repeat split; [|discriminate].
      rewrite Hfound. discriminate.
Qed.

Lemma assignAll_identity (rs : list Range) (m : nat) :
  forall k sorted,
    length sorted = k ->
    (k + m <= length rs)%nat ->
    assignAll rs (map (fun i => Z.of_nat (S i)) (seq k m)) k sorted
    = sorted ++ map Some (take m (drop k rs)).
Proof.
  induction m as [|m IH]; intros k sorted Hlen Hk; simpl.
  - now rewrite app_nil_r.
  - replace (Z.to_nat (Z.of_nat (S k) - 1)) with k by lia.
    destruct (rs !! k) as [r|] eqn:Hr; cycle 1.
    { apply lookup_ge_None in Hr. lia. }
    assert (Hset : arraySet sorted k (Some r) = sorted ++ [Some r]).
    { unfold arraySet. rewrite Hlen, Nat.ltb_irrefl, Nat.sub_diag.
      reflexivity. }
    rewrite Hset, IH; [|rewrite length_app; simpl; lia|lia].
    rewrite <- app_assoc. f_equal.
    rewrite (drop_S rs r k Hr). reflexivity.
Qed.

Lemma forallb_identityOrder (n : nat) (k m : nat) :
  (k + m <= n)%nat ->
  forallb (inRange n) (map (fun i => Z.of_nat (S i)) (seq k m)) = true.
Proof.
  revert k. induction m as [|m IH]; intros k Hk; simpl; [reflexivity|].
  rewrite IH by lia. rewrite andb_true_r.
  apply inRange_target. lia.
Qed.

(** X9.  The order [1, 2, ..., n] changes nothing: when [parse] without
    order returns a selection of [n] ranges, it returns the same view and
    the same selection with that order. *)
Theorem parse_identity_order (data : string) (backward : bool) (view : Node)
    (rs : list Range) :
  parse toDom D data (mkParseOptions [] backward)
  = Ok (ViewAndSelection view (mkSelection rs backward)) ->
  parse toDom D data (mkParseOptions (identityOrder (length rs)) backward)
  = Ok (ViewAndSelection view (mkSelection rs backward)).
Proof.
  intros H. unfold parse, RangeParser.parse in *.
  destruct (ViewParser.parse D toDom data) as [view0|e]; [|discriminate].
  rewrite !bind_Ok in *.
  destruct (RangeParser._getPositions [] None view0) as [scanned|e];
    [|discriminate].
  rewrite !bind_Ok in *.
  destruct (RangeParser._createRanges (snd scanned)) as [rs0|e];
    [|discriminate].
  rewrite !bind_Ok in *. cbn [order optLastRangeBackward] in *.
  cbn [length Nat.eqb negb] in H. rewrite bind_Ok in H. cbn [fst snd] in H.
  destruct (length (map Some rs0) =? 0)%nat eqn:Hzero; [discriminate|].
  cbn [negb] in H. unfold setRanges in H.
  rewrite denseRanges_map_Some, bind_Ok in H.
  injection H as Hview Hrs. subst rs0 view.
  rewrite length_map in Hzero.
  unfold identityOrder. rewrite length_map, length_seq, Hzero, Nat.eqb_refl.
  cbn [negb]. unfold RangeParser._sortRanges. rewrite sortLoop_spec.
  rewrite forallb_identityOrder by lia.
  rewrite (assignAll_identity rs (length rs) 0 []) by (simpl; lia).
  rewrite drop_0, firstn_all, !bind_Ok. cbn [app fst snd].
  rewrite length_map, Hzero. cbn [negb]. unfold setRanges.
  now rewrite denseRanges_map_Some.
Qed.

End ParseResult.

Lemma parse_return_shape_witness :
  flat_map matched ["fo{o}"] <> []
  /\ [mkRange (mkPosition [0%nat] 2) (mkPosition [0%nat] 3)] <> []
  /\ true = true.
Proof.
  apply (parse_return_shape Html.toDom 10 "<p>fo{o}</p>"
           (mkParseOptions [] true)
           (Element ViewElement "p" [] [Text "fo{o}"])
           (ViewAndSelection (Element ViewElement "p" [] [Text "foo"])
              (mkSelection
                 [mkRange (mkPosition [0%nat] 2) (mkPosition [0%nat] 3)]
                 true)));
    reflexivity.
Defined.

Lemma parse_identity_order_witness :
  parse Html.toDom 10 "<p>{a}{b}</p>" (mkParseOptions [1; 2] false)
  = Ok (ViewAndSelection (Element ViewElement "p" [] [Text "ab"])
          (mkSelection
             [mkRange (mkPosition [0%nat] 0) (mkPosition [0%nat] 1);
              mkRange (mkPosition [0%nat] 1) (mkPosition [0%nat] 2)] false)).
Proof.
  apply (parse_identity_order Html.toDom 10 "<p>{a}{b}</p>" false
           (Element ViewElement "p" [] [Text "ab"])
           [mkRange (mkPosition [0%nat] 0) (mkPosition [0%nat] 1);
            mkRange (mkPosition [0%nat] 1) (mkPosition [0%nat] 2)]).
  reflexivity.
Defined.

(** ** Further properties: the scanner and the text of [stringify] *)

Lemma length_scan_strip (data : string) (index offset : nat) :
  (length (RangeParser.scan data index offset)
   + String.length (RangeParser.strip data))%nat
  = String.length data.
Proof.
  revert index offset. induction data as [|c data IH]; intros index offset;
    simpl; [reflexivity|].
  destruct (RangeParser.matches c); simpl.
  - rewrite <- (IH (S index) (S offset)). lia.
  - rewrite <- (IH (S index) offset). lia.
Qed.

Lemma scan_monotone (data : string) :
  forall index offset i j b1 b2,
    (offset <= index)%nat -> (i <= j)%nat ->
    RangeParser.scan data index offset !! i = Some b1 ->
    RangeParser.scan data index offset !! j = Some b2 ->
    (RangeParser.textOffset b1 <= RangeParser.textOffset b2)%nat.
Proof.
  induction data as [|c data IH]; intros index offset i j b1 b2 Hle Hij;
    simpl; [discriminate|].
  destruct (RangeParser.matches c).
  - destruct i as [|i]; simpl.
    + intros [= <-]. destruct j as [|j]; simpl; [now intros [= <-]|].
      intros Hj. simpl.
      pose proof (scan_offset_bound data (S index) (S offset)
                    ltac:(lia)) as Hbound.
      rewrite Forall_forall in Hbound.
      assert (Hin : b2 ∈ RangeParser.scan data (S index) (S offset))
        by (apply list_elem_of_lookup; eauto).
      apply Hbound in Hin. lia.
    + destruct j as [|j]; [lia|]. simpl. apply IH; lia.
  - apply IH; lia.
Qed.

(** X10.  The scan accounts for every character of a text: a character is
    either recorded or kept, the recorded characters are the matched ones
    in order, every recorded offset is an offset into the stripped text,
    and the offsets never decrease. *)
Theorem scan_accounts_for_text (data : string) :
  (length (RangeParser.scan data 0 0)
   + String.length (RangeParser.strip data))%nat = String.length data
  /\ map RangeParser.bracketChar (RangeParser.scan data 0 0) = matched data
  /\ noneOf RangeParser.matches (RangeParser.strip data) = true
  /\ Forall (fun b =>
               (RangeParser.textOffset b
                <= String.length (RangeParser.strip data))%nat)
       (RangeParser.scan data 0 0)
  /\ (forall i j b1 b2,
         (i <= j)%nat ->
         RangeParser.scan data 0 0 !! i = Some b1 ->
         RangeParser.scan data 0 0 !! j = Some b2 ->
         (RangeParser.textOffset b1 <= RangeParser.textOffset b2)%nat).
Proof.
  repeat apply conj.
  - apply length_scan_strip.
  - apply scan_matched.
  - apply strip_noneOf.
  - eapply Forall_impl; [apply (scan_offset_bound data 0 0); lia|].
    simpl. intros b Hb. lia.
  - intros i j b1 b2. apply scan_monotone. lia.
Qed.

Lemma strip_app (a b : string) :
  RangeParser.strip (a +:+ b) = RangeParser.strip a +:+ RangeParser.strip b.
Proof.
  induction a as [|c a IH]; simpl; [reflexivity|].
  destruct (RangeParser.matches c); simpl; now rewrite IH.
Qed.

Lemma strip_tokensFor (select : Range -> bool) (tokens : string)
    (ranges : list Range) :
  RangeParser.strip tokens = EmptyString ->
  RangeParser.strip (tokensFor select tokens ranges) = EmptyString.
Proof.
  intros Htokens. induction ranges as [|r ranges IH]; simpl; [reflexivity|].
  rewrite strip_app, IH. now destruct (select r); rewrite ?Htokens.
Qed.

Lemma strip_boundaryTokens (ranges : list Range) (at_ : Position) :
  RangeParser.strip
    (boundaryTokens TEXT_RANGE_START_TOKEN TEXT_RANGE_END_TOKEN ranges at_)
  = EmptyString.
Proof.
  unfold boundaryTokens.
  now rewrite !strip_app, !strip_tokensFor by reflexivity.
Qed.

Lemma strip_textWithTokens (ranges : list Range) (node : NodeRef)
    (data : string) :
  forall i,
    RangeParser.strip (textWithTokens ranges node i data)
    = RangeParser.strip data.
Proof.
  induction data as [|c data IH]; intros i; cbn [textWithTokens];
    rewrite strip_app, strip_boundaryTokens.
  - reflexivity.
  - simpl. now rewrite IH.
Qed.

(** X11.  The range tokens are all that [stringify] adds to a text: for
    any ranges, stripping what it writes for a text node gives what
    stripping the text itself gives, and gives the text back when the text
    holds no space and no token. *)
Theorem strip_undoes_text_tokens (ranges : list Range) (node : NodeRef)
    (data : string) :
  RangeParser.strip (ViewStringify._stringifyTextRanges ranges node data)
  = RangeParser.strip data
  /\ (noneOf RangeParser.matches data = true ->
      RangeParser.strip (ViewStringify._stringifyTextRanges ranges node data)
      = data).
Proof.
  rewrite stringifyTextRanges_tokens, strip_textWithTokens.
  split; [reflexivity|]. intros Hplain.
  now destruct (scan_plain data 0 0 Hplain).
Qed.

Lemma strip_undoes_text_tokens_witness :
  RangeParser.strip
    (ViewStringify._stringifyTextRanges
       [mkRange (mkPosition [0%nat] 1) (mkPosition [0%nat] 3);
        mkRange (mkPosition [0%nat] 3) (mkPosition [0%nat] 3)]
       [0%nat] "foobar")
  = "foobar".
Proof.
  apply (strip_undoes_text_tokens _ [0%nat] "foobar"). reflexivity.
Defined.

Lemma tokensFor_none (select : Range -> bool) (tokens : string)
    (ranges : list Range) :
  Forall (fun r => select r = false) ranges ->
  tokensFor select tokens ranges = EmptyString.
Proof.
  induction 1 as [|r ranges Hr _ IH]; simpl; [reflexivity|].
  now rewrite Hr, IH.
Qed.

Lemma textWithTokens_none (ranges : list Range) (node : NodeRef)
    (data : string) :
  forall i,
    (forall j, (i <= j <= i + String.length data)%nat ->
               boundaryTokens TEXT_RANGE_START_TOKEN TEXT_RANGE_END_TOKEN
                 ranges (mkPosition node (Z.of_nat j)) = EmptyString) ->
    textWithTokens ranges node i data = data.
Proof.
  induction data as [|c data IH]; intros i Hnone; cbn [textWithTokens];
    rewrite Hnone by (simpl; lia).
  - reflexivity.
  - simpl. rewrite IH; [reflexivity|].
    intros j Hj. apply Hnone. simpl. lia.
Qed.

(** X12.  A range that is not in the text node, or whose offsets lie
    beyond the text, writes nothing: when every range starts and ends in
    another node, below 0 or behind the end of the text,
    [_stringifyTextRanges] returns the text as it is. *)
Theorem text_ranges_out_of_bounds (ranges : list Range) (node : NodeRef)
    (data : string) :
  Forall (fun r => outsideText node (String.length data) (start r)
                   /\ outsideText node (String.length data) (end_ r))
    ranges ->
  ViewStringify._stringifyTextRanges ranges node data = data.
Proof.
  intros Hout. rewrite stringifyTextRanges_tokens.
  apply textWithTokens_none. intros j Hj.
  assert (Hmiss : forall p : Position,
             outsideText node (String.length data) p ->
             bool_decide (p = mkPosition node (Z.of_nat j)) = false).
  { intros [n o|o] Hp; apply bool_decide_eq_false_2; [|discriminate].
    intros [= -> ->].
    destruct Hp as [Hp|[Hp|Hp]]; simpl in Hp; [congruence|lia|lia]. }
  unfold boundaryTokens.
  rewrite !tokensFor_none; [reflexivity| | |];
    (eapply Forall_impl; [exact Hout|]); simpl; intros r [Hs He];
    unfold startsAt, collapsedAt, endsAt;
    rewrite ?(Hmiss _ Hs), ?(Hmiss _ He); reflexivity.
Qed.

Lemma text_ranges_out_of_bounds_witness :
  ViewStringify._stringifyTextRanges
    [mkRange (mkPosition [0%nat] 4) (mkPosition [0%nat] 9);
     mkRange (mkPosition [1%nat] 0) (mkPosition [1%nat] 2)]
    [0%nat] "foo"
  = "foo".
Proof.
  apply text_ranges_out_of_bounds.
  constructor; [split; right; right; simpl; lia|].
  constructor; [split; left; discriminate|].
  constructor.
Defined.

(** A range that starts in the text and ends beyond it is written with its
    start token only. *)
Example text_range_end_beyond_text :
  ViewStringify._stringifyTextRanges
    [mkRange (mkPosition [0%nat] 1) (mkPosition [0%nat] 9)] [0%nat] "foo"
  = "f{oo".
Proof. reflexivity. Qed.

Lemma textWithTokens_skip (ranges : list Range) (node : NodeRef)
    (a rest : string) :
  forall i,
    (forall j, (i <= j < i + String.length a)%nat ->
               boundaryTokens TEXT_RANGE_START_TOKEN TEXT_RANGE_END_TOKEN
                 ranges (mkPosition node (Z.of_nat j)) = EmptyString) ->
    textWithTokens ranges node i (a +:+ rest)
    = a +:+ textWithTokens ranges node (i + String.length a) rest.
Proof.
  induction a as [|ch a IH]; intros i Hnone.
  - simpl. now replace (i + 0)%nat with i by lia.
  - change (String ch a +:+ rest) with (String ch (a +:+ rest)).
    cbn [textWithTokens]. rewrite Hnone by (simpl; lia).
    simpl. rewrite IH.
    + now replace (S i + String.length a)%nat
        with (i + S (String.length a))%nat by lia.
    + intros j Hj. apply Hnone. simpl. lia.
Qed.

Lemma tokens_of_range (s e here : Position) :
  s <> e ->
  boundaryTokens TEXT_RANGE_START_TOKEN TEXT_RANGE_END_TOKEN [mkRange s e] here
  = (if bool_decide (e = here) then "}" else EmptyString)
    +:+ (if bool_decide (s = here) then "{" else EmptyString).
Proof.
  intros Hne. unfold boundaryTokens, endsAt, collapsedAt, startsAt, isCollapsed.
  simpl. rewrite (bool_decide_eq_false_2 (s = e)) by exact Hne. simpl.
  rewrite !andb_true_r, andb_false_r.
  destruct (bool_decide (e = here)), (bool_decide (s = here)); reflexivity.
Qed.

Section TextRange.

Variable self : NodeRef.
Variable home : option (NodeRef * nat).
Variables a b c : string.
Hypothesis a_plain : noneOf RangeParser.matches a = true.
Hypothesis b_plain : noneOf RangeParser.matches b = true.
Hypothesis c_plain : noneOf RangeParser.matches c = true.
Hypothesis b_not_empty : b <> EmptyString.

Lemma text_range_written :
  ViewStringify._stringifyTextRanges
    [mkRange (mkPosition self (Z.of_nat (String.length a)))
       (mkPosition self (Z.of_nat (String.length a + String.length b)))]
    self (a +:+ b +:+ c)
  = a +:+ "{" +:+ b +:+ "}" +:+ c.
Proof.
  rewrite stringifyTextRanges_tokens.
  destruct b as [|ch b'] eqn:Hb; [congruence|].
  set (s := mkPosition self (Z.of_nat (String.length a))).
  set (e := mkPosition self
              (Z.of_nat (String.length a + String.length (String ch b')))).
  assert (Hne : s <> e).
  { unfold s, e. intros [= E]. simpl in E. lia. }
  assert (Htok : forall j,
             boundaryTokens TEXT_RANGE_START_TOKEN TEXT_RANGE_END_TOKEN
               [mkRange s e] (mkPosition self (Z.of_nat j))
             = (if bool_decide
                     (j = String.length a + String.length (String ch b'))%nat
                then "}" else EmptyString)
               +:+ (if bool_decide (j = String.length a)
                    then "{" else EmptyString)).
  { intros j. rewrite (tokens_of_range s e _ Hne). unfold s, e.
    f_equal.
    - destruct (decide (j = String.length a
                            + String.length (String ch b'))%nat) as [->|Hj].
      + now rewrite !bool_decide_eq_true_2.
      + rewrite !bool_decide_eq_false_2; [reflexivity|exact Hj|].
        intros [= E]. simpl in *. lia.
    - destruct (decide (j = String.length a)) as [->|Hj].
      + now rewrite !bool_decide_eq_true_2.
      + rewrite !bool_decide_eq_false_2; [reflexivity|exact Hj|].
        intros [= E]. simpl in *. lia. }
  assert (Hnone : forall j,
             j <> String.length a ->
             j <> (String.length a + String.length (String ch b'))%nat ->
             boundaryTokens TEXT_RANGE_START_TOKEN TEXT_RANGE_END_TOKEN
               [mkRange s e] (mkPosition self (Z.of_nat j)) = EmptyString).
  { intros j H1 H2. rewrite Htok.
    now rewrite !bool_decide_eq_false_2. }
  rewrite (textWithTokens_skip _ _ a _ 0)
    by (intros j Hj; apply Hnone; simpl in *; lia).
  change (String ch b' +:+ c) with (String ch (b' +:+ c)).
  cbn [textWithTokens Nat.add]. rewrite Htok.
  rewrite bool_decide_eq_false_2 by (simpl; lia).
  rewrite bool_decide_eq_true_2 by reflexivity.
  rewrite (textWithTokens_skip _ _ b' _ (S (String.length a)))
    by (intros j Hj; apply Hnone; simpl in *; lia).
  assert (Hend : textWithTokens [mkRange s e] self
                   (S (String.length a) + String.length b') c
                 = "}" +:+ c).
  { destruct c as [|ch' c']; cbn [textWithTokens]; rewrite Htok;
      rewrite bool_decide_eq_true_2 by (simpl; lia);
      rewrite bool_decide_eq_false_2 by (simpl; lia).
    - reflexivity.
    - rewrite textWithTokens_none; [reflexivity|].
      intros j Hj. apply Hnone; simpl in *; lia. }
  rewrite Hend. reflexivity.
Qed.

Lemma text_range_scanned :
  RangeParser.getPositionsOfText self home (a +:+ "{" +:+ b +:+ "}" +:+ c)
  = Ok (Some (Text (a +:+ b +:+ c)),
        [RangeParser.mkItem "{"
           (mkPosition self (Z.of_nat (String.length a)));
         RangeParser.mkItem "}"
           (mkPosition self
              (Z.of_nat (String.length a + String.length b)))]).
Proof.
  unfold RangeParser.getPositionsOfText.
  change (a +:+ "{" +:+ b +:+ "}" +:+ c)
    with (a +:+ String "{" (b +:+ String "}" c)).
  destruct (scan_after_plain a (String "{" (b +:+ String "}" c)) 0 0 a_plain)
    as [-> ->].
  cbn [RangeParser.scan RangeParser.strip RangeParser.matches bool_decide
         orb Nat.add].
  change (RangeParser.matches "{") with true. cbn iota.
  destruct (scan_after_plain b (String "}" c) (S (String.length a)) 1 b_plain)
    as [-> ->].
  cbn [RangeParser.scan RangeParser.strip].
  change (RangeParser.matches "}") with true. cbn iota.
  destruct (scan_plain c (S (S (String.length a) + String.length b)) 2 c_plain)
    as [-> ->].
  assert (Hne : bool_decide (a +:+ b +:+ c = EmptyString) = false).
  { apply bool_decide_eq_false_2. intros E.
    apply append_empty in E as [_ E]. apply append_empty in E as [E _].
    congruence. }
  unfold RangeParser.afterRemove. rewrite Hne.
  cbn [RangeParser.itemPositions].
  unfold RangeParser.itemPosition. rewrite Hne. simpl.
  repeat f_equal; lia.
Qed.

(** X13.  A range inside one text node comes back: the text with the range
    from offset [|a|] to offset [|a| + |b|] is written as [a{b}c]; from
    that the scanner gets the text [abc] back and two positions, and the
    range builder makes the one range of them.  This holds for a text node
    without parent, too. *)
Theorem text_range_round_trip :
  exists items,
    RangeParser.getPositionsOfText self home
      (ViewStringify._stringifyTextRanges
         [mkRange (mkPosition self (Z.of_nat (String.length a)))
            (mkPosition self (Z.of_nat (String.length a + String.length b)))]
         self (a +:+ b +:+ c))
    = Ok (Some (Text (a +:+ b +:+ c)), items)
    /\ RangeParser._createRanges items
       = Ok [mkRange (mkPosition self (Z.of_nat (String.length a)))
               (mkPosition self
                  (Z.of_nat (String.length a + String.length b)))].
Proof.
  rewrite text_range_written, text_range_scanned.
  eexists. split; reflexivity.
Qed.

End TextRange.

Lemma text_range_round_trip_witness :
  exists items,
    RangeParser.getPositionsOfText [] None
      (ViewStringify._stringifyTextRanges
         [mkRange (mkPosition [] 2) (mkPosition [] 5)] [] "foobar")
    = Ok (Some (Text "foobar"), items)
    /\ RangeParser._createRanges items
       = Ok [mkRange (mkPosition [] 2) (mkPosition [] 5)].
Proof.
  apply (text_range_round_trip [] None "fo" "oba" "r"); try reflexivity.
  discriminate.
Defined.

(** ** The positions that are found lie in the tree that is returned *)

Lemma positionAmong_more (self : NodeRef) (kept more : list Node)
    (at_ : Position) :
  positionAmong self kept at_ -> positionAmong self (kept ++ more) at_.
Proof.
  intros [(offset & -> & Hoff)|(i & child & suffix & offset & -> & Hchild & Hin)].
  - left. exists offset. split; [reflexivity|]. rewrite length_app. lia.
  - right. exists i, child, suffix, offset. split; [reflexivity|].
    split; [|exact Hin]. now apply lookup_app_l_Some.
Qed.

Lemma positionAmong_keep (self : NodeRef) (kept : list Node)
    (node : option Node) (at_ : Position) :
  positionAmong self kept at_ ->
  positionAmong self (RangeParser.keep kept node) at_.
Proof.
  destruct node as [n|]; simpl; [apply positionAmong_more|auto].
Qed.

Lemma positionAmong_fragment (self : NodeRef) (kept : list Node)
    (at_ : Position) :
  positionAmong self kept at_ ->
  positionUnder self (DocumentFragment kept) at_.
Proof.
  intros [(offset & -> & Hoff)|(i & child & suffix & offset & -> & Hchild & Hin)].
  - exists [], offset. rewrite app_nil_r. split; [reflexivity|].
    unfold validPosition. simpl.
    apply andb_true_intro. split; [apply Z.leb_le|apply Z.leb_le]; lia.
  - exists (i :: suffix), offset. split; [reflexivity|].
    unfold validPosition in *. simpl in *. now rewrite Hchild.
Qed.

Lemma positionAmong_element (self : NodeRef) (cls : ElementClass)
    (name : string) (attrs : list (string * string)) (kept : list Node)
    (at_ : Position) :
  positionAmong self kept at_ ->
  positionUnder self (Element cls name attrs kept) at_.
Proof.
  intros [(offset & -> & Hoff)|(i & child & suffix & offset & -> & Hchild & Hin)].
  - exists [], offset. rewrite app_nil_r. split; [reflexivity|].
    unfold validPosition. simpl.
    apply andb_true_intro. split; [apply Z.leb_le|apply Z.leb_le]; lia.
  - exists (i :: suffix), offset. split; [reflexivity|].
    unfold validPosition in *. simpl in *. now rewrite Hchild.
Qed.

(** A position placed for the child at index [length kept] is among the
    children once the child has been kept or dropped. *)
Lemma positionPlaced_among (self : NodeRef) (kept : list Node)
    (scanned : option Node) (at_ : Position) :
  positionPlaced (self ++ [length kept]) (Some (self, length kept))
    scanned at_ ->
  positionAmong self (RangeParser.keep kept scanned) at_.
Proof.
  intros [(node & -> & suffix & offset & -> & Hin)
         |[(owner & index & [= <- <-] & Hat)|(Hhome & _)]];
    [| |discriminate].
  - right. exists (length kept), node, suffix, offset.
    rewrite <- app_assoc. split; [reflexivity|].
    split; [|exact Hin]. simpl.
    rewrite lookup_app_r by lia.
    now replace (length kept - length kept)%nat with 0%nat by lia.
  - left. destruct Hat as [->|[-> Hkept]]; eexists; (split; [reflexivity|]).
    + destruct scanned; simpl; [rewrite length_app|]; lia.
    + destruct scanned; [|congruence]. simpl. rewrite length_app. simpl. lia.
Qed.

Lemma positionBeside_placed (self : NodeRef) (home : option (NodeRef * nat))
    (after : bool) (text : string) :
  (after = true -> text <> EmptyString) ->
  positionPlaced self home (RangeParser.afterRemove home text)
    (RangeParser.positionBeside home after).
Proof.
  intros Hafter. right. destruct home as [[owner index]|]; simpl.
  - left. exists owner, index. split; [reflexivity|].
    destruct after; [right|now left]. split; [reflexivity|].
    unfold RangeParser.afterRemove.
    rewrite bool_decide_eq_false_2 by now apply Hafter. discriminate.
  - right. split; [reflexivity|]. split; [now destruct after|].
    exists text. unfold RangeParser.afterRemove.
    now destruct (bool_decide (text = EmptyString)).
Qed.

Lemma itemPosition_placed (self : NodeRef) (home : option (NodeRef * nat))
    (text : string) (b : RangeParser.Bracket) (item : RangeParser.Item) :
  (RangeParser.textOffset b <= String.length text)%nat ->
  RangeParser.itemPosition self home text b = Ok item ->
  positionPlaced self home (RangeParser.afterRemove home text)
    (RangeParser.position item).
Proof.
  intros Hbound. unfold RangeParser.itemPosition.
  destruct (bool_decide (text = EmptyString)) eqn:Hempty; simpl.
  - destruct (RangeParser.isTextToken (RangeParser.bracketChar b));
      [discriminate|].
    intros [= <-]. simpl. apply positionBeside_placed. discriminate.
  - apply bool_decide_eq_false in Hempty.
    destruct (RangeParser.isTextToken (RangeParser.bracketChar b)).
    + intros [= <-]. left. exists (Text text).
      split; [unfold RangeParser.afterRemove;
              now rewrite bool_decide_eq_false_2|].
      exists [], (Z.of_nat (RangeParser.textOffset b)). simpl.
      rewrite app_nil_r. split; [reflexivity|].
      unfold validPosition. simpl.
      apply andb_true_intro. split; apply Z.leb_le; lia.
    + destruct (negb (RangeParser.textOffset b =? 0)%nat
                && negb (RangeParser.textOffset b =? String.length text)%nat);
        [discriminate|].
      intros [= <-]. simpl. apply positionBeside_placed. auto.
Qed.

Lemma getPositionsText_placed (self : NodeRef)
    (home : option (NodeRef * nat)) (data : string)
    (r : option Node * list RangeParser.Item) :
  RangeParser.getPositionsOfText self home data = Ok r ->
  Forall (fun item =>
            positionPlaced self home (fst r) (RangeParser.position item))
    (snd r).
Proof.
  unfold RangeParser.getPositionsOfText.
  set (text := RangeParser.strip data).
  destruct (RangeParser.itemPositions self home text
              (RangeParser.scan data 0 0)) as [items|e] eqn:Hitems;
    [|discriminate].
  rewrite bind_Ok. intros [= <-]. simpl.
  apply itemPositions_Ok in Hitems.
  pose proof (scan_offset_bound data 0 0 (Nat.le_refl 0)) as Hbound.
  fold text in Hbound.
  induction Hitems as [|b item bs items' Hb _ IH]; [constructor|].
  apply Forall_cons_iff in Hbound as [Hb0 Hbound].
  constructor; [|now apply IH].
  apply (itemPosition_placed self home text b item); [|exact Hb].
  simpl in Hb0. lia.
Qed.

Lemma visitChildren_among (self : NodeRef) (children : list Node) :
  Forall (fun child =>
            forall self home r,
              RangeParser._getPositions self home child = Ok r ->
              Forall (fun item =>
                        positionPlaced self home (fst r)
                          (RangeParser.position item)) (snd r)) children ->
  forall kept found r,
    visitChildren self children kept found = Ok r ->
    Forall (fun item => positionAmong self kept (RangeParser.position item))
      found ->
    Forall (fun item =>
              positionAmong self (fst r) (RangeParser.position item))
      (snd r).
Proof.
  induction 1 as [|child rest Hchild _ IH]; intros kept found r.
  - simpl. now intros [= <-].
  - rewrite visitChildren_cons.
    destruct (RangeParser._getPositions _ _ child) as [rc|e] eqn:Hc;
      [|discriminate].
    rewrite bind_Ok. intros Hrest Hfound.
    apply (IH _ _ _ Hrest). apply Forall_app. split.
    + eapply Forall_impl; [exact Hfound|]. intros item.
      apply positionAmong_keep.
    + eapply Forall_impl; [exact (Hchild _ _ _ Hc)|]. intros item.
      apply positionPlaced_among.
Qed.

Lemma getPositions_placed (node : Node) :
  forall self home r,
    RangeParser._getPositions self home node = Ok r ->
    Forall (fun item =>
              positionPlaced self home (fst r) (RangeParser.position item))
      (snd r).
Proof.
  induction node as [children IH|cls name attrs children IH|data]
    using Node_induction; intros self home r; rewrite getPositions_unfold.
  - destruct (visitChildren self children [] []) as [rc|e] eqn:Hv;
      [|discriminate].
    rewrite bind_Ok. intros [= <-]. simpl.
    eapply Forall_impl;
      [exact (visitChildren_among self children IH _ _ _ Hv (List.Forall_nil _))|].
    intros item Hitem. left. eexists. split; [reflexivity|].
    now apply positionAmong_fragment.
  - destruct (visitChildren self children [] []) as [rc|e] eqn:Hv;
      [|discriminate].
    rewrite bind_Ok. intros [= <-]. simpl.
    eapply Forall_impl;
      [exact (visitChildren_among self children IH _ _ _ Hv (List.Forall_nil _))|].
    intros item Hitem. left. eexists. split; [reflexivity|].
    now apply positionAmong_element.
  - apply getPositionsText_placed.
Qed.

(** At the root every position that is found is a position of the tree
    that the scan leaves, or stands beside a text that is the tree. *)
Lemma getPositions_root_valid (view : Node)
    (scanned : option Node * list RangeParser.Item) :
  RangeParser._getPositions [] None view = Ok scanned ->
  Forall (fun item =>
            positionReturned (RangeParser.scannedRoot (fst scanned))
              (RangeParser.position item))
    (snd scanned).
Proof.
  intros Hscan.
  eapply Forall_impl; [exact (getPositions_placed _ _ _ _ Hscan)|].
  intros item [(node & -> & suffix & offset & -> & Hin)
              |[(owner & index & Hhome & _)|(_ & Hnull & text & ->)]];
    [|discriminate|].
  - left. exact Hin.
  - right. split; [reflexivity|exact Hnull].
Qed.

Lemma createLoop_keeps (P : Position -> Prop)
    (positions : list RangeParser.Item) :
  Forall (fun item => P (RangeParser.position item)) positions ->
  forall st st',
    RangeParser.createLoop positions st = Ok st' ->
    Forall (fun r => P (start r) /\ P (end_ r)) (RangeParser.ranges st) ->
    (forall r, RangeParser.range st = Some r -> P (start r)) ->
    Forall (fun r => P (start r) /\ P (end_ r)) (RangeParser.ranges st')
    /\ (forall r, RangeParser.range st' = Some r -> P (start r)).
Proof.
  induction 1 as [|item rest Hitem _ IH]; intros st st'; simpl.
  - intros [= <-]. auto.
  - destruct (RangeParser.createStep st item) as [st1|e] eqn:Hstep;
      [|discriminate].
    rewrite bind_Ok. intros Hrest Hranges Hopen.
    apply (IH _ _ Hrest); unfold RangeParser.createStep in Hstep;
      destruct (negb (bool_decide (is_Some (RangeParser.range st)))
                && RangeParser.isEndToken (RangeParser.bracket item));
      try discriminate Hstep;
      destruct (bool_decide (is_Some (RangeParser.range st))
                && RangeParser.isStartToken (RangeParser.bracket item));
      try discriminate Hstep;
      destruct (RangeParser.isStartToken (RangeParser.bracket item)).
    + injection Hstep as <-. exact Hranges.
    + destruct (RangeParser.range st) as [r|] eqn:Hr; [|discriminate].
      injection Hstep as <-. simpl. apply Forall_app. split; [exact Hranges|].
      constructor; [|constructor]. simpl. auto.
    + injection Hstep as <-. simpl. intros r [= <-]. exact Hitem.
    + destruct (RangeParser.range st) as [r|] eqn:Hr; [|discriminate].
      injection Hstep as <-. simpl. discriminate.
Qed.

Lemma createRanges_keeps (P : Position -> Prop)
    (positions : list RangeParser.Item) (rs : list Range) :
  Forall (fun item => P (RangeParser.position item)) positions ->
  RangeParser._createRanges positions = Ok rs ->
  Forall (fun r => P (start r) /\ P (end_ r)) rs.
Proof.
  intros Hall. unfold RangeParser._createRanges.
  destruct (RangeParser.createLoop positions (RangeParser.mkBuilder [] None))
    as [st|e] eqn:Hloop; [|discriminate].
  rewrite bind_Ok.
  destruct (RangeParser.range st); [discriminate|]. intros [= <-].
  apply (createLoop_keeps P positions Hall _ _ Hloop); simpl;
    [constructor|discriminate].
Qed.

Lemma arraySet_keeps {A : Type} (Q : A -> Prop) (a : JsArray A) (i : nat)
    (v : option A) :
  Forall (fun o => forall x, o = Some x -> Q x) a ->
  (forall x, v = Some x -> Q x) ->
  Forall (fun o => forall x, o = Some x -> Q x) (arraySet a i v).
Proof.
  intros Ha Hv. unfold arraySet. destruct (i <? length a)%nat.
  - now apply Forall_insert.
  - apply Forall_app. split; [exact Ha|]. apply Forall_app. split.
    + apply Forall_replicate. discriminate.
    + constructor; [exact Hv|constructor].
Qed.

Lemma assignAll_keeps (Q : Range -> Prop) (rs : list Range) :
  Forall Q rs ->
  forall rangesOrder index sorted,
    Forall (fun o => forall x, o = Some x -> Q x) sorted ->
    Forall (fun o => forall x, o = Some x -> Q x)
      (assignAll rs rangesOrder index sorted).
Proof.
  intros Hrs. induction rangesOrder as [|k rest IH]; intros index sorted Hs;
    simpl; [exact Hs|].
  apply IH. apply arraySet_keeps; [exact Hs|].
  intros x Hx. exact (Forall_lookup_1 _ _ _ _ Hrs Hx).
Qed.

Lemma denseRanges_keeps (Q : Range -> Prop) (a : JsArray Range)
    (l : list Range) :
  denseRanges a = Some l ->
  Forall (fun o => forall x, o = Some x -> Q x) a ->
  Forall Q l.
Proof.
  revert l. induction a as [|[r|] a IH]; intros l; simpl.
  - intros [= <-] _. constructor.
  - destruct (denseRanges a) as [l'|]; [|discriminate].
    intros [= <-] Hall. apply Forall_cons_iff in Hall as [Hr Hall].
    constructor; [now apply Hr|now apply IH].
  - discriminate.
Qed.

Section PositionsInView.

Variable toDom : string -> DomNode.
Variable D : Js.Number.

(** X14.  The ranges that [parse] returns lie in the view that it returns:
    the start and the end of every range of the selection are owned by a
    node of the returned view, with an offset between 0 and the number of
    children of that node, or the length of its text.  This holds for
    every order option that [parse] accepts, and although the scan takes
    characters out of the texts and empty text nodes out of the tree.  The
    one exception is a view that is a text alone: an element-range token
    at an edge of a text that has no parent gives a position without
    owner. *)
Theorem parse_ranges_in_view (data : string) (options : ParseOptions)
    (view : Node) (selection : Selection) :
  parse toDom D data options = Ok (ViewAndSelection view selection) ->
  Forall (fun r => positionReturned view (start r)
                   /\ positionReturned view (end_ r))
    (getRanges selection)
  /\ (isText view = false ->
      Forall (fun r => validPosition view (start r) = true
                       /\ validPosition view (end_ r) = true)
        (getRanges selection)).
Proof.
  intros Hparse.
  assert (Hall : Forall (fun r => positionReturned view (start r)
                                  /\ positionReturned view (end_ r))
                   (getRanges selection)).
  { revert Hparse. unfold parse, RangeParser.parse.
    destruct (ViewParser.parse D toDom data) as [view0|e]; [|discriminate].
    rewrite !bind_Ok.
    destruct (RangeParser._getPositions [] None view0) as [scanned|e]
      eqn:Hscan; [|discriminate].
    rewrite !bind_Ok.
    destruct (RangeParser._createRanges (snd scanned)) as [rs|e] eqn:Hrs;
      [|discriminate].
    rewrite !bind_Ok.
    apply getPositions_root_valid in Hscan.
    pose proof (createRanges_keeps
                  (positionReturned (RangeParser.scannedRoot (fst scanned)))
                  _ _ Hscan Hrs) as Hvalid.
    destruct (negb (length (order options) =? 0)%nat).
    - destruct (negb (length (order options) =? length rs)%nat);
        [discriminate|].
      unfold RangeParser._sortRanges. rewrite sortLoop_spec.
      destruct (forallb _ (order options)); [|discriminate].
      rewrite !bind_Ok. cbn [fst snd].
      destruct (negb (length (assignAll rs (order options) 0 []) =? 0)%nat);
        [|discriminate].
      unfold setRanges.
      destruct (denseRanges _) as [l|] eqn:Hdense; [|discriminate].
      rewrite bind_Ok. intros [= <- <-]. cbn [getRanges].
      apply (denseRanges_keeps _ _ _ Hdense).
      apply (assignAll_keeps _ rs Hvalid). constructor.
    - rewrite bind_Ok. cbn [fst snd].
      destruct (negb (length (map Some rs) =? 0)%nat); [|discriminate].
      unfold setRanges. rewrite denseRanges_map_Some, bind_Ok.
      now intros [= <- <-]. }
  split; [exact Hall|]. intros Htext.
  eapply Forall_impl; [exact Hall|]. simpl.
  intros r [[Hs|[Hs _]] [He|[He _]]]; try congruence. auto.
Qed.

End PositionsInView.

Lemma parse_ranges_in_view_witness :
  Forall (fun r =>
            validPosition
              (Element ViewElement "div" []
                 [Element ViewElement "p" [] [Text "foo"]]) (start r) = true
            /\ validPosition
                 (Element ViewElement "div" []
                    [Element ViewElement "p" [] [Text "foo"]]) (end_ r)
               = true)
    [mkRange (mkPosition [0%nat; 0%nat] 2) (mkPosition [0%nat; 0%nat] 3);
     mkRange (mkPosition [] 0) (mkPosition [] 0)].
Proof.
  apply (parse_ranges_in_view Html.toDom 10 "<div>[]<p>fo{o}</p></div>"
           (mkParseOptions [2; 1] false)
           (Element ViewElement "div" []
              [Element ViewElement "p" [] [Text "foo"]])
           (mkSelection
              [mkRange (mkPosition [0%nat; 0%nat] 2)
                 (mkPosition [0%nat; 0%nat] 3);
               mkRange (mkPosition [] 0) (mkPosition [] 0)] false)).
  - reflexivity.
  - reflexivity.
Defined.

(** For a text alone with element-range tokens around it, [parse] returns
    a range that no node owns. *)
Example parse_range_beside_root_text :
  parse Html.toDom 10 "[foo]" noOptions
  = Ok (ViewAndSelection (Text "foo")
          (mkSelection
             [mkRange (nullPosition None) (nullPosition (Some 1))] false)).
Proof. reflexivity. Qed.

(** ** Scanning what the scan left *)

(** What the scan leaves at the root: the stripped texts that are not
    empty, or the empty text when the view was a text alone of which
    nothing is left. *)
Lemma scanned_root_texts (view : Node)
    (scanned : option Node * list RangeParser.Item) :
  RangeParser._getPositions [] None view = Ok scanned ->
  textNodes (RangeParser.scannedRoot (fst scanned))
  = filter (fun d => nonEmptyText d = true)
      (map RangeParser.strip (textNodes view))
  \/ (exists data,
         view = Text data /\ RangeParser.strip data = EmptyString
         /\ RangeParser.scannedRoot (fst scanned) = Text EmptyString).
Proof.
  intros Hscan. rewrite (getPositions_root_kept _ _ Hscan).
  apply getPositions_Ok in Hscan as ([Htexts|(_ & Hleft & data & -> & Hnone)]
                                     & _ & _).
  - now left.
  - right. exists data. rewrite Hleft. auto.
Qed.

Lemma rangeParser_parse_view (view : Node) (order : list Z)
    (parsed : Node) (found : JsArray Range) :
  RangeParser.parse view order = Ok (parsed, found) ->
  exists scanned,
    RangeParser._getPositions [] None view = Ok scanned
    /\ parsed = RangeParser.scannedRoot (fst scanned).
Proof.
  unfold RangeParser.parse.
  destruct (RangeParser._getPositions [] None view) as [scanned|e];
    [|discriminate].
  rewrite bind_Ok.
  destruct (RangeParser._createRanges (snd scanned)) as [rs|e];
    [|discriminate].
  rewrite bind_Ok. intros Hparse. exists scanned. split; [reflexivity|].
  destruct (negb (length order =? 0)%nat).
  - destruct (negb (length order =? length rs)%nat); [discriminate|].
    destruct (RangeParser._sortRanges rs order); [|discriminate].
    rewrite bind_Ok in Hparse. now injection Hparse as <- _.
  - now injection Hparse as <- _.
Qed.

Lemma matched_none (texts : list string) :
  Forall (fun d => noneOf RangeParser.matches d = true) texts ->
  flat_map matched texts = [].
Proof.
  induction 1 as [|d ds Hd _ IH]; [reflexivity|]. simpl.
  rewrite IH, app_nil_r. rewrite <- (scan_matched d 0 0).
  now destruct (scan_plain d 0 0 Hd) as [-> _].
Qed.


